(** * hng1: an in-memory string repository (main.go)

    A shallow embedding of the text analyzer, the record store, the
    structured filter engine and the natural-language filter translator of
    [main.go], together with the properties its specification states.

    Conventions.
    - A Go [string] is a sequence of bytes: [list ascii] (an [ascii] is one
      8-bit byte).  Literals are written [str "..."].
    - A Go [int] is 64 bits wide (amd64/arm64 builds); it is a [Z] and the
      two arithmetic operations the program performs on parsed numbers are
      written with their wrap-around ([int_add], [int_sub]).
    - A [rune] is a [Z].
    - The standard-library routines the program calls ([strings.ToLower],
      [strings.Contains], [strings.TrimSpace], [strings.Fields],
      [strconv.Atoi], [regexp], the UTF-8 decoding of [for range]) are
      modelled after their Go implementation.  Two things stay parameters:
      the Unicode case table behind [unicode.ToLower] for non-ASCII runes,
      and the SHA-256 digest. *)

From Stdlib Require Import ZArith Ascii String List Bool Lia.
From stdpp Require Import base option list gmap strings.

Local Open Scope Z_scope.

(** ** Bytes, runes and machine integers *)

Abbreviation gostring := (list ascii).

(** A string as [range] reads it: its runes, each with its bytes. *)
Abbreviation input := (list (Z * gostring)).

Definition str (s : string) : gostring := list_ascii_of_string s.

Definition code (c : ascii) : Z := Z.of_N (N_of_ascii c).
Definition chr (z : Z) : ascii := ascii_of_N (Z.to_N z).

Definition len (s : gostring) : Z := Z.of_nat (length s).

Definition intSize : Z := 64.
Definition maxInt : Z := 2 ^ (intSize - 1) - 1.
Definition minInt : Z := - 2 ^ (intSize - 1).

(** Two's complement wrap-around of Go's [int]. *)
Definition wrap (z : Z) : Z := (z + 2 ^ (intSize - 1)) mod 2 ^ intSize - 2 ^ (intSize - 1).
Definition int_add (x y : Z) : Z := wrap (x + y).
Definition int_sub (x y : Z) : Z := wrap (x - y).

Definition between (lo hi : Z) (c : ascii) : bool := (lo <=? code c) && (code c <=? hi).

Definition isDigit (c : ascii) : bool := between 48 57 c.          (* 0-9 *)
Definition isLower (c : ascii) : bool := between 97 122 c.         (* a-z *)
Definition isUpper (c : ascii) : bool := between 65 90 c.          (* A-Z *)
Definition isAlnum (c : ascii) : bool := isLower c || isUpper c || isDigit c.

(** ** unicode/utf8 *)

Definition RuneError : Z := 65533.       (* U+FFFD *)
Definition RuneSelf : Z := 128.
Definition MaxRune : Z := 1114111.       (* U+10FFFF *)
Definition MaxASCII : Z := 127.
Definition MaxLatin1 : Z := 255.

(** The entry of utf8's [first] table for a leading byte: [None] for an
    ASCII or an invalid leading byte, otherwise the length of the sequence
    and the range accepted for the second byte. *)
Definition first (b0 : Z) : option (nat * (Z * Z)) :=
  if (194 <=? b0) && (b0 <=? 223) then Some (2%nat, (128, 191))
  else if b0 =? 224 then Some (3%nat, (160, 191))
  else if (225 <=? b0) && (b0 <=? 236) then Some (3%nat, (128, 191))
  else if b0 =? 237 then Some (3%nat, (128, 159))
  else if (238 <=? b0) && (b0 <=? 239) then Some (3%nat, (128, 191))
  else if b0 =? 240 then Some (4%nat, (144, 191))
  else if (241 <=? b0) && (b0 <=? 243) then Some (4%nat, (128, 191))
  else if b0 =? 244 then Some (4%nat, (128, 143))
  else None.

Definition isCont (b : Z) : bool := (128 <=? b) && (b <=? 191).

(** [utf8.DecodeRuneInString]: the rune at the head of [s] and its width in
    bytes; an invalid or truncated sequence is [RuneError] of width 1. *)
Definition DecodeRuneInString (s : gostring) : Z * nat :=
  match s with
  | [] => (RuneError, 0%nat)
  | c0 :: s1 =>
    let b0 := code c0 in
    match first b0 with
    | None => (if b0 <? RuneSelf then b0 else RuneError, 1%nat)
    | Some (sz, (lo, hi)) =>
      match s1 with
      | [] => (RuneError, 1%nat)
      | c1 :: s2 =>
        let b1 := code c1 in
        if (b1 <? lo) || (hi <? b1) then (RuneError, 1%nat)
        else if (sz <=? 2)%nat then
          (Z.lor (Z.shiftl (Z.land b0 31) 6) (Z.land b1 63), 2%nat)
        else
          match s2 with
          | [] => (RuneError, 1%nat)
          | c2 :: s3 =>
            let b2 := code c2 in
            if negb (isCont b2) then (RuneError, 1%nat)
            else if (sz <=? 3)%nat then
              (Z.lor (Z.lor (Z.shiftl (Z.land b0 15) 12)
                            (Z.shiftl (Z.land b1 63) 6))
                     (Z.land b2 63), 3%nat)
            else
              match s3 with
              | [] => (RuneError, 1%nat)
              | c3 :: _ =>
                let b3 := code c3 in
                if negb (isCont b3) then (RuneError, 1%nat)
                else
                  (Z.lor (Z.lor (Z.lor (Z.shiftl (Z.land b0 7) 18)
                                       (Z.shiftl (Z.land b1 63) 12))
                                (Z.shiftl (Z.land b2 63) 6))
                         (Z.land b3 63), 4%nat)
              end
          end
      end
    end
  end.

(** [for _, char := range s]: the runes of [s] in order, each with the
    bytes it was decoded from.  The fuel is the number of bytes, and every
    step consumes at least one. *)
Fixpoint rangeFrom (fuel : nat) (s : gostring) : list (Z * gostring) :=
  match fuel with
  | O => []
  | S fuel' =>
    match s with
    | [] => []
    | _ :: _ =>
      let '(r, w) := DecodeRuneInString s in
      (r, take w s) :: rangeFrom fuel' (drop w s)
    end
  end.

Definition rangeString (s : gostring) : list (Z * gostring) := rangeFrom (length s) s.

Definition runes (s : gostring) : list Z := map fst (rangeString s).

(** [utf8.EncodeRune] / [string(rune)]: surrogates and values outside the
    Unicode range are encoded as U+FFFD. *)
Definition EncodeRune (r : Z) : gostring :=
  if (0 <=? r) && (r <=? 127) then [chr r]
  else if (0 <=? r) && (r <=? 2047) then
    [chr (Z.lor 192 (Z.shiftr r 6)); chr (Z.lor 128 (Z.land r 63))]
  else
    let r := if (r <? 0) || (MaxRune <? r) || ((55296 <=? r) && (r <=? 57343))
             then RuneError else r in
    if r <=? 65535 then
      [chr (Z.lor 224 (Z.shiftr r 12));
       chr (Z.lor 128 (Z.land (Z.shiftr r 6) 63));
       chr (Z.lor 128 (Z.land r 63))]
    else
      [chr (Z.lor 240 (Z.shiftr r 18));
       chr (Z.lor 128 (Z.land (Z.shiftr r 12) 63));
       chr (Z.lor 128 (Z.land (Z.shiftr r 6) 63));
       chr (Z.lor 128 (Z.land r 63))].


(** ** The program: data *)

(** A value stored in a [map[string]interface{}]. *)
Inductive value : Type :=
| VBool (b : bool)
| VInt (n : Z)
| VString (s : gostring).

Record StringProperties : Type := {
  Length : Z;
  IsPalindrome : bool;
  UniqueCharacters : Z;
  WordCount : Z;
  SHA256Hash : gostring;
  CharacterFrequencyMap : gmap gostring Z
}.

Record StringData : Type := {
  ID : gostring;
  Value : gostring;
  Properties : StringProperties;
  CreatedAt : Z
}.

Record InterpretedQuery : Type := {
  Original : gostring;
  ParsedFilters : gmap gostring value
}.

Record NaturalLanguageResponse : Type := {
  Data : list StringData;
  Count : Z;
  Interpreted : InterpretedQuery
}.

(** What a handler sends back: a record, a filtered list, a bare status, or
    a [fiber.NewError(code, message)]. *)
Inductive reply : Type :=
| JSONRecord (status : Z) (d : StringData)
| JSONFiltered (r : NaturalLanguageResponse)
| SendStatus (status : Z)
| NewError (status : Z) (message : gostring).

Definition StatusCreated : Z := 201.
Definition StatusOK : Z := 200.
Definition StatusNoContent : Z := 204.
Definition StatusBadRequest : Z := 400.
Definition StatusNotFound : Z := 404.
Definition StatusConflict : Z := 409.

(** The in-memory storage, keyed by the string value. *)
Abbreviation storage := (gmap gostring StringData).

(** ** The program: the reply of the list handler *)

(** [GetAllStringsResponse]; its fields carry the names of the Go struct. *)
Module GetAllStringsResponse.
Record t : Type := {
  Data : list StringData;
  Count : Z;
  FiltersApplied : gmap gostring value
}.
End GetAllStringsResponse.

(** What [getAllStrings] sends back: the filtered list, or a
    [fiber.NewError(code, message)]. *)
Inductive listReply : Type :=
| JSONList (r : GetAllStringsResponse.t)
| ListError (status : Z) (message : gostring).


(** ** unicode *)

(** What the program takes from the Go distribution as data or as a
    primitive: [caseLower] is [unicode.To(unicode.LowerCase, r)] for a rune
    above ASCII, the lookup in Unicode's case table; [sha256hex] is
    [crypto/sha256] followed by [hex.EncodeToString]. *)
Class Platform : Type := {
  caseLower : Z -> Z;
  sha256hex : gostring -> gostring
}.

Section Program.

Context `{platform : Platform}.

Definition unicode_ToLower (r : Z) : Z :=
  if r <=? MaxASCII then
    if (65 <=? r) && (r <=? 90) then r + 32 else r
  else caseLower r.

(** [unicode.IsSpace]: the Latin-1 spaces, then the White_Space table. *)
Definition IsSpace (r : Z) : bool :=
  if r <=? MaxLatin1 then
    ((9 <=? r) && (r <=? 13)) || (r =? 32) || (r =? 133) || (r =? 160)
  else
    (r =? 5760) || ((8192 <=? r) && (r <=? 8202)) || (r =? 8232) || (r =? 8233)
    || (r =? 8239) || (r =? 8287) || (r =? 12288).

(** ** strings *)

(** [strings.Map]: every rune is replaced by the encoding of its image, a
    negative image drops it; an invalid byte is read as U+FFFD. *)
Definition Map (mapping : Z -> Z) (s : gostring) : gostring :=
  flat_map (fun ch : Z * gostring =>
              let r := mapping (fst ch) in
              if 0 <=? r then EncodeRune r else [])
           (rangeString s).

Definition lowerByte (c : ascii) : ascii :=
  if isUpper c then chr (code c + 32) else c.

(** [strings.ToLower]: byte-wise on an ASCII-only string, otherwise
    [unicode.ToLower] mapped over the runes. *)
Definition ToLower (s : gostring) : gostring :=
  let isASCII := forallb (fun c => code c <? RuneSelf) s in
  let hasUpper := existsb isUpper s in
  if isASCII then
    if hasUpper then map lowerByte s else s
  else Map unicode_ToLower s.

Fixpoint HasPrefix (s prefix : gostring) {struct prefix} : bool :=
  match prefix, s with
  | [], _ => true
  | p :: prefix', c :: s' => bool_decide (p = c) && HasPrefix s' prefix'
  | _ :: _, [] => false
  end.

(** [strings.Contains]: [substr] occurs in [s] as a run of bytes. *)
Fixpoint Contains (s substr : gostring) : bool :=
  HasPrefix s substr ||
  match s with
  | [] => false
  | _ :: s' => Contains s' substr
  end.

Fixpoint dropWhile {A} (f : A -> bool) (l : list A) : list A :=
  match l with
  | [] => []
  | x :: l' => if f x then dropWhile f l' else l
  end.

(** [strings.TrimSpace]: leading and trailing white-space runes removed. *)
Definition TrimSpace (s : gostring) : gostring :=
  let sp := fun ch : Z * gostring => IsSpace (fst ch) in
  let left := dropWhile sp (rangeString s) in
  let both := rev (dropWhile sp (rev left)) in
  concat (map snd both).

(** [strings.Fields]: the maximal runs of runes that are not white space.
    [cur] is the field being read, if any. *)
Fixpoint fieldsFrom (rs : list (Z * gostring)) (cur : option gostring) : list gostring :=
  match rs with
  | [] => match cur with Some f => [f] | None => [] end
  | (r, bs) :: rs' =>
    if IsSpace r then
      match cur with
      | Some f => f :: fieldsFrom rs' None
      | None => fieldsFrom rs' None
      end
    else fieldsFrom rs' (Some (default [] cur ++ bs))
  end.

Definition Fields (s : gostring) : list gostring := fieldsFrom (rangeString s) None.

(** ** strconv *)

(** The loop of [strconv.ParseUint] in base 10 on 64 bits: [inl n] is the
    accumulated value, [inr e] an early return ([e] true: range error with
    the maximal value, [e] false: syntax error). *)
Definition maxUint64 : Z := 2 ^ 64 - 1.

Fixpoint parseUintLoop (s : gostring) (n : Z) : Z + bool :=
  match s with
  | [] => inl n
  | c :: s' =>
    if negb (isDigit c) then inr false
    else
      let d := code c - 48 in
      if maxUint64 / 10 + 1 <=? n then inr true
      else
        let n10 := (n * 10) mod 2 ^ 64 in
        let n1 := (n10 + d) mod 2 ^ 64 in
        if (n1 <? n10) || (maxUint64 <? n1) then inr true
        else parseUintLoop s' n1
  end.

(** The results are pairs of the value and whether [err == nil]. *)
Definition ParseUint (s : gostring) : Z * bool :=
  match s with
  | [] => (0, false)
  | _ :: _ =>
    match parseUintLoop s 0 with
    | inl n => (n, true)
    | inr true => (maxUint64, false)
    | inr false => (0, false)
    end
  end.

Definition isRangeErr (s : gostring) : bool :=
  match s with
  | [] => false
  | _ :: _ => match parseUintLoop s 0 with inr true => true | _ => false end
  end.

Definition ParseInt (s : gostring) : Z * bool :=
  match s with
  | [] => (0, false)
  | c :: s' =>
    let neg := bool_decide (c = "-"%char) in
    let s1 := if bool_decide (c = "+"%char) || neg then s' else s in
    let '(un, ok) := ParseUint s1 in
    if negb ok && negb (isRangeErr s1) then (0, false)
    else
      let cutoff := 2 ^ (intSize - 1) in
      if negb neg && (cutoff <=? un) then (cutoff - 1, false)
      else if neg && (cutoff <? un) then (- cutoff, false)
      else (if neg then - un else un, true)
  end.

Fixpoint atoiFast (s : gostring) (n : Z) : option Z :=
  match s with
  | [] => Some n
  | c :: s' => if isDigit c then atoiFast s' (n * 10 + (code c - 48)) else None
  end.

(** [strconv.Atoi]: strings of fewer than 19 bytes take the fast path. *)
Definition Atoi (s : gostring) : Z * bool :=
  match s with
  | c :: s' =>
    if (length s <? 19)%nat then
      let signed := bool_decide (c = "-"%char) || bool_decide (c = "+"%char) in
      let digits := if signed then s' else s in
      match digits with
      | [] => (0, false)
      | _ :: _ =>
        match atoiFast digits 0 with
        | None => (0, false)
        | Some n => (if bool_decide (c = "-"%char) then - n else n, true)
        end
      end
    else ParseInt s
  | [] => ParseInt s
  end.

(** ** regexp *)

(** The fragment of RE2 syntax the program uses.  Matching is on runes, as
    in Go; [Group] is the (single) capturing group, [PlusClass p] is [p+]
    for a character class [p]. *)
Inductive regex : Type :=
| Lit (l : list Z)
| Class (p : Z -> bool)
| Cat (r1 r2 : regex)
| Alt (r1 r2 : regex)
| Opt (r : regex)
| PlusClass (p : Z -> bool)
| Group (r : regex).

Definition lit (s : string) : regex := Lit (runes (str s)).

Definition bytesOf (s : input) : gostring := concat (map snd s).

(** The bytes read between the input [s] and its suffix [s']. *)
Definition consumed (s s' : input) : gostring :=
  bytesOf (take (length s - length s') s).

Fixpoint matchLit (l : list Z) (s : input) : option input :=
  match l with
  | [] => Some s
  | r :: l' =>
    match s with
    | (r', _) :: s' => if r =? r' then matchLit l' s' else None
    | [] => None
    end
  end.

(** Greedy [p+]: the longest run first, then shorter ones. *)
Fixpoint matchPlus {A} (p : Z -> bool) (s : input) (k : input -> option A) : option A :=
  match s with
  | (r, _) :: s' =>
    if p r then
      match matchPlus p s' k with
      | Some x => Some x
      | None => k s'
      end
    else None
  | [] => None
  end.

(** A backtracking matcher in continuation-passing style; the order of the
    alternatives is RE2's leftmost-first preference. *)
Fixpoint re_match {A} (r : regex) (s : input) (cap : option gostring)
         (k : input -> option gostring -> option A) : option A :=
  match r with
  | Lit l => match matchLit l s with Some s' => k s' cap | None => None end
  | Class p =>
    match s with
    | (c, _) :: s' => if p c then k s' cap else None
    | [] => None
    end
  | Cat r1 r2 => re_match r1 s cap (fun s' cap' => re_match r2 s' cap' k)
  | Alt r1 r2 =>
    match re_match r1 s cap k with
    | Some x => Some x
    | None => re_match r2 s cap k
    end
  | Opt r1 =>
    match re_match r1 s cap k with
    | Some x => Some x
    | None => k s cap
    end
  | PlusClass p => matchPlus p s (fun s' => k s' cap)
  | Group r1 => re_match r1 s cap (fun s' _ => k s' (Some (consumed s s')))
  end.

Definition matchHere (re : regex) (s : input) : option (input * option gostring) :=
  re_match re s None (fun s' cap => Some (s', cap)).

Fixpoint findFrom (re : regex) (s : input) : list gostring :=
  match matchHere re s with
  | Some (s', cap) => [consumed s s'; default [] cap]
  | None =>
    match s with
    | [] => []
    | _ :: s' => findFrom re s'
    end
  end.

(** [Regexp.FindStringSubmatch]: the leftmost match and its group, or
    nil. *)
Definition FindStringSubmatch (re : regex) (s : gostring) : list gostring :=
  findFrom re (rangeString s).

(** [Regexp.ReplaceAllString]: every match, left to right, is replaced
    by [repl]; an empty match is stepped over. *)
Fixpoint replaceFrom (fuel : nat) (re : regex) (s : input) (repl : gostring) : gostring :=
  match fuel with
  | O => bytesOf s
  | S fuel' =>
    match s with
    | [] => []
    | ch :: rest =>
      match matchHere re s with
      | Some (s', _) =>
        if (length s' <? length s)%nat
        then repl ++ replaceFrom fuel' re s' repl
        else snd ch ++ replaceFrom fuel' re rest repl
      | None => snd ch ++ replaceFrom fuel' re rest repl
      end
    end
  end.

Definition ReplaceAllString (re : regex) (s repl : gostring) : gostring :=
  let inp := rangeString s in replaceFrom (length inp) re inp repl.

Definition digit (r : Z) : bool := (48 <=? r) && (r <=? 57).        (* \d *)
Definition lower (r : Z) : bool := (97 <=? r) && (r <=? 122).       (* [a-z] *)
Definition upper (r : Z) : bool := (65 <=? r) && (r <=? 90).
Definition notAlnum (r : Z) : bool := negb (lower r || upper r || digit r).

(** ** The program: text analyzer *)

Definition computeSHA256 (s : gostring) : gostring := sha256hex s.

Fixpoint isPalindrome_loop (cleaned : gostring) (length : nat) (steps i : nat) : bool :=
  match steps with
  | O => true
  | S steps' =>
    if bool_decide (cleaned !! i ≠ cleaned !! (length - 1 - i)%nat) then false
    else isPalindrome_loop cleaned length steps' (S i)
  end.

Definition isPalindrome (s : gostring) : bool :=
  let cleaned := ToLower (ReplaceAllString (Class notAlnum) s []) in
  let length := length cleaned in
  isPalindrome_loop cleaned length (length / 2)%nat 0%nat.

Definition countUniqueCharacters (s : gostring) : Z :=
  let charSet : gmap Z bool :=
    fold_left (fun m char => <[char := true]> m) (runes s) ∅ in
  Z.of_nat (size charSet).

Definition countWords (s : gostring) : Z :=
  let s := TrimSpace s in
  match s with
  | [] => 0
  | _ :: _ => Z.of_nat (length (Fields s))
  end.

Definition getCharacterFrequency (s : gostring) : gmap gostring Z :=
  fold_left (fun frequency char =>
               let k := EncodeRune char in
               <[k := default 0 (frequency !! k) + 1]> frequency)
            (runes s) ∅.

Definition analyzeString (value : gostring) : StringProperties :=
  let hash := computeSHA256 value in
  {| Length := len value;
     IsPalindrome := isPalindrome value;
     UniqueCharacters := countUniqueCharacters value;
     WordCount := countWords value;
     SHA256Hash := hash;
     CharacterFrequencyMap := getCharacterFrequency value |}.

(** ** The program: record store handlers

    Each handler runs from start to end on the storage it is given; [now]
    is the reading of the clock and [req] the outcome of [c.BodyParser]
    ([None] when the body does not parse). *)

Definition createString (req : option gostring) (now : Z) (st : storage) : reply * storage :=
  match req with
  | None => (NewError StatusBadRequest (str "Invalid request body"), st)
  | Some v =>
    match v with
    | [] => (NewError StatusBadRequest (str "Missing 'value' field"), st)
    | _ :: _ =>
      let hash := computeSHA256 v in
      match st !! v with
      | Some _ => (NewError StatusConflict (str "String already exists in the system"), st)
      | None =>
        let properties := analyzeString v in
        let stringData := {| ID := hash; Value := v; Properties := properties; CreatedAt := now |} in
        (JSONRecord StatusCreated stringData, <[v := stringData]> st)
      end
    end
  end.

Definition getSpecificString (stringValue : gostring) (st : storage) : reply :=
  match st !! stringValue with
  | None => NewError StatusNotFound (str "String does not exist in the system")
  | Some data => JSONRecord StatusOK data
  end.

Definition deleteString (stringValue : gostring) (st : storage) : reply * storage :=
  match st !! stringValue with
  | None => (NewError StatusNotFound (str "String does not exist in the system"), st)
  | Some _ => (SendStatus StatusNoContent, delete stringValue st)
  end.

(** ** The program: structured filter engine *)

Definition matchesFilters (data : StringData) (isPalindrome : option bool)
           (minLength maxLength wordCount : option Z) (containsChar : gostring) : bool :=
  if match isPalindrome with
     | Some b => negb (Bool.eqb (IsPalindrome (Properties data)) b)
     | None => false
     end then false
  else if match minLength with
          | Some m => Length (Properties data) <? m
          | None => false
          end then false
  else if match maxLength with
          | Some m => m <? Length (Properties data)
          | None => false
          end then false
  else if match wordCount with
          | Some w => negb (WordCount (Properties data) =? w)
          | None => false
          end then false
  else if negb (bool_decide (containsChar = []))
          && negb (Contains (ToLower (Value data)) (ToLower containsChar)) then false
  else true.

(** ** The program: the list handler *)

(** [strconv.ParseBool]: the value and whether [err == nil]. *)
Definition ParseBool (s : gostring) : bool * bool :=
  if bool_decide (s ∈ [str "1"; str "t"; str "T"; str "TRUE"; str "true"; str "True"])
  then (true, true)
  else if bool_decide (s ∈ [str "0"; str "f"; str "F"; str "FALSE"; str "false"; str "False"])
  then (false, true)
  else (false, false).

(** The five query parameters are the strings [c.Query] returns, empty when
    a parameter is absent.  The checks run in the order of the source and
    the first one that fails ends the handler. *)
Definition getAllStrings (isPalindromeStr minLengthStr maxLengthStr wordCountStr
                          containsChar : gostring) (st : storage) : listReply :=
  let filtersApplied : gmap gostring value := ∅ in
  match
    match isPalindromeStr with
    | [] => inl (None, filtersApplied)
    | _ :: _ =>
      let '(val, ok) := ParseBool isPalindromeStr in
      if negb ok then inr (str "Invalid value for is_palindrome")
      else inl (Some val, <[str "is_palindrome" := VBool val]> filtersApplied)
    end
  with
  | inr msg => ListError StatusBadRequest msg
  | inl (isPalindrome, filtersApplied) =>
  match
    match minLengthStr with
    | [] => inl (None, filtersApplied)
    | _ :: _ =>
      let '(val, ok) := Atoi minLengthStr in
      if negb ok || (val <? 0) then inr (str "Invalid value for min_length")
      else inl (Some val, <[str "min_length" := VInt val]> filtersApplied)
    end
  with
  | inr msg => ListError StatusBadRequest msg
  | inl (minLength, filtersApplied) =>
  match
    match maxLengthStr with
    | [] => inl (None, filtersApplied)
    | _ :: _ =>
      let '(val, ok) := Atoi maxLengthStr in
      if negb ok || (val <? 0) then inr (str "Invalid value for max_length")
      else inl (Some val, <[str "max_length" := VInt val]> filtersApplied)
    end
  with
  | inr msg => ListError StatusBadRequest msg
  | inl (maxLength, filtersApplied) =>
  match
    match wordCountStr with
    | [] => inl (None, filtersApplied)
    | _ :: _ =>
      let '(val, ok) := Atoi wordCountStr in
      if negb ok || (val <? 0) then inr (str "Invalid value for word_count")
      else inl (Some val, <[str "word_count" := VInt val]> filtersApplied)
    end
  with
  | inr msg => ListError StatusBadRequest msg
  | inl (wordCount, filtersApplied) =>
  match
    match containsChar with
    | [] => inl filtersApplied
    | _ :: _ =>
      if negb (length containsChar =? 1)%nat
      then inr (str "contains_character must be a single character")
      else inl (<[str "contains_character" := VString containsChar]> filtersApplied)
    end
  with
  | inr msg => ListError StatusBadRequest msg
  | inl filtersApplied =>
    let filtered :=
      List.filter (fun data => matchesFilters data isPalindrome minLength maxLength
                                              wordCount containsChar)
                  (map snd (map_to_list st)) in
    JSONList {| GetAllStringsResponse.Data := filtered;
                GetAllStringsResponse.Count := Z.of_nat (length filtered);
                GetAllStringsResponse.FiltersApplied := filtersApplied |}
  end end end end end.


(** ** The program: natural-language filter translator *)

Definition longerThanRegex : regex := Cat (lit "longer than ") (Group (PlusClass digit)).
Definition shorterThanRegex : regex := Cat (lit "shorter than ") (Group (PlusClass digit)).
Definition containsRegex : regex :=
  Cat (lit "contain")
 (Cat (Opt (Alt (lit "s") (lit "ing")))
 (Cat (lit " ")
 (Cat (Opt (lit "the "))
 (Cat (Alt (lit "letter") (lit "character"))
 (Cat (lit " ") (Group (Class lower))))))).

Definition parseNaturalLanguageQuery (query : gostring) : gmap gostring value + gostring :=
  let filters : gmap gostring value := ∅ in
  let lowerQuery := ToLower query in
  let filters :=
    if Contains lowerQuery (str "palindrom")
    then <[str "is_palindrome" := VBool true]> filters else filters in
  let filters :=
    if Contains lowerQuery (str "single word")
    then <[str "word_count" := VInt 1]> filters
    else if Contains lowerQuery (str "two word")
    then <[str "word_count" := VInt 2]> filters else filters in
  let filters :=
    let matches := FindStringSubmatch longerThanRegex lowerQuery in
    if (1 <? length matches)%nat then
      let length := fst (Atoi (default [] (matches !! 1%nat))) in
      <[str "min_length" := VInt (int_add length 1)]> filters
    else filters in
  let filters :=
    let matches := FindStringSubmatch shorterThanRegex lowerQuery in
    if (1 <? length matches)%nat then
      let length := fst (Atoi (default [] (matches !! 1%nat))) in
      <[str "max_length" := VInt (int_sub length 1)]> filters
    else filters in
  let filters :=
    let matches := FindStringSubmatch containsRegex lowerQuery in
    if (1 <? length matches)%nat
    then <[str "contains_character" := VString (default [] (matches !! 1%nat))]> filters
    else filters in
  let filters :=
    if Contains lowerQuery (str "first vowel")
    then <[str "contains_character" := VString (str "a")]> filters else filters in
  if (size filters =? 0)%nat
  then inr (str "could not parse any filters from query")
  else inl filters.

Definition matchesNaturalFilters (data : StringData) (filters : gmap gostring value) : bool :=
  if match filters !! str "is_palindrome" with
     | Some (VBool isPalindrome) => negb (Bool.eqb (IsPalindrome (Properties data)) isPalindrome)
     | _ => false
     end then false
  else if match filters !! str "word_count" with
          | Some (VInt wordCount) => negb (WordCount (Properties data) =? wordCount)
          | _ => false
          end then false
  else if match filters !! str "min_length" with
          | Some (VInt minLength) => Length (Properties data) <? minLength
          | _ => false
          end then false
  else if match filters !! str "max_length" with
          | Some (VInt maxLength) => maxLength <? Length (Properties data)
          | _ => false
          end then false
  else if match filters !! str "contains_character" with
          | Some (VString containsChar) =>
            negb (Contains (ToLower (Value data)) (ToLower containsChar))
          | _ => false
          end then false
  else true.

(** The records are visited in the order of [map_to_list]; Go leaves the
    order of a map iteration unspecified, and nothing below depends on it. *)
Definition filterByNaturalLanguage (query : gostring) (st : storage) : reply :=
  match query with
  | [] => NewError StatusBadRequest (str "Missing 'query' parameter")
  | _ :: _ =>
    match parseNaturalLanguageQuery query with
    | inr err => NewError StatusBadRequest (str "Unable to parse query: " ++ err)
    | inl filters =>
      let filtered :=
        List.filter (fun data => matchesNaturalFilters data filters)
                    (map snd (map_to_list st)) in
      JSONFiltered {| Data := filtered;
                      Count := Z.of_nat (length filtered);
                      Interpreted := {| Original := query; ParsedFilters := filters |} |}
    end
  end.


(** ** Notions used to state the properties *)

Definition validScalar (r : Z) : Prop :=
  0 <= r <= MaxRune /\ ~ (55296 <= r <= 57343).

(** What [range] yields for one rune: a scalar value with its encoding, or
    U+FFFD for a single stray byte. *)
Definition chunkOK (ch : Z * gostring) : Prop :=
  (EncodeRune (fst ch) = snd ch /\ validScalar (fst ch))
  \/ (fst ch = RuneError /\ length (snd ch) = 1%nat).

Definition asciiChunks (s : gostring) : list (Z * gostring) :=
  map (fun c => (code c, [c])) s.

Definition isASCII (s : gostring) : Prop := Forall (fun c => code c < 128) s.

(** The language of a regular expression, as words of runes. *)
Fixpoint lang (r : regex) (w : list Z) : Prop :=
  match r with
  | Lit l => w = l
  | Class p => exists c, w = [c] /\ p c = true
  | Cat r1 r2 => exists w1 w2, w = w1 ++ w2 /\ lang r1 w1 /\ lang r2 w2
  | Alt r1 r2 => lang r1 w \/ lang r2 w
  | Opt r1 => w = [] \/ lang r1 w
  | PlusClass p => w <> [] /\ Forall (fun c => p c = true) w
  | Group r1 => lang r1 w
  end.

(** Words of ASCII runes and the bytes they are read from. *)
Definition asciiWord (w : list Z) : Prop := Forall (fun r => 0 <= r < 128) w.

Definition asciiLang (re : regex) : Prop := forall w, lang re w -> asciiWord w.

(** A pattern occurs in a string: some run of bytes, read as runes, is a
    word of the language. *)
Definition occurs (re : regex) (s : gostring) : Prop :=
  exists pre w post, s = pre ++ w ++ post /\ lang re (map code w).

(** "<phrase> N": the phrase followed by at least one decimal digit. *)
Definition phraseNumber (phrase : string) (s : gostring) : Prop :=
  exists pre d post, s = pre ++ str phrase ++ d :: post /\ isDigit d = true.

(** "contain(s|ing) [the] (letter|character) X". *)
Definition containsPhrase (s : gostring) : Prop :=
  exists pre verb article noun x post,
    s = pre ++ verb ++ str " " ++ article ++ noun ++ str " " ++ x :: post
    /\ In verb [str "contains"; str "containing"; str "contain"]
    /\ In article [str "the "; []]
    /\ In noun [str "letter"; str "character"]
    /\ isLower x = true.

(** The map [filters] at the end of [parseNaturalLanguageQuery], before its
    size is tested. *)
Definition parsedFilters (query : gostring) : gmap gostring value :=
  let lowerQuery := ToLower query in
  let f1 : gmap gostring value :=
    if Contains lowerQuery (str "palindrom")
    then <[str "is_palindrome" := VBool true]> ∅ else ∅ in
  let f2 :=
    if Contains lowerQuery (str "single word")
    then <[str "word_count" := VInt 1]> f1
    else if Contains lowerQuery (str "two word")
    then <[str "word_count" := VInt 2]> f1 else f1 in
  let f3 :=
    if (1 <? length (FindStringSubmatch longerThanRegex lowerQuery))%nat
    then <[str "min_length" :=
             VInt (int_add (fst (Atoi (default []
               (FindStringSubmatch longerThanRegex lowerQuery !! 1%nat)))) 1)]> f2
    else f2 in
  let f4 :=
    if (1 <? length (FindStringSubmatch shorterThanRegex lowerQuery))%nat
    then <[str "max_length" :=
             VInt (int_sub (fst (Atoi (default []
               (FindStringSubmatch shorterThanRegex lowerQuery !! 1%nat)))) 1)]> f3
    else f3 in
  let f5 :=
    if (1 <? length (FindStringSubmatch containsRegex lowerQuery))%nat
    then <[str "contains_character" :=
             VString (default [] (FindStringSubmatch containsRegex lowerQuery !! 1%nat))]> f4
    else f4 in
  if Contains lowerQuery (str "first vowel")
  then <[str "contains_character" := VString (str "a")]> f5 else f5.

(** The seven tests of the translator. *)
Definition anyCheck (lowerQuery : gostring) : bool :=
  Contains lowerQuery (str "palindrom")
  || Contains lowerQuery (str "single word")
  || Contains lowerQuery (str "two word")
  || (1 <? length (FindStringSubmatch longerThanRegex lowerQuery))%nat
  || (1 <? length (FindStringSubmatch shorterThanRegex lowerQuery))%nat
  || (1 <? length (FindStringSubmatch containsRegex lowerQuery))%nat
  || Contains lowerQuery (str "first vowel").

(** The number a run of decimal digits denotes. *)
Definition decimalFrom (ds : gostring) (n : Z) : Z :=
  fold_left (fun acc c => acc * 10 + (code c - 48)) ds n.

Definition decimal (ds : gostring) : Z := decimalFrom ds 0.

Definition digits (ds : gostring) : Prop := Forall (fun c => isDigit c = true) ds.

Definition phraseRegex (phrase : string) : regex :=
  Cat (lit phrase) (Group (PlusClass digit)).

(** [sub] occurs in [s] when upper and lower case are not told apart. *)
Definition containsFold (s sub : gostring) : Prop :=
  exists pre post, ToLower s = pre ++ ToLower sub ++ post.

(** The storages the handlers can produce, starting from the empty one. *)
Inductive reachable : storage -> Prop :=
| reach_init : reachable ∅
| reach_create (req : option gostring) (now : Z) (st : storage) :
    reachable st -> reachable (snd (createString req now st))
| reach_delete (stringValue : gostring) (st : storage) :
    reachable st -> reachable (snd (deleteString stringValue st)).

Definition panama : gostring := str "A man a plan a canal Panama".

(** [sub] occurs in [s] as a run of bytes. *)
Definition substring (sub s : gostring) : Prop :=
  exists pre post, s = pre ++ sub ++ post.

(** One of the patterns of the translator occurs in the lower-cased query. *)
Definition anyPattern (lowerQuery : gostring) : Prop :=
  substring (str "palindrom") lowerQuery
  \/ substring (str "single word") lowerQuery
  \/ substring (str "two word") lowerQuery
  \/ phraseNumber "longer than " lowerQuery
  \/ phraseNumber "shorter than " lowerQuery
  \/ containsPhrase lowerQuery
  \/ substring (str "first vowel") lowerQuery.

(** The pattern "<phrase> N" matches with the digits [ds] for N: [ds] is
    the whole run of digits after the leftmost place where the phrase is
    followed by a digit. *)
Definition matchesNumber (phrase : string) (s ds : gostring) : Prop :=
  exists pre post,
    s = pre ++ str phrase ++ ds ++ post
    /\ ds <> [] /\ digits ds
    /\ match post with [] => True | c :: _ => isDigit c = false end
    /\ forall pre' d post', s = pre' ++ str phrase ++ d :: post' -> isDigit d = true ->
                            (length pre <= length pre')%nat.
Definition singleWordPalindromes : gostring := str "all single word palindromic strings".

(** The palindrome check in the words of the specification: strip every
    character that is not an ASCII letter or digit, lower-case the
    remainder, and compare the sequence with its reverse. *)
Definition alnum (r : Z) : bool := lower r || upper r || digit r.

Definition lowerRune (r : Z) : Z := if upper r then r + 32 else r.

Definition normalized (s : gostring) : list Z :=
  map lowerRune (List.filter alnum (runes s)).

Definition palindrome_spec (s : gostring) : bool :=
  bool_decide (normalized s = rev (normalized s)).
(** How many runes of [l] are written [key] by [string(rune)]. *)
Definition countKey (key : gostring) (l : list Z) : nat :=
  length (List.filter (fun r => bool_decide (EncodeRune r = key)) l).

(** The string "é": one code point, U+00E9, two bytes in UTF-8. *)
Definition eAcute : gostring := str "é".

(** ** Notions used to state the further properties *)

(** A value of a filter map read at the type the matcher asserts. *)
Definition asBool (v : option value) : option bool :=
  match v with Some (VBool b) => Some b | _ => None end.

Definition asInt (v : option value) : option Z :=
  match v with Some (VInt n) => Some n | _ => None end.

Definition asString (v : option value) : gostring :=
  match v with Some (VString s) => s | _ => [] end.

(** The map [filtersApplied] for parameters that passed the checks of
    [getAllStrings]. *)
Definition filtersOf (isPalindrome : option bool) (minLength maxLength wordCount : option Z)
           (containsChar : gostring) : gmap gostring value :=
  let f : gmap gostring value :=
    match isPalindrome with Some b => <[str "is_palindrome" := VBool b]> ∅ | None => ∅ end in
  let f := match minLength with Some n => <[str "min_length" := VInt n]> f | None => f end in
  let f := match maxLength with Some n => <[str "max_length" := VInt n]> f | None => f end in
  let f := match wordCount with Some n => <[str "word_count" := VInt n]> f | None => f end in
  match containsChar with
  | [] => f
  | _ :: _ => <[str "contains_character" := VString containsChar]> f
  end.

(** A parameter of [getAllStrings] as the handler reads it, and whether it
    passes the handler's check; an absent parameter is the empty string. *)
Definition paramBool (s : gostring) : option bool :=
  match s with [] => None | _ :: _ => Some (fst (ParseBool s)) end.

Definition paramInt (s : gostring) : option Z :=
  match s with [] => None | _ :: _ => Some (fst (Atoi s)) end.

Definition validBool (s : gostring) : bool :=
  match s with [] => true | _ :: _ => snd (ParseBool s) end.

Definition validInt (s : gostring) : bool :=
  match s with [] => true | _ :: _ => snd (Atoi s) && negb (fst (Atoi s) <? 0) end.

Definition validChar (s : gostring) : bool :=
  match s with [] => true | _ :: _ => (length s =? 1)%nat end.

(** The sum of the counts of a frequency map. *)
Definition totalCount (m : gmap gostring Z) : Z :=
  map_fold (fun _ n acc => n + acc) 0 m.


End Program.

(** An instance of the parameters, to run the program: a case table
    without entries and a digest that is constant. *)
Definition trivialPlatform : Platform :=
  {| caseLower := fun r => r; sha256hex := fun _ => [] |}.

Section Properties.

Context `{platform : Platform}.

(** ** Bytes *)

Lemma code_range (c : ascii) : 0 <= code c < 256.
Proof.
  unfold code. pose proof (N_ascii_bounded c). lia.
Qed.

Lemma chr_code (c : ascii) : chr (code c) = c.
Proof.
  unfold chr, code. rewrite N2Z.id. apply ascii_N_embedding.
Qed.

Lemma code_chr (z : Z) : 0 <= z < 256 -> code (chr z) = z.
Proof.
  intros Hz. unfold chr, code. rewrite N_ascii_embedding by lia. lia.
Qed.

Lemma code_inj (c d : ascii) : code c = code d -> c = d.
Proof.
  intros H. rewrite <- (chr_code c), <- (chr_code d). now rewrite H.
Qed.

(** ** Bit arithmetic of the UTF-8 coder *)

Lemma lor_shiftl_add (n hi lo : Z) :
  0 <= n -> 0 <= lo < 2 ^ n -> Z.lor (Z.shiftl hi n) lo = hi * 2 ^ n + lo.
Proof.
  intros Hn Hlo.
  assert (Hland : Z.land (Z.shiftl hi n) lo = 0).
  { apply Z.bits_inj'. intros i Hi.
    rewrite Z.land_spec, Z.bits_0.
    destruct (Z.lt_ge_cases i n) as [Hlt | Hge].
    - rewrite Z.shiftl_spec_low by lia. reflexivity.
    - assert (Z.testbit lo i = false) as ->; [| apply andb_false_r].
      destruct (Z.eq_dec lo 0) as [-> | Hne]; [apply Z.bits_0 |].
      apply Z.bits_above_log2; [lia |].
      apply Z.log2_lt_pow2; [lia |].
      apply Z.lt_le_trans with (2 ^ n); [lia |].
      apply Z.pow_le_mono_r; lia. }
  rewrite <- Z.lxor_lor by exact Hland.
  rewrite <- Z.add_nocarry_lxor by exact Hland.
  rewrite Z.shiftl_mul_pow2 by lia. reflexivity.
Qed.

Lemma lor_add_low (hi lo n : Z) :
  0 <= n -> 0 <= lo < 2 ^ n -> hi mod 2 ^ n = 0 -> Z.lor hi lo = hi + lo.
Proof.
  intros Hn Hlo Hhi.
  assert (hi = (hi / 2 ^ n) * 2 ^ n) as Heq.
  { pose proof (Z.div_mod hi (2 ^ n)). lia. }
  rewrite Heq at 1. rewrite <- Z.shiftl_mul_pow2 by lia.
  rewrite lor_shiftl_add by lia. lia.
Qed.

Lemma land_low (x n : Z) : 0 <= n -> Z.land x (2 ^ n - 1) = x mod 2 ^ n.
Proof.
  intros Hn. rewrite <- Z.land_ones by lia.
  rewrite Z.ones_equiv. f_equal; lia.
Qed.

Ltac zbool :=
  repeat match goal with
  | H : context [Z.leb ?a ?b] |- _ => destruct (Z.leb_spec a b); simpl in H
  | H : context [Z.ltb ?a ?b] |- _ => destruct (Z.ltb_spec a b); simpl in H
  | H : context [Z.eqb ?a ?b] |- _ => destruct (Z.eqb_spec a b); simpl in H
  | |- context [Z.leb ?a ?b] => destruct (Z.leb_spec a b); simpl
  | |- context [Z.ltb ?a ?b] => destruct (Z.ltb_spec a b); simpl
  | |- context [Z.eqb ?a ?b] => destruct (Z.eqb_spec a b); simpl
  end.

(** ** Facts about decoding *)

Lemma first_None_ascii (b : Z) : b < 128 -> first b = None.
Proof.
  intros Hb. unfold first. zbool; try lia; reflexivity.
Qed.

Lemma first_Some (b : Z) (sz : nat) (lo hi : Z) :
  first b = Some (sz, (lo, hi)) ->
  194 <= b <= 244 /\ 128 <= lo /\ hi <= 191 /\ (2 <= sz <= 4)%nat.
Proof.
  unfold first. intros H. zbool; inversion H; subst; lia.
Qed.

Lemma decode_ascii (c : ascii) (s : gostring) :
  code c < 128 -> DecodeRuneInString (c :: s) = (code c, 1%nat).
Proof.
  intros Hc. unfold DecodeRuneInString.
  rewrite first_None_ascii by exact Hc.
  unfold RuneSelf. zbool; [reflexivity | lia].
Qed.

Lemma decode_width (s : gostring) (r : Z) (w : nat) :
  s <> [] -> DecodeRuneInString s = (r, w) -> (1 <= w <= length s)%nat.
Proof.
  intros Hs H. unfold DecodeRuneInString in H.
  repeat match type of H with
  | context [match ?x with _ => _ end] => destruct x eqn:?; simpl in *
  end; inversion H; subst; try lia; try congruence.
Qed.

Lemma dec2 (b0 b1 : Z) :
  Z.lor (Z.shiftl (Z.land b0 31) 6) (Z.land b1 63) = (b0 mod 32) * 64 + b1 mod 64.
Proof.
  change 31 with (2 ^ 5 - 1). change 63 with (2 ^ 6 - 1).
  rewrite !land_low by lia.
  rewrite lor_shiftl_add; [reflexivity | lia |].
  apply Z.mod_pos_bound. lia.
Qed.

Ltac pow2 :=
  change (2 ^ 18) with 262144 in *; change (2 ^ 12) with 4096 in *;
  change (2 ^ 6) with 64 in *.

Ltac zdiv := Z.to_euclidean_division_equations; lia.

Lemma dec3 (b0 b1 b2 : Z) :
  Z.lor (Z.lor (Z.shiftl (Z.land b0 15) 12) (Z.shiftl (Z.land b1 63) 6)) (Z.land b2 63)
  = (b0 mod 16) * 4096 + (b1 mod 64) * 64 + b2 mod 64.
Proof.
  change 15 with (2 ^ 4 - 1). change 63 with (2 ^ 6 - 1).
  rewrite !land_low by lia.
  change (2 ^ 4) with 16. change (2 ^ 6) with 64.
  pose proof (Z.mod_pos_bound b1 64 ltac:(lia)).
  pose proof (Z.mod_pos_bound b2 64 ltac:(lia)).
  generalize dependent (b0 mod 16). generalize dependent (b1 mod 64).
  generalize dependent (b2 mod 64). intros c Hc b Hb a.
  rewrite !Z.shiftl_mul_pow2 by lia.
  rewrite (lor_add_low (a * 2 ^ 12) (b * 2 ^ 6) 12) by (pow2; zdiv).
  rewrite (lor_add_low (a * 2 ^ 12 + b * 2 ^ 6) c 6) by (pow2; zdiv).
  pow2; lia.
Qed.

Lemma dec4 (b0 b1 b2 b3 : Z) :
  Z.lor (Z.lor (Z.lor (Z.shiftl (Z.land b0 7) 18) (Z.shiftl (Z.land b1 63) 12))
               (Z.shiftl (Z.land b2 63) 6)) (Z.land b3 63)
  = (b0 mod 8) * 262144 + (b1 mod 64) * 4096 + (b2 mod 64) * 64 + b3 mod 64.
Proof.
  change 7 with (2 ^ 3 - 1). change 63 with (2 ^ 6 - 1).
  rewrite !land_low by lia.
  change (2 ^ 3) with 8. change (2 ^ 6) with 64.
  pose proof (Z.mod_pos_bound b1 64 ltac:(lia)).
  pose proof (Z.mod_pos_bound b2 64 ltac:(lia)).
  pose proof (Z.mod_pos_bound b3 64 ltac:(lia)).
  generalize dependent (b0 mod 8). generalize dependent (b1 mod 64).
  generalize dependent (b2 mod 64). generalize dependent (b3 mod 64).
  intros d Hd c Hc b Hb a.
  rewrite !Z.shiftl_mul_pow2 by lia.
  rewrite (lor_add_low (a * 2 ^ 18) (b * 2 ^ 12) 18) by (pow2; zdiv).
  rewrite (lor_add_low (a * 2 ^ 18 + b * 2 ^ 12) (c * 2 ^ 6) 12) by (pow2; zdiv).
  rewrite (lor_add_low (a * 2 ^ 18 + b * 2 ^ 12 + c * 2 ^ 6) d 6) by (pow2; zdiv).
  pow2; lia.
Qed.


Lemma first_Some_cases (b : Z) (sz : nat) (lo hi : Z) :
  first b = Some (sz, (lo, hi)) ->
  128 <= lo /\ hi <= 191 /\
  ((sz = 2%nat /\ 194 <= b <= 223) \/
   (sz = 3%nat /\ 224 <= b <= 239 /\ (b = 224 -> 160 <= lo) /\ (b = 237 -> hi <= 159)) \/
   (sz = 4%nat /\ 240 <= b <= 244 /\ (b = 240 -> 144 <= lo) /\ (b = 244 -> hi <= 143))).
Proof.
  unfold first. intros H. zbool; inversion H; subst; lia.
Qed.

Lemma lor_const (k x n : Z) :
  0 <= n -> 0 <= x < 2 ^ n -> k mod 2 ^ n = 0 -> Z.lor k x = k + x.
Proof. intros. now apply (lor_add_low k x n). Qed.

Lemma shiftr_div (r n : Z) : 0 <= n -> Z.shiftr r n = r / 2 ^ n.
Proof. intros. now apply Z.shiftr_div_pow2. Qed.

Lemma land63 (x : Z) : Z.land x 63 = x mod 64.
Proof. change 63 with (2 ^ 6 - 1). now rewrite land_low by lia. Qed.

(** Decoding yields a Unicode scalar value together with exactly its
    encoding, or U+FFFD for one byte that starts no valid sequence. *)
Lemma decode_encode (s : gostring) (r : Z) (w : nat) :
  s <> [] -> DecodeRuneInString s = (r, w) ->
  (EncodeRune r = take w s /\ validScalar r) \/ (r = RuneError /\ w = 1%nat).
Proof.
  intros Hs H. destruct s as [| c0 s1]; [congruence |].
  unfold DecodeRuneInString in H.
  pose proof (code_range c0) as R0.
  destruct (first (code c0)) as [[sz [lo hi]] |] eqn:Hf.
  2:{ unfold RuneSelf in H. destruct (Z.ltb_spec (code c0) 128); inversion H; subst.
      - left. split.
        + unfold EncodeRune. zbool; try lia. simpl. now rewrite chr_code.
        + unfold validScalar, MaxRune. lia.
      - now right. }
  apply first_Some_cases in Hf. destruct Hf as (Hlo & Hhi & Hsz).
  destruct s1 as [| c1 s2]; [inversion H; now right |].
  pose proof (code_range c1) as R1.
  destruct ((code c1 <? lo) || (hi <? code c1)) eqn:Hb1; [inversion H; now right |].
  apply orb_false_elim in Hb1 as [Hb1 Hb1']. apply Z.ltb_ge in Hb1, Hb1'.
  destruct Hsz as [[-> Hb0] | [(-> & Hb0 & H224 & H237) | (-> & Hb0 & H240 & H244)]];
    simpl in H.
  - (* two bytes *)
    inversion H; subst; clear H. left. rewrite dec2.
    assert (code c0 mod 32 = code c0 - 192) as -> by zdiv.
    assert (code c1 mod 64 = code c1 - 128) as -> by zdiv.
    set (r := (code c0 - 192) * 64 + (code c1 - 128)).
    assert (128 <= r <= 2047) as Hr by (unfold r; lia).
    split; [| unfold validScalar, MaxRune; lia].
    unfold EncodeRune. zbool; try lia.
    rewrite shiftr_div, land63 by lia. pow2.
    assert (r / 64 = code c0 - 192) as -> by (unfold r; zdiv).
    assert (r mod 64 = code c1 - 128) as -> by (unfold r; zdiv).
    rewrite (lor_const 192 _ 6), (lor_const 128 _ 6) by (pow2; zdiv).
    replace (192 + (code c0 - 192)) with (code c0) by lia.
    replace (128 + (code c1 - 128)) with (code c1) by lia.
    now rewrite !chr_code.
  - (* three bytes *)
    destruct s2 as [| c2 s3]; [inversion H; now right |].
    pose proof (code_range c2) as R2.
    unfold isCont in H.
    destruct ((128 <=? code c2) && (code c2 <=? 191)) eqn:Hb2; simpl in H;
      [| inversion H; now right].
    apply andb_true_iff in Hb2 as [Hb2 Hb2']. apply Z.leb_le in Hb2, Hb2'.
    inversion H; subst; clear H. left. rewrite dec3.
    assert (code c0 mod 16 = code c0 - 224) as -> by zdiv.
    assert (code c1 mod 64 = code c1 - 128) as -> by zdiv.
    assert (code c2 mod 64 = code c2 - 128) as -> by zdiv.
    set (r := (code c0 - 224) * 4096 + (code c1 - 128) * 64 + (code c2 - 128)).
    assert (2048 <= r <= 65535 /\ ~ (55296 <= r <= 57343)) as Hr by (unfold r; lia).
    split; [| unfold validScalar, MaxRune; lia].
    unfold EncodeRune, MaxRune, RuneError. zbool; try lia; cbv beta iota delta [orb andb].
    all: rewrite !shiftr_div, !land63 by lia.
    all: pow2.
    all: assert (r / 4096 = code c0 - 224) as -> by (unfold r; zdiv).
    all: assert ((r / 64) mod 64 = code c1 - 128) as -> by (unfold r; zdiv).
    all: assert (r mod 64 = code c2 - 128) as -> by (unfold r; zdiv).
    all: rewrite (lor_const 224 _ 4), !(lor_const 128 _ 6)
      by (pow2; change (2 ^ 4) with 16; zdiv).
    all: replace (224 + (code c0 - 224)) with (code c0) by lia.
    all: replace (128 + (code c1 - 128)) with (code c1) by lia.
    all: replace (128 + (code c2 - 128)) with (code c2) by lia.
    all: now rewrite !chr_code.
  - (* four bytes *)
    destruct s2 as [| c2 s3]; [inversion H; now right |].
    pose proof (code_range c2) as R2.
    unfold isCont in H.
    destruct ((128 <=? code c2) && (code c2 <=? 191)) eqn:Hb2; simpl in H;
      [| inversion H; now right].
    apply andb_true_iff in Hb2 as [Hb2 Hb2']. apply Z.leb_le in Hb2, Hb2'.
    destruct s3 as [| c3 s4]; [inversion H; now right |].
    pose proof (code_range c3) as R3.
    destruct ((128 <=? code c3) && (code c3 <=? 191)) eqn:Hb3; simpl in H;
      [| inversion H; now right].
    apply andb_true_iff in Hb3 as [Hb3 Hb3']. apply Z.leb_le in Hb3, Hb3'.
    inversion H; subst; clear H. left. rewrite dec4.
    assert (code c0 mod 8 = code c0 - 240) as -> by zdiv.
    assert (code c1 mod 64 = code c1 - 128) as -> by zdiv.
    assert (code c2 mod 64 = code c2 - 128) as -> by zdiv.
    assert (code c3 mod 64 = code c3 - 128) as -> by zdiv.
    set (r := (code c0 - 240) * 262144 + (code c1 - 128) * 4096
              + (code c2 - 128) * 64 + (code c3 - 128)).
    assert (65536 <= r <= 1114111) as Hr by (unfold r; lia).
    split; [| unfold validScalar, MaxRune; lia].
    unfold EncodeRune, MaxRune, RuneError. zbool; try lia; cbv beta iota delta [orb andb].
    all: rewrite !shiftr_div, !land63 by lia.
    all: pow2.
    all: assert (r / 262144 = code c0 - 240) as -> by (unfold r; zdiv).
    all: assert ((r / 4096) mod 64 = code c1 - 128) as -> by (unfold r; zdiv).
    all: assert ((r / 64) mod 64 = code c2 - 128) as -> by (unfold r; zdiv).
    all: assert (r mod 64 = code c3 - 128) as -> by (unfold r; zdiv).
    all: rewrite (lor_const 240 _ 4), !(lor_const 128 _ 6)
      by (pow2; change (2 ^ 4) with 16; zdiv).
    all: replace (240 + (code c0 - 240)) with (code c0) by lia.
    all: replace (128 + (code c1 - 128)) with (code c1) by lia.
    all: replace (128 + (code c2 - 128)) with (code c2) by lia.
    all: replace (128 + (code c3 - 128)) with (code c3) by lia.
    all: now rewrite !chr_code.
Qed.

(** Encoding a scalar value and decoding it again gives the value back. *)
Lemma encode_decode (r : Z) (rest : gostring) :
  validScalar r ->
  DecodeRuneInString (EncodeRune r ++ rest) = (r, length (EncodeRune r)).
Proof.
  unfold validScalar, MaxRune. intros [Hr Hsur].
  unfold EncodeRune, MaxRune, RuneError.
  destruct (Z.leb_spec r 127) as [H1 | H1].
  - replace (0 <=? r) with true by (symmetry; apply Z.leb_le; lia).
    cbn [andb app length]. rewrite decode_ascii; rewrite code_chr; try lia. reflexivity.
  - replace (0 <=? r) with true by (symmetry; apply Z.leb_le; lia).
    cbn [andb]. destruct (Z.leb_spec r 2047) as [H2 | H2].
    + rewrite shiftr_div, land63, (lor_const 192 _ 6), (lor_const 128 _ 6)
        by (pow2; zdiv).
      pow2. cbn [app length]. unfold DecodeRuneInString.
      rewrite !code_chr by zdiv.
      assert (first (192 + r / 64) = Some (2%nat, (128, 191))) as ->.
      { unfold first. zbool; try zdiv; reflexivity. }
      replace ((128 + r mod 64 <? 128) || (191 <? 128 + r mod 64)) with false
        by (symmetry; apply orb_false_intro; apply Z.ltb_ge; zdiv).
      cbn [Nat.leb]. rewrite dec2. f_equal. zdiv.
    + replace ((r <? 0) || (1114111 <? r) || (55296 <=? r) && (r <=? 57343)) with false
        by (symmetry; zbool; try lia; reflexivity).
      destruct (Z.leb_spec r 65535) as [H3 | H3].
      * rewrite !shiftr_div, !land63, (lor_const 224 _ 4), !(lor_const 128 _ 6)
          by (pow2; change (2 ^ 4) with 16; zdiv).
        pow2. cbn [app length]. unfold DecodeRuneInString.
        rewrite !code_chr by zdiv.
        assert (exists lo hi, first (224 + r / 4096) = Some (3%nat, (lo, hi))
                  /\ lo <= 128 + (r / 64) mod 64 <= hi) as (lo & hi & -> & Hb1).
        { unfold first. zbool; try zdiv; eexists; eexists; (split; [reflexivity | zdiv]). }
        replace ((128 + (r / 64) mod 64 <? lo) || (hi <? 128 + (r / 64) mod 64)) with false
          by (symmetry; apply orb_false_intro; apply Z.ltb_ge; lia).
        unfold isCont.
        replace ((128 <=? 128 + r mod 64) && (128 + r mod 64 <=? 191)) with true
          by (symmetry; apply andb_true_intro; split; apply Z.leb_le; zdiv).
        cbn [Nat.leb negb]. rewrite dec3. f_equal. zdiv.
      * rewrite !shiftr_div, !land63, (lor_const 240 _ 4), !(lor_const 128 _ 6)
          by (pow2; change (2 ^ 4) with 16; zdiv).
        pow2. cbn [app length]. unfold DecodeRuneInString.
        rewrite !code_chr by zdiv.
        assert (exists lo hi, first (240 + r / 262144) = Some (4%nat, (lo, hi))
                  /\ lo <= 128 + (r / 4096) mod 64 <= hi) as (lo & hi & -> & Hb1).
        { unfold first. zbool; try zdiv; eexists; eexists; (split; [reflexivity | zdiv]). }
        replace ((128 + (r / 4096) mod 64 <? lo) || (hi <? 128 + (r / 4096) mod 64))
          with false by (symmetry; apply orb_false_intro; apply Z.ltb_ge; lia).
        unfold isCont.
        replace ((128 <=? 128 + (r / 64) mod 64) && (128 + (r / 64) mod 64 <=? 191))
          with true by (symmetry; apply andb_true_intro; split; apply Z.leb_le; zdiv).
        replace ((128 <=? 128 + r mod 64) && (128 + r mod 64 <=? 191)) with true
          by (symmetry; apply andb_true_intro; split; apply Z.leb_le; zdiv).
        cbn [Nat.leb negb]. rewrite dec4. f_equal. zdiv.
Qed.

Lemma EncodeRune_inj (r r' : Z) :
  validScalar r -> validScalar r' -> EncodeRune r = EncodeRune r' -> r = r'.
Proof.
  intros Hr Hr' Heq.
  pose proof (encode_decode r [] Hr) as H1.
  pose proof (encode_decode r' [] Hr') as H2.
  rewrite Heq, H2 in H1. congruence.
Qed.

(** ** Facts about [range] over a string *)

Lemma rangeFrom_fuel (f1 f2 : nat) (s : gostring) :
  (length s <= f1)%nat -> (length s <= f2)%nat -> rangeFrom f1 s = rangeFrom f2 s.
Proof.
  revert f2 s. induction f1 as [| f1 IH]; intros f2 s H1 H2.
  - destruct s; [| simpl in H1; lia]. destruct f2; reflexivity.
  - destruct f2 as [| f2]; [destruct s; [reflexivity | simpl in H2; lia] |].
    destruct s as [| c s]; [reflexivity |].
    cbn [rangeFrom].
    destruct (DecodeRuneInString (c :: s)) as [r w] eqn:Hd.
    apply decode_width in Hd; [| discriminate].
    f_equal. apply IH; rewrite length_drop; simpl in *; lia.
Qed.

Lemma rangeString_nil : rangeString [] = [].
Proof. reflexivity. Qed.

Lemma rangeString_step (s : gostring) (r : Z) (w : nat) :
  s <> [] -> DecodeRuneInString s = (r, w) ->
  rangeString s = (r, take w s) :: rangeString (drop w s).
Proof.
  intros Hs Hd. unfold rangeString at 1.
  destruct s as [| c s]; [congruence |].
  cbn [length rangeFrom]. rewrite Hd. f_equal.
  apply decode_width in Hd; [| discriminate].
  apply rangeFrom_fuel; rewrite length_drop; simpl in *; lia.
Qed.

Lemma rangeString_ascii_cons (c : ascii) (s : gostring) :
  code c < 128 -> rangeString (c :: s) = (code c, [c]) :: rangeString s.
Proof.
  intros Hc. rewrite (rangeString_step (c :: s) (code c) 1); [| discriminate |].
  - simpl. now rewrite take_0, drop_0.
  - now apply decode_ascii.
Qed.

(** Induction along the runes of a string. *)
Lemma range_ind (P : gostring -> Prop) :
  P [] ->
  (forall s r w, s <> [] -> DecodeRuneInString s = (r, w) ->
                 (1 <= w <= length s)%nat -> P (drop w s) -> P s) ->
  forall s, P s.
Proof.
  intros Hnil Hstep s.
  remember (length s) as n eqn:Hn. revert s Hn.
  induction n as [n IH] using lt_wf_ind. intros s Hn.
  destruct s as [| c s]; [exact Hnil |].
  destruct (DecodeRuneInString (c :: s)) as [r w] eqn:Hd.
  assert (Hw : (1 <= w <= length (c :: s))%nat)
    by (apply (decode_width _ r w); [discriminate | exact Hd]).
  apply (Hstep _ r w); [discriminate | exact Hd | exact Hw |].
  apply (IH (length (drop w (c :: s)))); [| reflexivity].
  rewrite length_drop. subst n. lia.
Qed.

Lemma bytesOf_rangeString (s : gostring) : bytesOf (rangeString s) = s.
Proof.
  induction s as [| s r w Hs Hd Hw IH] using range_ind; [reflexivity |].
  rewrite (rangeString_step s r w Hs Hd). unfold bytesOf in *. cbn [map concat snd].
  rewrite IH. apply take_drop.
Qed.


Lemma rangeString_chunks (s : gostring) : Forall chunkOK (rangeString s).
Proof.
  induction s as [| s r w Hs Hd Hw IH] using range_ind; [constructor |].
  rewrite (rangeString_step s r w Hs Hd). constructor; [| exact IH].
  destruct (decode_encode s r w Hs Hd) as [[He Hv] | [-> ->]].
  - left. now split.
  - right. split; [reflexivity |]. cbn [snd]. rewrite length_take. lia.
Qed.

Lemma RuneError_valid : validScalar RuneError.
Proof. unfold validScalar, RuneError, MaxRune. lia. Qed.

Lemma chunkOK_valid (ch : Z * gostring) : chunkOK ch -> validScalar (fst ch).
Proof.
  intros [[_ H] | [-> _]]; [exact H | apply RuneError_valid].
Qed.

Lemma chunkOK_nonempty (ch : Z * gostring) : chunkOK ch -> snd ch <> [].
Proof.
  intros [[He Hv] | [_ Hl]].
  - rewrite <- He. unfold EncodeRune. repeat case_match; discriminate.
  - destruct (snd ch); [discriminate | discriminate].
Qed.

Lemma chunkOK_ascii (ch : Z * gostring) :
  chunkOK ch -> fst ch < 128 -> snd ch = [chr (fst ch)].
Proof.
  intros [[He [Hv _]] | [-> _]] Hlt.
  - rewrite <- He. unfold EncodeRune. zbool; try lia. reflexivity.
  - unfold RuneError in Hlt. lia.
Qed.

(** A byte below 0x80 never continues a sequence: decoding in front of it
    does not look past it. *)
Lemma decode_app_ascii (pre : gostring) (a : ascii) (rest : gostring) :
  pre <> [] -> code a < 128 ->
  DecodeRuneInString (pre ++ a :: rest) = DecodeRuneInString pre.
Proof.
  intros Hpre Ha.
  destruct pre as [| c0 pre]; [congruence |].
  cbn [app]. unfold DecodeRuneInString.
  destruct (first (code c0)) as [[sz [lo hi]] |] eqn:Hf; [| reflexivity].
  apply first_Some_cases in Hf. destruct Hf as (Hlo & Hhi & _).
  assert (Hout : forall l h, 128 <= l -> (code a <? l) || (h <? code a) = true).
  { intros l h Hl. apply orb_true_intro. left. apply Z.ltb_lt. lia. }
  assert (Hnc : negb (isCont (code a)) = true).
  { unfold isCont. destruct (Z.leb_spec 128 (code a)); [lia | reflexivity]. }
  destruct pre as [| c1 pre]; cbn [app].
  { now rewrite Hout. }
  destruct ((code c1 <? lo) || (hi <? code c1)); [reflexivity |].
  destruct (sz <=? 2)%nat; [reflexivity |].
  destruct pre as [| c2 pre]; cbn [app].
  { now rewrite Hnc. }
  destruct (negb (isCont (code c2))); [reflexivity |].
  destruct (sz <=? 3)%nat; [reflexivity |].
  destruct pre as [| c3 pre]; cbn [app].
  { now rewrite Hnc. }
  reflexivity.
Qed.

Lemma rangeString_app_ascii (pre : gostring) (a : ascii) (rest : gostring) :
  code a < 128 ->
  rangeString (pre ++ a :: rest) = rangeString pre ++ rangeString (a :: rest).
Proof.
  intros Ha.
  induction pre as [| s r w Hs Hd Hw IH] using range_ind; [reflexivity |].
  rewrite (rangeString_step s r w Hs Hd).
  rewrite (rangeString_step (s ++ a :: rest) r w).
  - rewrite take_app_le, drop_app_le by lia. rewrite IH. reflexivity.
  - destruct s; [congruence | discriminate].
  - rewrite decode_app_ascii; assumption.
Qed.



Lemma rangeString_ascii_app (s rest : gostring) :
  isASCII s -> rangeString (s ++ rest) = asciiChunks s ++ rangeString rest.
Proof.
  induction 1 as [| c s Hc Hs IH]; [reflexivity |].
  cbn [app]. rewrite rangeString_ascii_cons by exact Hc. now rewrite IH.
Qed.

Lemma rangeString_ascii (s : gostring) : isASCII s -> rangeString s = asciiChunks s.
Proof.
  intros Hs. rewrite <- (app_nil_r s) at 1.
  rewrite rangeString_ascii_app by exact Hs. apply app_nil_r.
Qed.

(** ** Facts about the [strings] routines *)

Lemma HasPrefix_spec (s p : gostring) :
  HasPrefix s p = true <-> exists post, s = p ++ post.
Proof.
  revert s. induction p as [| c p IH]; intros s; cbn [HasPrefix].
  - split; [intros _; now exists s | reflexivity].
  - destruct s as [| d s].
    + split; [discriminate | intros [post H]; discriminate].
    + rewrite andb_true_iff, bool_decide_eq_true, IH. split.
      * intros [-> [post ->]]. now exists post.
      * intros [post H]. inversion H; subst. split; [reflexivity | now exists post].
Qed.

(** [strings.Contains] holds exactly when the substring occurs. *)
Lemma Contains_spec (s sub : gostring) :
  Contains s sub = true <-> exists pre post, s = pre ++ sub ++ post.
Proof.
  induction s as [| c s IH]; cbn [Contains]; rewrite orb_true_iff, HasPrefix_spec.
  - split.
    + intros [[post H] | H]; [| discriminate]. exists [], post. exact H.
    + intros (pre & post & H). left.
      destruct pre; [now exists post | discriminate].
  - rewrite IH. split.
    + intros [[post H] | (pre & post & H)].
      * exists [], post. exact H.
      * exists (c :: pre), post. now rewrite H.
    + intros (pre & post & H). destruct pre as [| d pre].
      * left. now exists post.
      * right. inversion H; subst. now exists pre, post.
Qed.

Lemma isASCII_forallb (s : gostring) :
  forallb (fun c => code c <? RuneSelf) s = true <-> isASCII s.
Proof.
  unfold isASCII, RuneSelf. rewrite forallb_forall, List.Forall_forall.
  split; intros H c Hc; specialize (H c Hc); now apply Z.ltb_lt.
Qed.

Lemma map_lowerByte_id (s : gostring) :
  existsb isUpper s = false -> map lowerByte s = s.
Proof.
  induction s as [| c s IH]; [reflexivity |]. cbn [existsb map].
  intros H. apply orb_false_elim in H as [Hc Hs].
  unfold lowerByte. rewrite Hc. f_equal. now apply IH.
Qed.

(** On an ASCII-only string [strings.ToLower] works byte by byte. *)
Lemma ToLower_ascii (s : gostring) : isASCII s -> ToLower s = map lowerByte s.
Proof.
  intros Hs. unfold ToLower.
  apply isASCII_forallb in Hs. rewrite Hs.
  destruct (existsb isUpper s) eqn:Hu; [reflexivity |].
  symmetry. now apply map_lowerByte_id.
Qed.

(** ** Facts about the matcher *)


Lemma matchLit_Some (l : list Z) (s s' : input) :
  matchLit l s = Some s' <-> exists w, s = w ++ s' /\ map fst w = l.
Proof.
  revert s. induction l as [| r l IH]; intros s; cbn [matchLit].
  - split.
    + intros H. inversion H; subst. now exists [].
    + intros (w & -> & Hw). destruct w; [reflexivity | discriminate].
  - destruct s as [| [r' bs] s].
    + split; [discriminate |]. intros (w & Hs & Hw).
      destruct w; discriminate.
    + destruct (Z.eqb_spec r r') as [-> | Hne].
      * rewrite IH. split.
        -- intros (w & -> & <-). now exists ((r', bs) :: w).
        -- intros (w & Hs & Hw). destruct w as [| ch w]; [discriminate |].
           inversion Hs; subst. inversion Hw; subst. now exists w.
      * split; [discriminate |]. intros (w & Hs & Hw).
        destruct w as [| ch w]; [discriminate |].
        inversion Hs; subst. inversion Hw; subst. now destruct Hne.
Qed.

Lemma matchPlus_sound {A} (p : Z -> bool) (s : input) (k : input -> option A) (x : A) :
  matchPlus p s k = Some x ->
  exists w s', s = w ++ s' /\ w <> [] /\ Forall (fun ch => p (fst ch) = true) w /\ k s' = Some x.
Proof.
  induction s as [| [r bs] s IH]; cbn [matchPlus]; [discriminate |].
  destruct (p r) eqn:Hp; [| discriminate].
  destruct (matchPlus p s k) as [y |] eqn:Hm.
  - intros H. inversion H; subst.
    destruct (IH eq_refl) as (w & s' & -> & _ & Hw & Hk).
    exists ((r, bs) :: w), s'. repeat split; [discriminate | | exact Hk].
    constructor; assumption.
  - intros Hk. exists [(r, bs)], s. repeat split; [discriminate | | exact Hk].
    constructor; [exact Hp | constructor].
Qed.

Lemma matchPlus_complete {A} (p : Z -> bool) (w s' : input) (k : input -> option A) :
  w <> [] -> Forall (fun ch => p (fst ch) = true) w -> is_Some (k s') ->
  is_Some (matchPlus p (w ++ s') k).
Proof.
  intros Hne Hw Hk. induction Hw as [| [r bs] w Hr Hw IH]; [congruence |].
  cbn [app matchPlus]. cbn [fst] in Hr. rewrite Hr.
  destruct w as [| ch w].
  - cbn [app]. destruct (matchPlus p s' k); [eauto | exact Hk].
  - destruct (IH ltac:(discriminate)) as [y ->]. eauto.
Qed.

(** The greedy run: when the run of [p] ends at [s'], that is where the
    continuation is entered first. *)
Lemma matchPlus_greedy {A} (p : Z -> bool) (w s' : input) (k : input -> option A) (x : A) :
  w <> [] -> Forall (fun ch => p (fst ch) = true) w ->
  match s' with [] => True | ch :: _ => p (fst ch) = false end ->
  k s' = Some x ->
  matchPlus p (w ++ s') k = Some x.
Proof.
  intros Hne Hw Hend Hk. induction Hw as [| [r bs] w Hr Hw IH]; [congruence |].
  cbn [app matchPlus]. cbn [fst] in Hr. rewrite Hr.
  destruct w as [| ch w].
  - cbn [app].
    assert (matchPlus p s' k = None) as ->; [| exact Hk].
    destruct s' as [| [r' bs'] s']; [reflexivity |].
    cbn [matchPlus]. cbn [fst] in Hend. now rewrite Hend.
  - now rewrite (IH ltac:(discriminate)).
Qed.

(** Soundness: a successful match read a word of the language. *)
Lemma re_match_sound {A} (r : regex) :
  forall (s : input) cap (k : input -> option gostring -> option A) (x : A),
  re_match r s cap k = Some x ->
  exists w s' cap', s = w ++ s' /\ lang r (map fst w) /\ k s' cap' = Some x.
Proof.
  induction r as [l | p | r1 IH1 r2 IH2 | r1 IH1 r2 IH2 | r1 IH1 | p | r1 IH1];
    intros s cap k x; cbn [re_match lang].
  - destruct (matchLit l s) as [s' |] eqn:Hl; [| discriminate].
    apply matchLit_Some in Hl as (w & -> & Hw). intros Hk.
    exists w, s', cap. auto.
  - destruct s as [| [c bs] s]; [discriminate |].
    destruct (p c) eqn:Hp; [| discriminate]. intros Hk.
    exists [(c, bs)], s, cap. repeat split; [| exact Hk]. exists c. auto.
  - intros H. apply IH1 in H as (w1 & s1 & cap1 & -> & Hw1 & H).
    apply IH2 in H as (w2 & s2 & cap2 & -> & Hw2 & H).
    exists (w1 ++ w2), s2, cap2. rewrite <- app_assoc, map_app.
    repeat split; [| exact H]. exists (map fst w1), (map fst w2). auto.
  - destruct (re_match r1 s cap k) as [y |] eqn:H1.
    + intros H. inversion H; subst.
      apply IH1 in H1 as (w & s' & cap' & -> & Hw & Hk).
      exists w, s', cap'. auto.
    + intros H. apply IH2 in H as (w & s' & cap' & -> & Hw & Hk).
      exists w, s', cap'. auto.
  - destruct (re_match r1 s cap k) as [y |] eqn:H1.
    + intros H. inversion H; subst.
      apply IH1 in H1 as (w & s' & cap' & -> & Hw & Hk).
      exists w, s', cap'. auto.
    + intros H. exists [], s, cap. auto.
  - intros H. apply matchPlus_sound in H as (w & s' & -> & Hne & Hw & Hk).
    exists w, s', cap. repeat split; [| | exact Hk].
    + destruct w; [congruence | discriminate].
    + apply Forall_map. exact Hw.
  - intros H. apply IH1 in H as (w & s' & cap' & -> & Hw & Hk).
    eexists w, s', _. repeat split; [exact Hw | exact Hk].
Qed.

(** Completeness: when a word of the language starts the input and the
    continuation accepts what follows, the match succeeds. *)
Lemma re_match_complete {A} (r : regex) :
  forall (w s' : input) cap (k : input -> option gostring -> option A),
  lang r (map fst w) -> (forall cap', is_Some (k s' cap')) ->
  is_Some (re_match r (w ++ s') cap k).
Proof.
  induction r as [l | p | r1 IH1 r2 IH2 | r1 IH1 r2 IH2 | r1 IH1 | p | r1 IH1];
    intros w s' cap k; cbn [re_match lang].
  - intros Hw Hk.
    assert (matchLit l (w ++ s') = Some s') as ->; [| apply Hk].
    apply matchLit_Some. now exists w.
  - intros (c & Hw & Hp) Hk.
    destruct w as [| [c' bs] [| ? ?]]; try discriminate.
    inversion Hw; subst. cbn [app]. rewrite Hp. apply Hk.
  - intros (rs1 & rs2 & Hw & H1 & H2) Hk.
    apply map_eq_app in Hw as (w1 & w2 & -> & <- & <-).
    rewrite <- app_assoc. apply IH1; [exact H1 |].
    intros cap'. apply IH2; assumption.
  - intros [H1 | H2] Hk.
    + destruct (IH1 w s' cap k H1 Hk) as [y ->]. eauto.
    + destruct (re_match r1 (w ++ s') cap k); [eauto |]. now apply IH2.
  - intros [Hw | H1] Hk.
    + apply map_eq_nil in Hw. subst w. cbn [app].
      destruct (re_match r1 s' cap k); [eauto | apply Hk].
    + destruct (IH1 w s' cap k H1 Hk) as [y ->]. eauto.
  - intros [Hne Hw] Hk. apply matchPlus_complete; [| | apply Hk].
    + destruct w; [now destruct Hne | discriminate].
    + apply Forall_map in Hw. exact Hw.
  - intros Hw Hk. apply IH1; [exact Hw |]. intros cap'. apply Hk.
Qed.

Lemma findFrom_length (re : regex) (s : input) :
  findFrom re s = [] \/ length (findFrom re s) = 2%nat.
Proof.
  induction s as [| ch s IH]; cbn [findFrom];
    destruct (matchHere re _) as [[s' cap] |]; auto.
Qed.

Lemma find_matched (re : regex) (s : gostring) :
  (1 <? length (FindStringSubmatch re s))%nat = true <-> FindStringSubmatch re s <> [].
Proof.
  unfold FindStringSubmatch.
  destruct (findFrom_length re (rangeString s)) as [-> | H].
  - split; [discriminate | congruence].
  - rewrite H. split; [| reflexivity]. intros _ Hnil. now rewrite Hnil in H.
Qed.

Lemma matchHere_Some (re : regex) (s s' : input) (cap : option gostring) :
  matchHere re s = Some (s', cap) -> exists w, s = w ++ s' /\ lang re (map fst w).
Proof.
  unfold matchHere. intros H.
  apply re_match_sound in H as (w & s1 & cap1 & -> & Hw & Hk).
  inversion Hk; subst. now exists w.
Qed.

Lemma matchHere_complete (re : regex) (w s' : input) :
  lang re (map fst w) -> is_Some (matchHere re (w ++ s')).
Proof.
  intros Hw. unfold matchHere. apply re_match_complete; [exact Hw | eauto].
Qed.

(** [findFrom] finds a match exactly when a word of the language occurs
    somewhere in the input. *)
Lemma findFrom_nonempty (re : regex) (s : input) :
  findFrom re s <> [] <-> exists pre w post, s = pre ++ w ++ post /\ lang re (map fst w).
Proof.
  split.
  - induction s as [| ch s IH]; cbn [findFrom].
    + destruct (matchHere re []) as [[s' cap] |] eqn:Hm; [| congruence].
      intros _. apply matchHere_Some in Hm as (w & Hs & Hw).
      exists [], w, s'. auto.
    + destruct (matchHere re (ch :: s)) as [[s' cap] |] eqn:Hm.
      * intros _. apply matchHere_Some in Hm as (w & Hs & Hw).
        exists [], w, s'. auto.
      * intros H. destruct (IH H) as (pre & w & post & -> & Hw).
        exists (ch :: pre), w, post. auto.
  - intros (pre & w & post & -> & Hw).
    induction pre as [| ch pre IH]; cbn [app].
    + destruct (matchHere_complete re w post Hw) as [[s' cap] Hm].
      destruct (w ++ post); cbn [findFrom]; rewrite Hm; discriminate.
    + cbn [findFrom]. destruct (matchHere re _) as [[s' cap] |]; [discriminate | exact IH].
Qed.



Lemma map_code_ascii (s : gostring) : asciiWord (map code s) -> isASCII s.
Proof.
  unfold asciiWord, isASCII. rewrite Forall_map. intros H.
  eapply Forall_impl; [exact H |]. intros c. simpl. lia.
Qed.

Lemma map_fst_asciiChunks (s : gostring) : map fst (asciiChunks s) = map code s.
Proof. unfold asciiChunks. rewrite map_map. reflexivity. Qed.

Lemma bytesOf_app (s1 s2 : input) : bytesOf (s1 ++ s2) = bytesOf s1 ++ bytesOf s2.
Proof. unfold bytesOf. now rewrite map_app, concat_app. Qed.

Lemma bytesOf_asciiChunks (s : gostring) : bytesOf (asciiChunks s) = s.
Proof.
  unfold bytesOf, asciiChunks. induction s as [| c s IH]; [reflexivity |].
  cbn [map concat snd app]. now rewrite IH.
Qed.

Lemma chunks_ascii (cw : input) :
  Forall chunkOK cw -> asciiWord (map fst cw) ->
  cw = asciiChunks (bytesOf cw) /\ map code (bytesOf cw) = map fst cw.
Proof.
  induction 1 as [| [r bs] cw Hch Hcw IH]; [now split |].
  cbn [map fst]. intros Hw. inversion Hw as [| ? ? Hr Hw']; subst.
  destruct (IH Hw') as [IH1 IH2].
  pose proof (chunkOK_ascii _ Hch) as Hbs. cbn [fst snd] in Hbs.
  rewrite Hbs by lia.
  unfold bytesOf in *. cbn [map concat snd app asciiChunks].
  rewrite code_chr by lia. split; f_equal; assumption.
Qed.


Lemma rangeString_split_ascii (pre w post : gostring) :
  isASCII w -> w <> [] ->
  rangeString (pre ++ w ++ post) = rangeString pre ++ asciiChunks w ++ rangeString post.
Proof.
  intros Hw Hne. destruct w as [| a w]; [congruence |].
  inversion Hw as [| ? ? Ha Hw']; subst.
  cbn [app]. rewrite rangeString_app_ascii by exact Ha.
  f_equal. change (a :: w ++ post) with ((a :: w) ++ post).
  now rewrite rangeString_ascii_app.
Qed.

(** For a pattern of ASCII literals and classes, matching on runes and
    occurring as bytes are the same thing. *)
Lemma FindStringSubmatch_occurs (re : regex) (s : gostring) :
  asciiLang re -> (FindStringSubmatch re s <> [] <-> occurs re s).
Proof.
  intros Hre. unfold FindStringSubmatch, occurs. rewrite findFrom_nonempty. split.
  - intros (cpre & cw & cpost & Hs & Hw).
    pose proof (rangeString_chunks s) as Hok. rewrite Hs in Hok.
    apply Forall_app in Hok as [_ Hok]. apply Forall_app in Hok as [Hok _].
    destruct (chunks_ascii cw Hok (Hre _ Hw)) as [_ Hcode].
    exists (bytesOf cpre), (bytesOf cw), (bytesOf cpost). split.
    + rewrite <- !bytesOf_app, <- Hs. symmetry. apply bytesOf_rangeString.
    + now rewrite Hcode.
  - intros (pre & w & post & -> & Hw).
    destruct w as [| a w].
    + exists [], [], (rangeString (pre ++ post)). split; [reflexivity | exact Hw].
    + exists (rangeString pre), (asciiChunks (a :: w)), (rangeString post). split.
      * apply rangeString_split_ascii; [| discriminate].
        apply map_code_ascii. now apply Hre.
      * now rewrite map_fst_asciiChunks.
Qed.

(** ** The three patterns of the translator *)

Lemma map_code_inj (w l : gostring) : map code w = map code l -> w = l.
Proof.
  revert l. induction w as [| c w IH]; intros [| d l] H; try discriminate; [reflexivity |].
  inversion H as [[Hc Hw]]. apply code_inj in Hc. subst. f_equal. now apply IH.
Qed.

Lemma runes_ascii (s : gostring) : isASCII s -> runes s = map code s.
Proof.
  intros Hs. unfold runes. rewrite rangeString_ascii by exact Hs.
  apply map_fst_asciiChunks.
Qed.

Lemma lang_lit (l : string) (w : gostring) :
  isASCII (str l) -> (lang (lit l) (map code w) <-> w = str l).
Proof.
  intros Hl. unfold lit. cbn [lang]. rewrite runes_ascii by exact Hl. split.
  - apply map_code_inj.
  - now intros ->.
Qed.

Lemma lang_Cat_bytes (r1 r2 : regex) (w : gostring) :
  lang (Cat r1 r2) (map code w) <->
  exists w1 w2, w = w1 ++ w2 /\ lang r1 (map code w1) /\ lang r2 (map code w2).
Proof.
  cbn [lang]. split.
  - intros (rs1 & rs2 & Hw & H1 & H2).
    apply map_eq_app in Hw as (w1 & w2 & -> & <- & <-). now exists w1, w2.
  - intros (w1 & w2 & -> & H1 & H2). exists (map code w1), (map code w2).
    now rewrite map_app.
Qed.

Lemma digit_code (c : ascii) : digit (code c) = isDigit c.
Proof. reflexivity. Qed.

Lemma lower_code (c : ascii) : lower (code c) = isLower c.
Proof. reflexivity. Qed.

Lemma lang_digits_bytes (w : gostring) :
  lang (Group (PlusClass digit)) (map code w) <->
  w <> [] /\ Forall (fun c => isDigit c = true) w.
Proof.
  cbn [lang]. rewrite Forall_map. split; intros [Hne Hw]; split; try exact Hw.
  - intros ->. now apply Hne.
  - destruct w; [congruence | discriminate].
Qed.

Lemma lang_class_bytes (p : Z -> bool) (w : gostring) :
  lang (Class p) (map code w) <-> exists c, w = [c] /\ p (code c) = true.
Proof.
  cbn [lang]. split.
  - intros (r & Hw & Hp). destruct w as [| c [| ? ?]]; try discriminate.
    inversion Hw; subst. now exists c.
  - intros (c & -> & Hp). now exists (code c).
Qed.

Ltac ascii_lit := unfold isASCII; vm_compute; repeat constructor.

Lemma asciiWord_app (w1 w2 : list Z) : asciiWord w1 -> asciiWord w2 -> asciiWord (w1 ++ w2).
Proof. unfold asciiWord. intros. now apply Forall_app. Qed.

Lemma asciiLang_lit (l : string) : isASCII (str l) -> asciiLang (lit l).
Proof.
  intros Hl w Hw. unfold lit in Hw. cbn [lang] in Hw. subst w.
  rewrite runes_ascii by exact Hl. unfold asciiWord. rewrite Forall_map.
  eapply Forall_impl; [exact Hl |]. intros c Hc. cbn beta in *.
  pose proof (code_range c). lia.
Qed.

Lemma asciiLang_Cat (r1 r2 : regex) : asciiLang r1 -> asciiLang r2 -> asciiLang (Cat r1 r2).
Proof.
  intros H1 H2 w (w1 & w2 & -> & Hw1 & Hw2). apply asciiWord_app; auto.
Qed.

Lemma asciiLang_Alt (r1 r2 : regex) : asciiLang r1 -> asciiLang r2 -> asciiLang (Alt r1 r2).
Proof. intros H1 H2 w [Hw | Hw]; auto. Qed.

Lemma asciiLang_Opt (r : regex) : asciiLang r -> asciiLang (Opt r).
Proof. intros H w [-> | Hw]; [constructor | auto]. Qed.

Lemma asciiLang_Group (r : regex) : asciiLang r -> asciiLang (Group r).
Proof. intros H w Hw. now apply H. Qed.

Lemma asciiLang_digits : asciiLang (PlusClass digit).
Proof.
  intros w [_ Hw]. eapply Forall_impl; [exact Hw |].
  intros r Hr. cbn beta in Hr. unfold digit in Hr.
  apply andb_true_iff in Hr as [H1 H2]. apply Z.leb_le in H1, H2. lia.
Qed.

Lemma asciiLang_lower : asciiLang (Class lower).
Proof.
  intros w (c & -> & Hc). constructor; [| constructor].
  unfold lower in Hc. apply andb_true_iff in Hc as [H1 H2]. apply Z.leb_le in H1, H2. lia.
Qed.

Lemma asciiLang_longer : asciiLang longerThanRegex.
Proof.
  apply asciiLang_Cat; [apply asciiLang_lit; ascii_lit |].
  apply asciiLang_Group, asciiLang_digits.
Qed.

Lemma asciiLang_shorter : asciiLang shorterThanRegex.
Proof.
  apply asciiLang_Cat; [apply asciiLang_lit; ascii_lit |].
  apply asciiLang_Group, asciiLang_digits.
Qed.

Lemma asciiLang_contains : asciiLang containsRegex.
Proof.
  unfold containsRegex.
  repeat first
    [ apply asciiLang_Cat | apply asciiLang_Alt | apply asciiLang_Opt
    | apply asciiLang_Group | apply asciiLang_lower ].
  all: apply asciiLang_lit; ascii_lit.
Qed.


Lemma occurs_phraseNumber (phrase : string) (s : gostring) :
  isASCII (str phrase) ->
  occurs (Cat (lit phrase) (Group (PlusClass digit))) s <-> phraseNumber phrase s.
Proof.
  intros Hl. unfold occurs, phraseNumber. split.
  - intros (pre & w & post & -> & Hw).
    apply lang_Cat_bytes in Hw as (w1 & w2 & -> & H1 & H2).
    apply lang_lit in H1; [| exact Hl]. subst w1.
    apply lang_digits_bytes in H2 as [Hne Hd].
    destruct w2 as [| d w2]; [congruence |].
    inversion Hd; subst.
    exists pre, d, (w2 ++ post). split; [| assumption].
    now rewrite <- !app_assoc.
  - intros (pre & d & post & -> & Hd).
    exists pre, (str phrase ++ [d]), post. split.
    + now rewrite <- !app_assoc.
    + apply lang_Cat_bytes. exists (str phrase), [d]. repeat split.
      * now apply lang_lit.
      * discriminate.
      * constructor; [exact Hd | constructor].
Qed.



Lemma lang_app (r1 r2 : regex) (w1 w2 : list Z) :
  lang r1 w1 -> lang r2 w2 -> lang (Cat r1 r2) (w1 ++ w2).
Proof. intros H1 H2. now exists w1, w2. Qed.

Lemma lang_lit_self (l : string) : isASCII (str l) -> lang (lit l) (map code (str l)).
Proof. intros Hl. now apply lang_lit. Qed.

Lemma lang_Opt_bytes (r : regex) (w : gostring) :
  lang (Opt r) (map code w) <-> w = [] \/ lang r (map code w).
Proof.
  cbn [lang]. split; (intros [H | H]; [left | now right]).
  - now apply map_eq_nil in H.
  - now subst.
Qed.

Lemma occurs_containsPhrase (s : gostring) : occurs containsRegex s <-> containsPhrase s.
Proof.
  unfold occurs, containsPhrase, containsRegex. split.
  - intros (pre & w & post & -> & Hw).
    apply lang_Cat_bytes in Hw as (w1 & w2 & -> & H1 & Hw).
    apply lang_lit in H1; [| ascii_lit]. subst w1.
    apply lang_Cat_bytes in Hw as (o & w2' & -> & Ho & Hw).
    apply lang_Cat_bytes in Hw as (sp1 & w3 & -> & Hsp1 & Hw).
    apply lang_lit in Hsp1; [| ascii_lit]. subst sp1.
    apply lang_Cat_bytes in Hw as (a & w4 & -> & Ha & Hw).
    apply lang_Cat_bytes in Hw as (n & w5 & -> & Hn & Hw).
    apply lang_Cat_bytes in Hw as (sp2 & w6 & -> & Hsp2 & Hw).
    apply lang_lit in Hsp2; [| ascii_lit]. subst sp2.
    change (lang (Class lower) (map code w6)) in Hw.
    apply lang_class_bytes in Hw as (x & -> & Hx).
    exists pre, (str "contain" ++ o), a, n, x, post.
    split; [now rewrite <- !app_assoc |].
    split.
    { apply lang_Opt_bytes in Ho as [-> | [Ho | Ho]].
      - cbn. auto.
      - apply lang_lit in Ho; [| ascii_lit]. subst o. cbn. auto.
      - apply lang_lit in Ho; [| ascii_lit]. subst o. cbn. auto. }
    split.
    { apply lang_Opt_bytes in Ha as [-> | Ha].
      - cbn. auto.
      - apply lang_lit in Ha; [| ascii_lit]. subst a. cbn. auto. }
    split; [| exact Hx].
    destruct Hn as [Hn | Hn]; (apply lang_lit in Hn; [| ascii_lit]); subst n; cbn; auto.
  - intros (pre & verb & article & noun & x & post & -> & Hv & Ha & Hn & Hx).
    exists pre, (verb ++ str " " ++ article ++ noun ++ str " " ++ [x]), post.
    split; [now rewrite <- !app_assoc |].
    assert (Hverb : exists o, verb = str "contain" ++ o /\
                    lang (Opt (Alt (lit "s") (lit "ing"))) (map code o)).
    { cbn [In] in Hv. destruct Hv as [<- | [<- | [<- | []]]].
      - exists (str "s"). split; [reflexivity |]. right. left. apply lang_lit_self. ascii_lit.
      - exists (str "ing"). split; [reflexivity |]. right. right. apply lang_lit_self. ascii_lit.
      - exists []. split; [reflexivity |]. now left. }
    destruct Hverb as (o & -> & Ho).
    rewrite <- !app_assoc, !map_app.
    apply lang_app; [apply lang_lit_self; ascii_lit |].
    apply lang_app; [exact Ho |].
    apply lang_app; [apply lang_lit_self; ascii_lit |].
    apply lang_app.
    { cbn [In] in Ha. destruct Ha as [<- | [<- | []]].
      - right. apply lang_lit_self. ascii_lit.
      - now left. }
    apply lang_app.
    { cbn [In] in Hn. destruct Hn as [<- | [<- | []]].
      - left. apply lang_lit_self. ascii_lit.
      - right. apply lang_lit_self. ascii_lit. }
    apply lang_app; [apply lang_lit_self; ascii_lit |].
    exists (code x). split; [reflexivity | exact Hx].
Qed.


(** ** The translator, check by check *)


Lemma parse_unfold (query : gostring) :
  parseNaturalLanguageQuery query =
  if (size (parsedFilters query) =? 0)%nat
  then inr (str "could not parse any filters from query")
  else inl (parsedFilters query).
Proof. reflexivity. Qed.

Lemma parse_inl (query : gostring) (f : gmap gostring value) :
  parseNaturalLanguageQuery query = inl f <-> f = parsedFilters query /\ f <> ∅.
Proof.
  rewrite parse_unfold.
  destruct (Nat.eqb_spec (size (parsedFilters query)) 0) as [Hz | Hnz].
  - apply map_size_empty_iff in Hz. split; [discriminate |].
    intros [-> Hne]. now destruct Hne.
  - split.
    + intros H. inversion H; subst. split; [reflexivity |].
      intros He. apply Hnz. now apply map_size_empty_iff.
    + now intros [-> _].
Qed.

Lemma parse_inr (query : gostring) (e : gostring) :
  parseNaturalLanguageQuery query = inr e <->
  parsedFilters query = ∅ /\ e = str "could not parse any filters from query".
Proof.
  rewrite parse_unfold.
  destruct (Nat.eqb_spec (size (parsedFilters query)) 0) as [Hz | Hnz].
  - apply map_size_empty_iff in Hz. split.
    + intros H. inversion H. auto.
    + now intros [_ ->].
  - split; [discriminate |]. intros [He _]. destruct Hnz. now apply map_size_empty_iff.
Qed.

Lemma lookup_ite {V} (c : bool) (a b : gmap gostring V) (k : gostring) :
  (if c then a else b) !! k = if c then a !! k else b !! k.
Proof. now destruct c. Qed.

Ltac key_ne := let H := fresh in intros H; vm_compute in H; discriminate H.

Ltac lookup_filters :=
  unfold parsedFilters; cbv zeta;
  repeat first
    [ rewrite lookup_ite
    | rewrite lookup_insert_eq
    | rewrite lookup_insert_ne by key_ne
    | rewrite lookup_empty ].

Lemma lookup_is_palindrome (q : gostring) :
  parsedFilters q !! str "is_palindrome" =
  if Contains (ToLower q) (str "palindrom") then Some (VBool true) else None.
Proof. lookup_filters. repeat case_match; reflexivity. Qed.

Lemma lookup_word_count (q : gostring) :
  parsedFilters q !! str "word_count" =
  if Contains (ToLower q) (str "single word") then Some (VInt 1)
  else if Contains (ToLower q) (str "two word") then Some (VInt 2) else None.
Proof. lookup_filters. repeat case_match; reflexivity. Qed.

Lemma lookup_min_length (q : gostring) :
  parsedFilters q !! str "min_length" =
  let matches := FindStringSubmatch longerThanRegex (ToLower q) in
  if (1 <? length matches)%nat
  then Some (VInt (int_add (fst (Atoi (default [] (matches !! 1%nat)))) 1))
  else None.
Proof. lookup_filters. repeat case_match; reflexivity. Qed.

Lemma lookup_max_length (q : gostring) :
  parsedFilters q !! str "max_length" =
  let matches := FindStringSubmatch shorterThanRegex (ToLower q) in
  if (1 <? length matches)%nat
  then Some (VInt (int_sub (fst (Atoi (default [] (matches !! 1%nat)))) 1))
  else None.
Proof. lookup_filters. repeat case_match; reflexivity. Qed.

Lemma lookup_contains_character (q : gostring) :
  parsedFilters q !! str "contains_character" =
  let matches := FindStringSubmatch containsRegex (ToLower q) in
  if Contains (ToLower q) (str "first vowel") then Some (VString (str "a"))
  else if (1 <? length matches)%nat
  then Some (VString (default [] (matches !! 1%nat)))
  else None.
Proof. lookup_filters. repeat case_match; reflexivity. Qed.


Lemma parsedFilters_empty (q : gostring) :
  parsedFilters q = ∅ <-> anyCheck (ToLower q) = false.
Proof.
  split.
  - intros He.
    pose proof (lookup_is_palindrome q) as H1.
    pose proof (lookup_word_count q) as H2.
    pose proof (lookup_min_length q) as H3.
    pose proof (lookup_max_length q) as H4.
    pose proof (lookup_contains_character q) as H5.
    rewrite He, lookup_empty in H1, H2, H3, H4, H5. cbv zeta in *.
    unfold anyCheck.
    repeat match goal with
    | H : None = (if ?c then _ else _) |- _ => destruct c; try discriminate H
    end.
    reflexivity.
  - unfold anyCheck. intros H.
    repeat (apply orb_false_elim in H as [H ?]).
    unfold parsedFilters. cbv zeta.
    repeat match goal with
    | H : ?c = false |- _ => rewrite H; clear H
    end.
    reflexivity.
Qed.


(** ** Facts about [strconv.Atoi] *)




Lemma isDigit_range (c : ascii) : isDigit c = true -> 48 <= code c <= 57.
Proof.
  unfold isDigit, between. intros H.
  apply andb_true_iff in H as [H1 H2]. apply Z.leb_le in H1, H2. lia.
Qed.

Lemma decimalFrom_bounds (ds : gostring) (n : Z) :
  digits ds -> 0 <= n ->
  n <= decimalFrom ds n /\ decimalFrom ds n < (n + 1) * 10 ^ Z.of_nat (length ds).
Proof.
  intros Hds. revert n. induction Hds as [| c ds Hc Hds IH]; intros n Hn.
  - cbn. lia.
  - apply isDigit_range in Hc.
    unfold decimalFrom in *. cbn [fold_left length].
    destruct (IH (n * 10 + (code c - 48)) ltac:(lia)) as [H1 H2].
    split; [lia |].
    rewrite Nat2Z.inj_succ, Z.pow_succ_r by lia.
    eapply Z.lt_le_trans; [exact H2 |].
    assert (0 < 10 ^ Z.of_nat (length ds)) by (apply Z.pow_pos_nonneg; lia).
    nia.
Qed.

Lemma decimalFrom_mono (ds : gostring) (n m : Z) :
  digits ds -> n <= m -> decimalFrom ds n <= decimalFrom ds m.
Proof.
  intros Hds. revert n m. induction Hds as [| c ds Hc Hds IH]; intros n m Hnm.
  - exact Hnm.
  - unfold decimalFrom in *. cbn [fold_left]. apply IH. lia.
Qed.

Lemma decimal_nonneg (ds : gostring) : digits ds -> 0 <= decimal ds.
Proof. intros H. now apply (decimalFrom_bounds ds 0). Qed.

Lemma atoiFast_digits (ds : gostring) (n : Z) :
  digits ds -> atoiFast ds n = Some (decimalFrom ds n).
Proof.
  intros Hds. revert n. induction Hds as [| c ds Hc Hds IH]; intros n; [reflexivity |].
  cbn [atoiFast]. rewrite Hc. apply IH.
Qed.

Lemma parseUintLoop_digits (ds : gostring) (n : Z) :
  digits ds -> 0 <= n <= maxUint64 ->
  parseUintLoop ds n =
  if decimalFrom ds n <=? maxUint64 then inl (decimalFrom ds n) else inr true.
Proof.
  intros Hds. revert n. induction Hds as [| c ds Hc Hds IH]; intros n Hn.
  - cbn. destruct (Z.leb_spec n maxUint64); [reflexivity | lia].
  - cbn [parseUintLoop]. rewrite Hc. cbn [negb].
    pose proof (isDigit_range c Hc) as Hd.
    unfold decimalFrom. cbn [fold_left]. fold (decimalFrom ds (n * 10 + (code c - 48))).
    pose proof (decimalFrom_bounds ds (n * 10 + (code c - 48)) Hds ltac:(lia)) as [Hge _].
    unfold maxUint64 in *. change (2 ^ 64) with 18446744073709551616 in *.
    change ((18446744073709551616 - 1) / 10 + 1) with 1844674407370955162.
    destruct (Z.leb_spec 1844674407370955162 n) as [Hcut | Hcut].
    + destruct (Z.leb_spec (decimalFrom ds (n * 10 + (code c - 48)))
                           (18446744073709551616 - 1)); [lia | reflexivity].
    + rewrite (Z.mod_small (n * 10)) by lia.
      destruct (Z.le_gt_cases (n * 10 + (code c - 48)) (18446744073709551616 - 1)) as [Hfit | Hbig].
      * rewrite Z.mod_small by lia.
        destruct (Z.ltb_spec (n * 10 + (code c - 48)) (n * 10)); [lia |].
        destruct (Z.ltb_spec (18446744073709551616 - 1) (n * 10 + (code c - 48))); [lia |].
        cbn [orb]. apply IH. lia.
      * assert ((n * 10 + (code c - 48)) mod 18446744073709551616
                = n * 10 + (code c - 48) - 18446744073709551616) as -> by zdiv.
        destruct (Z.ltb_spec (n * 10 + (code c - 48) - 18446744073709551616) (n * 10));
          [| lia].
        cbn [orb].
        destruct (Z.leb_spec (decimalFrom ds (n * 10 + (code c - 48)))
                             (18446744073709551616 - 1)); [lia | reflexivity].
Qed.

Lemma digit_not_sign (c : ascii) :
  isDigit c = true -> bool_decide (c = "-"%char) = false /\ bool_decide (c = "+"%char) = false.
Proof.
  intros Hc. split; apply bool_decide_eq_false; intros ->; discriminate Hc.
Qed.

(** On a run of digits [Atoi] returns the number, or the largest [int]
    when the number does not fit (the error is the second component). *)
Lemma Atoi_digits (ds : gostring) :
  ds <> [] -> digits ds -> fst (Atoi ds) = Z.min (decimal ds) maxInt.
Proof.
  intros Hne Hds. destruct ds as [| c ds]; [congruence |].
  pose proof Hds as Hall. inversion Hds as [| ? ? Hc Hds']; subst.
  destruct (digit_not_sign c Hc) as [Hminus Hplus].
  unfold Atoi. rewrite Hminus, Hplus. cbn [orb].
  destruct (Nat.ltb_spec (length (c :: ds)) 19) as [Hlen | Hlen].
  - rewrite atoiFast_digits by exact Hall. cbn [fst]. fold (decimal (c :: ds)).
    destruct (decimalFrom_bounds (c :: ds) 0 Hall ltac:(lia)) as [_ Hub].
    fold (decimal (c :: ds)) in Hub.
    assert (10 ^ Z.of_nat (length (c :: ds)) <= 10 ^ 18)
      by (apply Z.pow_le_mono_r; lia).
    unfold maxInt, intSize. change (2 ^ (64 - 1) - 1) with 9223372036854775807.
    change (10 ^ 18) with 1000000000000000000 in *. lia.
  - unfold ParseInt. rewrite Hminus, Hplus. cbn [orb negb andb].
    unfold ParseUint, isRangeErr.
    rewrite parseUintLoop_digits by (unfold maxUint64; first [exact Hall | lia]).
    fold (decimal (c :: ds)).
    pose proof (decimal_nonneg _ Hall) as Hnn.
    unfold maxInt, intSize, maxUint64 in *.
    change (2 ^ (64 - 1)) with 9223372036854775808.
    change (2 ^ 64 - 1) with 18446744073709551615.
    destruct (Z.leb_spec (decimal (c :: ds)) 18446744073709551615) as [Hfit | Hbig];
      cbn [negb andb].
    + destruct (Z.leb_spec 9223372036854775808 (decimal (c :: ds))); cbn [fst]; lia.
    + change (9223372036854775808 <=? 18446744073709551615) with true.
      cbn [fst]. lia.
Qed.


(** ** The leftmost match of "<phrase> N" and its group *)

Lemma consumed_app (w s' : input) : consumed (w ++ s') s' = bytesOf w.
Proof.
  unfold consumed. rewrite length_app.
  replace (length w + length s' - length s')%nat with (length w) by lia.
  now rewrite take_app_length.
Qed.

Lemma findFrom_here (re : regex) (s s' : input) (cap : option gostring) :
  matchHere re s = Some (s', cap) -> findFrom re s = [consumed s s'; default [] cap].
Proof. intros H. destruct s; cbn [findFrom]; now rewrite H. Qed.

Lemma findFrom_skip (re : regex) (cpre rest : input) :
  (forall cp1 cp2, cpre = cp1 ++ cp2 -> cp2 <> [] -> matchHere re (cp2 ++ rest) = None) ->
  findFrom re (cpre ++ rest) = findFrom re rest.
Proof.
  induction cpre as [| ch cpre IH]; intros H; [reflexivity |].
  pose proof (H [] (ch :: cpre) eq_refl ltac:(discriminate)) as H0.
  cbn [app] in *. cbn [findFrom]. rewrite H0.
  apply IH. intros cp1 cp2 -> Hne. now apply (H (ch :: cp1) cp2).
Qed.

Lemma chunk_occurrence (re : regex) (s : gostring) (cp1 cw cs' : input) :
  asciiLang re -> rangeString s = cp1 ++ cw ++ cs' -> lang re (map fst cw) ->
  s = bytesOf cp1 ++ bytesOf cw ++ bytesOf cs' /\ lang re (map code (bytesOf cw)).
Proof.
  intros Hre Hs Hw.
  pose proof (rangeString_chunks s) as Hok. rewrite Hs in Hok.
  apply Forall_app in Hok as [_ Hok]. apply Forall_app in Hok as [Hok _].
  destruct (chunks_ascii cw Hok (Hre _ Hw)) as [_ Hcode]. split.
  - rewrite <- !bytesOf_app, <- Hs. symmetry. apply bytesOf_rangeString.
  - now rewrite Hcode.
Qed.

Lemma bytesOf_nonempty (cs : input) : Forall chunkOK cs -> cs <> [] -> bytesOf cs <> [].
Proof.
  intros Hok Hne. destruct cs as [| ch cs]; [congruence |].
  inversion Hok as [| ? ? Hch _]; subst.
  apply chunkOK_nonempty in Hch. unfold bytesOf. cbn [map concat].
  destruct (snd ch); [congruence | discriminate].
Qed.

Lemma range_head_not_digit (post : gostring) :
  match post with [] => True | c :: _ => isDigit c = false end ->
  match rangeString post with [] => True | ch :: _ => digit (fst ch) = false end.
Proof.
  destruct post as [| c post]; [trivial |]. intros Hc.
  destruct (DecodeRuneInString (c :: post)) as [r w] eqn:Hd.
  rewrite (rangeString_step (c :: post) r w ltac:(discriminate) Hd). cbn [fst].
  destruct (digit r) eqn:Hr; [| reflexivity]. exfalso.
  pose proof (rangeString_chunks (c :: post)) as Hok.
  rewrite (rangeString_step (c :: post) r w ltac:(discriminate) Hd) in Hok.
  inversion Hok as [| ? ? Hch _]; subst.
  unfold digit in Hr. apply andb_true_iff in Hr as [H1 H2]. apply Z.leb_le in H1, H2.
  apply chunkOK_ascii in Hch; [| cbn [fst]; lia]. cbn [fst snd] in Hch.
  apply decode_width in Hd; [| discriminate].
  destruct w as [| w]; [lia |]. cbn [take] in Hch. inversion Hch; subst.
  unfold isDigit, between in Hc. rewrite code_chr in Hc by lia.
  apply andb_false_iff in Hc as [Hc | Hc]; apply Z.leb_gt in Hc; lia.
Qed.


Lemma asciiLang_phrase (phrase : string) : isASCII (str phrase) -> asciiLang (phraseRegex phrase).
Proof.
  intros Hl. apply asciiLang_Cat; [now apply asciiLang_lit |].
  apply asciiLang_Group, asciiLang_digits.
Qed.

Lemma matchHere_phrase (phrase : string) (cl cds s' : input) :
  map fst cl = runes (str phrase) -> cds <> [] ->
  Forall (fun ch => digit (fst ch) = true) cds ->
  match s' with [] => True | ch :: _ => digit (fst ch) = false end ->
  matchHere (phraseRegex phrase) (cl ++ cds ++ s') = Some (s', Some (bytesOf cds)).
Proof.
  intros Hcl Hne Hds Hend. unfold matchHere, phraseRegex, lit. cbn [re_match].
  assert (matchLit (runes (str phrase)) (cl ++ cds ++ s') = Some (cds ++ s')) as ->.
  { apply matchLit_Some. now exists cl. }
  apply matchPlus_greedy; [exact Hne | exact Hds | exact Hend |].
  now rewrite consumed_app.
Qed.

(** The match [FindStringSubmatch] reports for "<phrase> N": the leftmost
    occurrence of the phrase before a digit, with all the digits after it. *)
Lemma find_phraseNumber (phrase : string) (s pre ds post : gostring) :
  isASCII (str phrase) ->
  s = pre ++ str phrase ++ ds ++ post -> ds <> [] -> digits ds ->
  match post with [] => True | c :: _ => isDigit c = false end ->
  (forall pre' d post', s = pre' ++ str phrase ++ d :: post' -> isDigit d = true ->
                        (length pre <= length pre')%nat) ->
  FindStringSubmatch (phraseRegex phrase) s = [str phrase ++ ds; ds].
Proof.
  intros Hl Hs Hne Hds Hpost Hleft.
  assert (Hw : isASCII (str phrase ++ ds)).
  { apply Forall_app. split; [exact Hl |].
    eapply Forall_impl; [exact Hds |]. intros c Hc. apply isDigit_range in Hc. lia. }
  assert (Hr : rangeString s
               = rangeString pre ++ asciiChunks (str phrase ++ ds) ++ rangeString post).
  { rewrite Hs, (app_assoc (str phrase)). apply rangeString_split_ascii; [exact Hw |].
    destruct (str phrase); [exact Hne | discriminate]. }
  unfold FindStringSubmatch. rewrite Hr.
  rewrite findFrom_skip.
  - unfold asciiChunks. rewrite map_app, <- app_assoc.
    erewrite findFrom_here.
    2:{ apply matchHere_phrase.
        - rewrite runes_ascii by exact Hl. now rewrite map_map.
        - destruct ds; [congruence | discriminate].
        - apply Forall_map. eapply Forall_impl; [exact Hds |]. intros c Hc. exact Hc.
        - now apply range_head_not_digit. }
    rewrite app_assoc, consumed_app, bytesOf_app.
    fold (asciiChunks (str phrase)). fold (asciiChunks ds).
    now rewrite !bytesOf_asciiChunks.
  - intros cp1 cp2 Hpre Hcp2.
    destruct (matchHere _ _) as [[s' cap] |] eqn:Hm; [exfalso | reflexivity].
    apply matchHere_Some in Hm as (w & Hsplit & Hlang).
    assert (Hrs : rangeString s = cp1 ++ w ++ s').
    { rewrite Hr, Hpre, <- app_assoc. f_equal. exact Hsplit. }
    destruct (chunk_occurrence _ _ _ _ _ (asciiLang_phrase phrase Hl) Hrs Hlang)
      as [Hbytes Hlb].
    apply lang_Cat_bytes in Hlb as (w1 & w2 & Hw12 & H1 & H2).
    apply lang_lit in H1; [| exact Hl]. subst w1.
    apply lang_digits_bytes in H2 as [Hne2 Hd2].
    destruct w2 as [| d w2]; [congruence |]. inversion Hd2; subst.
    assert (Hle : (length pre <= length (bytesOf cp1))%nat).
    { apply (Hleft (bytesOf cp1) d (w2 ++ bytesOf s')); [| assumption].
      rewrite Hbytes, Hw12, <- !app_assoc. reflexivity. }
    pose proof (rangeString_chunks pre) as Hok. rewrite Hpre in Hok.
    apply Forall_app in Hok as [_ Hok2].
    pose proof (bytesOf_nonempty cp2 Hok2 Hcp2) as Hnz.
    pose proof (bytesOf_rangeString pre) as Hb. rewrite Hpre, bytesOf_app in Hb.
    rewrite <- Hb, length_app in Hle.
    destruct (bytesOf cp2); [congruence | simpl in Hle; lia].
Qed.

(** ** The structured filter engine *)

(** C7. [matchesFilters] holds exactly when every filter that is present
    holds: the palindrome flag equals the record's, the length lies between
    the inclusive bounds, the word count is equal, and the character occurs
    in the record's value when case is ignored; with no filter present every
    record matches. *)
Theorem matchesFilters_spec (data : StringData) :
  (forall (isPal : option bool) (minLength maxLength wordCount : option Z)
          (containsChar : gostring),
     matchesFilters data isPal minLength maxLength wordCount containsChar = true <->
     (forall b, isPal = Some b -> IsPalindrome (Properties data) = b)
     /\ (forall m, minLength = Some m -> m <= Length (Properties data))
     /\ (forall m, maxLength = Some m -> Length (Properties data) <= m)
     /\ (forall w, wordCount = Some w -> WordCount (Properties data) = w)
     /\ (containsChar <> [] -> containsFold (Value data) containsChar))
  /\ matchesFilters data None None None None [] = true.
Proof.
  split; [| reflexivity].
  intros isPal minLength maxLength wordCount containsChar.
  unfold matchesFilters, containsFold. split.
  - intros Hm.
    destruct isPal as [b |].
    2: assert (Hp : forall b : bool, @None bool = Some b -> IsPalindrome (Properties data) = b)
         by discriminate.
    1: destruct (Bool.eqb (IsPalindrome (Properties data)) b) eqn:Hb; [| discriminate Hm];
       apply Bool.eqb_prop in Hb;
       assert (Hp : forall b' : bool, Some b = Some b' -> IsPalindrome (Properties data) = b')
         by (intros b' Hb'; congruence).
    all: cbn [negb] in Hm; split; [exact Hp | clear Hp].
    all: destruct minLength as [m |];
      [ destruct (Z.ltb_spec (Length (Properties data)) m); [discriminate Hm |] | ];
      (split; [intros m' Hm'; try discriminate Hm'; inversion Hm'; subst; lia |]).
    all: destruct maxLength as [m2 |];
      [ destruct (Z.ltb_spec m2 (Length (Properties data))); [discriminate Hm |] | ];
      (split; [intros m' Hm'; try discriminate Hm'; inversion Hm'; subst; lia |]).
    all: destruct wordCount as [w |];
      [ destruct (Z.eqb_spec (WordCount (Properties data)) w); [| discriminate Hm] | ];
      (split; [intros w' Hw'; try discriminate Hw'; inversion Hw'; subst; congruence |]).
    all: intros Hne; apply Contains_spec;
      destruct (bool_decide (containsChar = [])) eqn:Hd;
      [ apply bool_decide_eq_true in Hd; congruence | ];
      cbn [negb andb] in Hm;
      destruct (Contains (ToLower (Value data)) (ToLower containsChar));
      [reflexivity | discriminate Hm].
  - intros (Hp & Hmin & Hmax & Hwc & Hc).
    destruct isPal as [b |]; [rewrite (Hp b eq_refl), Bool.eqb_reflx |]; cbn [negb].
    all: destruct minLength as [m |];
      [ specialize (Hmin m eq_refl);
        destruct (Z.ltb_spec (Length (Properties data)) m); [lia |] | ].
    all: destruct maxLength as [m2 |];
      [ specialize (Hmax m2 eq_refl);
        destruct (Z.ltb_spec m2 (Length (Properties data))); [lia |] | ].
    all: destruct wordCount as [w |];
      [ rewrite (Hwc w eq_refl), Z.eqb_refl | ]; cbn [negb].
    all: destruct (bool_decide (containsChar = [])) eqn:Hd; [reflexivity |];
      apply bool_decide_eq_false in Hd; apply Hc, Contains_spec in Hd;
      rewrite Hd; reflexivity.
Qed.
(** ** The record store *)

Lemma createString_conflict (v : gostring) (now : Z) (st : storage) (d : StringData) :
  v <> [] -> st !! v = Some d ->
  createString (Some v) now st
  = (NewError StatusConflict (str "String already exists in the system"), st).
Proof.
  intros Hv Hd. unfold createString. destruct v; [congruence |]. now rewrite Hd.
Qed.

Lemma createString_fresh (v : gostring) (now : Z) (st : storage) :
  v <> [] -> st !! v = None ->
  let d := {| ID := computeSHA256 v; Value := v;
              Properties := analyzeString v; CreatedAt := now |} in
  createString (Some v) now st = (JSONRecord StatusCreated d, <[v := d]> st).
Proof.
  intros Hv Hd. unfold createString. destruct v; [congruence |]. now rewrite Hd.
Qed.

Lemma createString_stored (v : gostring) (now : Z) (st : storage) :
  v <> [] -> is_Some (snd (createString (Some v) now st) !! v).
Proof.
  intros Hv. destruct (st !! v) as [d |] eqn:Hd.
  - rewrite (createString_conflict v now st d Hv Hd). cbn [snd]. rewrite Hd. eauto.
  - rewrite (createString_fresh v now st Hv Hd). cbn [snd]. rewrite lookup_insert_eq. eauto.
Qed.

Lemma createString_created (req : option gostring) (now : Z) (st st' : storage)
      (code : Z) (d : StringData) :
  createString req now st = (JSONRecord code d, st') ->
  exists v, req = Some v /\ v <> [] /\ st !! v = None /\ st' = <[v := d]> st
            /\ Value d = v /\ Properties d = analyzeString v /\ ID d = computeSHA256 v.
Proof.
  unfold createString. destruct req as [v |]; [| discriminate].
  destruct v as [| c v]; [discriminate |].
  destruct (st !! (c :: v)) eqn:Hd; [discriminate |].
  intros Hc. inversion Hc; subst. exists (c :: v). repeat split; auto; discriminate.
Qed.

(** C8. For a non-empty value [v]: a second insert of [v] fails with
    Conflict; a lookup right after a successful insert returns the record
    that was stored; a lookup after a delete fails with NotFound; and an
    insert or a delete that fails leaves the storage as it was. *)
Theorem store_operations (v : gostring) (Hv : v <> []) :
  (forall now1 now2 st,
     let st1 := snd (createString (Some v) now1 st) in
     createString (Some v) now2 st1
     = (NewError StatusConflict (str "String already exists in the system"), st1))
  /\ (forall now st d st',
        createString (Some v) now st = (JSONRecord StatusCreated d, st') ->
        st' !! v = Some d /\ getSpecificString v st' = JSONRecord StatusOK d)
  /\ (forall st,
        getSpecificString v (snd (deleteString v st))
        = NewError StatusNotFound (str "String does not exist in the system"))
  /\ (forall req now st code msg,
        fst (createString req now st) = NewError code msg ->
        snd (createString req now st) = st)
  /\ (forall w st code msg,
        fst (deleteString w st) = NewError code msg -> snd (deleteString w st) = st).
Proof.
  repeat split.
  - intros now1 now2 st st1.
    destruct (createString_stored v now1 st Hv) as [d Hd].
    now apply (createString_conflict v now2 st1 d).
  - apply createString_created in H as (v' & Hreq & _ & _ & -> & _).
    inversion Hreq; subst. apply lookup_insert_eq.
  - apply createString_created in H as (v' & Hreq & _ & _ & -> & _).
    inversion Hreq; subst. unfold getSpecificString. now rewrite lookup_insert_eq.
  - intros st. unfold deleteString, getSpecificString.
    destruct (st !! v) eqn:Hd; cbn [snd].
    + now rewrite lookup_delete_eq.
    + now rewrite Hd.
  - intros req now st code msg. unfold createString.
    destruct req as [[| c w] |]; try reflexivity.
    destruct (st !! (c :: w)); [reflexivity | discriminate].
  - intros w st code msg. unfold deleteString.
    destruct (st !! w); [discriminate | reflexivity].
Qed.

Lemma reachable_keys (st : storage) :
  reachable st ->
  forall k d, st !! k = Some d ->
    k <> [] /\ Value d = k /\ Properties d = analyzeString k /\ ID d = computeSHA256 k.
Proof.
  induction 1 as [| req now st Hst IH | w st Hst IH]; intros k d Hk.
  - rewrite lookup_empty in Hk. discriminate.
  - destruct (createString req now st) as [rep st'] eqn:Hc. cbn [snd] in Hk.
    destruct rep as [code d' | r | code | code msg].
    + apply createString_created in Hc as (v & _ & Hv & _ & -> & Hval & Hprop & Hid).
      destruct (decide (v = k)) as [-> | Hne].
      * rewrite lookup_insert_eq in Hk. inversion Hk; subst. auto.
      * rewrite lookup_insert_ne in Hk by exact Hne. now apply IH.
    + unfold createString in Hc. repeat case_match; discriminate.
    + unfold createString in Hc. repeat case_match; discriminate.
    + assert (st' = st) as ->; [| now apply IH].
      unfold createString in Hc. repeat case_match; inversion Hc; reflexivity.
  - unfold deleteString in Hk. destruct (st !! w) eqn:Hw; cbn [snd] in Hk.
    + destruct (decide (w = k)) as [-> | Hne].
      * rewrite lookup_delete_eq in Hk. discriminate.
      * rewrite lookup_delete_ne in Hk by exact Hne. now apply IH.
    + now apply IH.
Qed.

(** C9. Creating a record for the empty string fails with the
    invalid-input error "Missing 'value' field" and leaves the storage as it
    was; no storage the handlers can produce holds the empty string; and the
    analyzer has a result on the empty string. *)
Theorem empty_value_rejected :
  (forall now st,
     createString (Some []) now st
     = (NewError StatusBadRequest (str "Missing 'value' field"), st))
  /\ (forall st, reachable st -> st !! [] = None)
  /\ analyzeString [] =
     {| Length := 0; IsPalindrome := true; UniqueCharacters := 0; WordCount := 0;
        SHA256Hash := sha256hex []; CharacterFrequencyMap := ∅ |}.
Proof.
  split; [reflexivity |]. split; [| reflexivity].
  intros st Hst. destruct (st !! []) as [d |] eqn:Hd; [| reflexivity].
  apply (reachable_keys st Hst) in Hd as [Hne _]. congruence.
Qed.

(** C6. The record created for "A man a plan a canal Panama" has
    is_palindrome = true and word_count = 7. *)
Theorem panama_record (now : Z) (st : storage) :
  st !! panama = None ->
  exists d, createString (Some panama) now st = (JSONRecord StatusCreated d, <[panama := d]> st)
            /\ IsPalindrome (Properties d) = true
            /\ WordCount (Properties d) = 7.
Proof.
  intros Hst. eexists. split; [apply createString_fresh; [discriminate | exact Hst] |].
  cbn [Properties]. split; vm_compute; reflexivity.
Qed.

(** ** The translator *)

Lemma anyCheck_spec (lowerQuery : gostring) :
  anyCheck lowerQuery = true <-> anyPattern lowerQuery.
Proof.
  unfold anyCheck, anyPattern, substring.
  rewrite !orb_true_iff, !Contains_spec, !find_matched.
  rewrite (FindStringSubmatch_occurs longerThanRegex) by apply asciiLang_longer.
  rewrite (FindStringSubmatch_occurs shorterThanRegex) by apply asciiLang_shorter.
  rewrite (FindStringSubmatch_occurs containsRegex) by apply asciiLang_contains.
  rewrite occurs_containsPhrase.
  unfold longerThanRegex, shorterThanRegex.
  rewrite !occurs_phraseNumber by ascii_lit.
  tauto.
Qed.

(** C2. The translation fails, with the error "could not parse any filters
    from query", exactly when none of the patterns occurs in the lower-cased
    query; a translation that succeeds has at least one field set; and
    "banana" is not parseable. *)
Theorem translate_unparseable (query : gostring) :
  ((exists e, parseNaturalLanguageQuery query = inr e) <-> ~ anyPattern (ToLower query))
  /\ (forall e, parseNaturalLanguageQuery query = inr e ->
                e = str "could not parse any filters from query")
  /\ (forall f, parseNaturalLanguageQuery query = inl f -> exists k v, f !! k = Some v)
  /\ parseNaturalLanguageQuery (str "banana")
     = inr (str "could not parse any filters from query").
Proof.
  repeat split.
  - intros [e He]. apply parse_inr in He as [He _].
    apply parsedFilters_empty in He. rewrite <- anyCheck_spec, He. discriminate.
  - intros Hno. eexists. apply parse_inr. split; [| reflexivity].
    apply parsedFilters_empty. rewrite <- anyCheck_spec in Hno.
    now destruct (anyCheck (ToLower query)).
  - intros e He. now apply parse_inr in He.
  - intros f Hf. apply parse_inl in Hf as [_ Hne]. now apply map_choose.
Qed.

Lemma wrap_small (z : Z) : minInt <= z <= maxInt -> wrap z = z.
Proof.
  unfold wrap, minInt, maxInt, intSize.
  change (2 ^ (64 - 1)) with 9223372036854775808.
  change (2 ^ 64) with 18446744073709551616.
  intros Hz. rewrite Z.mod_small by lia. lia.
Qed.

Lemma maxInt_value : maxInt = 9223372036854775807.
Proof. reflexivity. Qed.

Lemma minInt_value : minInt = -9223372036854775808.
Proof. reflexivity. Qed.

Lemma matchHere_phrase_group (phrase : string) (s s' : input) (cap : option gostring) :
  Forall chunkOK s -> matchHere (phraseRegex phrase) s = Some (s', cap) ->
  exists g, cap = Some g /\ g <> [] /\ digits g.
Proof.
  intros Hok. unfold matchHere, phraseRegex, lit. cbn [re_match].
  destruct (matchLit (runes (str phrase)) s) as [s1 |] eqn:Hl; [| discriminate].
  apply matchLit_Some in Hl as (cl & -> & _).
  apply Forall_app in Hok as [_ Hok].
  intros Hm. apply matchPlus_sound in Hm as (w & s2 & -> & Hne & Hw & Hk).
  apply Forall_app in Hok as [Hok _].
  inversion Hk; subst. rewrite consumed_app.
  exists (bytesOf w). split; [reflexivity |]. split; [now apply bytesOf_nonempty |].
  assert (Hasc : asciiWord (map fst w)).
  { apply Forall_map. eapply Forall_impl; [exact Hw |].
    intros ch Hd. cbn beta in *. unfold digit in Hd.
    apply andb_true_iff in Hd as [H1 H2]. apply Z.leb_le in H1, H2. lia. }
  destruct (chunks_ascii w Hok Hasc) as [_ Hcode].
  assert (Hw' : Forall (fun r => digit r = true) (map fst w))
    by (apply Forall_map; exact Hw).
  rewrite <- Hcode in Hw'. apply Forall_map in Hw'. exact Hw'.
Qed.

(** A match of "<phrase> N" reports a non-empty run of digits as its group. *)
Lemma find_phrase_group (phrase : string) (s : gostring) :
  FindStringSubmatch (phraseRegex phrase) s <> [] ->
  exists whole g, FindStringSubmatch (phraseRegex phrase) s = [whole; g]
                  /\ g <> [] /\ digits g.
Proof.
  unfold FindStringSubmatch. pose proof (rangeString_chunks s) as Hok.
  induction (rangeString s) as [| ch cs IH]; cbn [findFrom].
  - destruct (matchHere _ []) as [[s' cap] |] eqn:Hm; [| congruence].
    intros _. apply matchHere_phrase_group in Hm as (g & -> & Hg); [| exact Hok].
    eauto.
  - destruct (matchHere _ (ch :: cs)) as [[s' cap] |] eqn:Hm.
    + intros _. apply matchHere_phrase_group in Hm as (g & -> & Hg); [| exact Hok].
      eauto.
    + inversion Hok; subst. now apply IH.
Qed.

Lemma Atoi_range (g : gostring) : g <> [] -> digits g -> 0 <= fst (Atoi g) <= maxInt.
Proof.
  intros Hne Hg. rewrite Atoi_digits by assumption.
  pose proof (decimal_nonneg g Hg). rewrite maxInt_value. lia.
Qed.

(** C3. On a successful translation: word_count, when set, is 1 or 2;
    max_length, when set, is at least -1, and negative only when the number
    after "shorter than" is 0; min_length, when set, is at least 1 provided
    the number after "longer than" is below the largest [int]. *)
Theorem numeric_fields (query : gostring) (f : gmap gostring value)
        (Hf : parseNaturalLanguageQuery query = inl f) :
  (forall v, f !! str "word_count" = Some v -> v = VInt 1 \/ v = VInt 2)
  /\ (forall v, f !! str "max_length" = Some v ->
        exists n, v = VInt n /\ -1 <= n /\
          (n < 0 -> decimal (default []
             (FindStringSubmatch shorterThanRegex (ToLower query) !! 1%nat)) = 0))
  /\ (forall v, f !! str "min_length" = Some v ->
        decimal (default [] (FindStringSubmatch longerThanRegex (ToLower query) !! 1%nat))
          < maxInt ->
        exists n, v = VInt n /\ 1 <= n).
Proof.
  apply parse_inl in Hf as [-> _]. repeat split.
  - intros v. rewrite lookup_word_count.
    repeat case_match; intros Hv; inversion Hv; auto.
  - intros v. rewrite lookup_max_length. cbv zeta.
    destruct (1 <? _)%nat eqn:Hm; [| discriminate].
    apply find_matched in Hm.
    destruct (find_phrase_group "shorter than " _ Hm) as (whole & g & Hfind & Hne & Hg).
    unfold shorterThanRegex in *. fold (phraseRegex "shorter than ") in *.
    rewrite Hfind. cbn [lookup list_lookup default]. unfold id.
    intros Hv. inversion Hv; subst. eexists. split; [reflexivity |].
    pose proof (Atoi_range g Hne Hg) as Hr. rewrite maxInt_value in Hr.
    pose proof (Atoi_digits g Hne Hg) as Ha. rewrite maxInt_value in Ha.
    unfold int_sub. rewrite wrap_small by (rewrite minInt_value, maxInt_value; lia).
    split; lia.
  - intros v. rewrite lookup_min_length. cbv zeta.
    destruct (1 <? _)%nat eqn:Hm; [| discriminate].
    apply find_matched in Hm.
    destruct (find_phrase_group "longer than " _ Hm) as (whole & g & Hfind & Hne & Hg).
    unfold longerThanRegex in *. fold (phraseRegex "longer than ") in *.
    rewrite Hfind. cbn [lookup list_lookup default]. unfold id.
    intros Hv Hlt. inversion Hv; subst. eexists. split; [reflexivity |].
    pose proof (decimal_nonneg g Hg) as Hnn.
    pose proof (Atoi_digits g Hne Hg) as Ha. rewrite maxInt_value in *.
    unfold int_add. rewrite wrap_small by (rewrite minInt_value, maxInt_value; lia).
    lia.
Qed.

Lemma translate_number (phrase : string) (s ds : gostring) :
  isASCII (str phrase) -> matchesNumber phrase s ds ->
  FindStringSubmatch (phraseRegex phrase) s = [str phrase ++ ds; ds].
Proof.
  intros Hl (pre & post & Hs & Hne & Hds & Hpost & Hleft).
  now apply (find_phraseNumber phrase s pre ds post).
Qed.

(** X20. When "longer than N" matches the lower-cased query with a number N
    below the largest [int], min_length is N+1; when "shorter than N"
    matches with N at most the largest [int], max_length is N-1.  N is read
    where the pattern matches: the whole run of digits at the leftmost
    place where the phrase is followed by a digit. *)
Theorem translate_length (query ds : gostring) :
  (matchesNumber "longer than " (ToLower query) ds -> decimal ds < maxInt ->
   exists f, parseNaturalLanguageQuery query = inl f
             /\ f !! str "min_length" = Some (VInt (decimal ds + 1)))
  /\ (matchesNumber "shorter than " (ToLower query) ds -> decimal ds <= maxInt ->
      exists f, parseNaturalLanguageQuery query = inl f
                /\ f !! str "max_length" = Some (VInt (decimal ds - 1)))
  /\ parseNaturalLanguageQuery (str "strings longer than 5")
     = inl (<[str "min_length" := VInt 6]> ∅)
  /\ parseNaturalLanguageQuery (str "strings shorter than 5")
     = inl (<[str "max_length" := VInt 4]> ∅).
Proof.
  split; [| split; [| split; vm_compute; reflexivity]].
  - intros Hm Hlt.
    pose proof Hm as (pre & post & _ & Hne & Hds & _).
    apply translate_number in Hm; [| ascii_lit].
    assert (Hlook : parsedFilters query !! str "min_length" = Some (VInt (decimal ds + 1))).
    { rewrite lookup_min_length. cbv zeta.
      unfold longerThanRegex. fold (phraseRegex "longer than "). rewrite Hm.
      cbn [length Nat.ltb Nat.leb lookup list_lookup default]. unfold id.
      rewrite Atoi_digits by assumption.
      pose proof (decimal_nonneg ds Hds). rewrite maxInt_value in *.
      unfold int_add. rewrite wrap_small by (rewrite minInt_value, maxInt_value; lia).
      do 2 f_equal. lia. }
    exists (parsedFilters query). split; [| exact Hlook].
    apply parse_inl. split; [reflexivity |]. intros He.
    rewrite He, lookup_empty in Hlook. discriminate.
  - intros Hm Hle.
    pose proof Hm as (pre & post & _ & Hne & Hds & _).
    apply translate_number in Hm; [| ascii_lit].
    assert (Hlook : parsedFilters query !! str "max_length" = Some (VInt (decimal ds - 1))).
    { rewrite lookup_max_length. cbv zeta.
      unfold shorterThanRegex. fold (phraseRegex "shorter than "). rewrite Hm.
      cbn [length Nat.ltb Nat.leb lookup list_lookup default]. unfold id.
      rewrite Atoi_digits by assumption.
      pose proof (decimal_nonneg ds Hds). rewrite maxInt_value in *.
      unfold int_sub. rewrite wrap_small by (rewrite minInt_value, maxInt_value; lia).
      do 2 f_equal. lia. }
    exists (parsedFilters query). split; [| exact Hlook].
    apply parse_inl. split; [reflexivity |]. intros He.
    rewrite He, lookup_empty in Hlook. discriminate.
Qed.

Lemma flat_map_asciiChunks (f : Z * gostring -> gostring) (w : gostring) :
  (forall c, In c w -> f (code c, [c]) = [c]) -> flat_map f (asciiChunks w) = w.
Proof.
  induction w as [| c w IH]; intros Hf; [reflexivity |].
  cbn [asciiChunks map flat_map]. rewrite (Hf c) by now left.
  cbn [app]. f_equal. apply IH. intros d Hd. apply Hf. now right.
Qed.

Lemma lower_ascii_fixed (c : ascii) :
  code c < 128 -> isUpper c = false ->
  (let r := unicode_ToLower (code c) in if 0 <=? r then EncodeRune r else []) = [c].
Proof.
  intros Hc Hu. cbv zeta. unfold unicode_ToLower, MaxASCII.
  pose proof (code_range c) as Hr.
  destruct (Z.leb_spec (code c) 127); [| lia].
  change ((65 <=? code c) && (code c <=? 90)) with (isUpper c). rewrite Hu.
  destruct (Z.leb_spec 0 (code c)); [| lia].
  unfold EncodeRune. destruct (Z.leb_spec 0 (code c)); [| lia].
  destruct (Z.leb_spec (code c) 127); [| lia].
  cbn [andb]. now rewrite chr_code.
Qed.

(** A run of ASCII bytes without capital letters is left as it is by
    [strings.ToLower]: if it occurs in a string, it occurs in the
    lower-cased string. *)
Lemma ToLower_substring (sub s : gostring) :
  isASCII sub -> existsb isUpper sub = false ->
  substring sub s -> substring sub (ToLower s).
Proof.
  intros Hasc Hup (pre & post & ->).
  destruct sub as [| a sub]; [now exists [], (ToLower (pre ++ [] ++ post)) |].
  unfold ToLower.
  destruct (forallb _ (pre ++ (a :: sub) ++ post)) eqn:Hall.
  - exists (map lowerByte pre), (map lowerByte post).
    assert (Hmap : map lowerByte (pre ++ (a :: sub) ++ post)
                   = map lowerByte pre ++ (a :: sub) ++ map lowerByte post)
      by (now rewrite !map_app, (map_lowerByte_id (a :: sub) Hup)).
    destruct (existsb isUpper (pre ++ (a :: sub) ++ post)) eqn:Hu; [exact Hmap |].
    rewrite <- Hmap. symmetry. now apply map_lowerByte_id.
  - unfold Map. rewrite rangeString_split_ascii by (first [exact Hasc | discriminate]).
    rewrite !flat_map_app. eexists _, _. f_equal. f_equal.
    apply flat_map_asciiChunks. intros c Hc. cbn [fst].
    apply lower_ascii_fixed.
    + unfold isASCII in Hasc. rewrite List.Forall_forall in Hasc. now apply Hasc.
    + destruct (isUpper c) eqn:Hcu; [| reflexivity].
      assert (existsb isUpper (a :: sub) = true); [| congruence].
      apply existsb_exists. now exists c.
Qed.

Lemma stored_records (st : storage) (d : StringData) :
  In d (map snd (map_to_list st)) <-> exists k, st !! k = Some d.
Proof.
  rewrite in_map_iff. split.
  - intros ([k d'] & <- & Hin). exists k.
    apply list_elem_of_In, elem_of_map_to_list in Hin. exact Hin.
  - intros [k Hk]. exists (k, d). split; [reflexivity |].
    now apply list_elem_of_In, elem_of_map_to_list.
Qed.

Lemma matches_single_word_palindrome (d : StringData) :
  matchesNaturalFilters d
    (<[str "word_count" := VInt 1]> (<[str "is_palindrome" := VBool true]> ∅)) = true
  <-> IsPalindrome (Properties d) = true /\ WordCount (Properties d) = 1.
Proof.
  unfold matchesNaturalFilters.
  repeat first
    [ rewrite lookup_insert_eq
    | rewrite lookup_insert_ne by key_ne
    | rewrite lookup_empty ].
  destruct (IsPalindrome (Properties d)); cbn [Bool.eqb negb].
  - destruct (Z.eqb_spec (WordCount (Properties d)) 1); cbn [negb]; split; intuition congruence.
  - split; [discriminate | intros [? _]; discriminate].
Qed.

(** C4. "all single word palindromic strings" translates to exactly
    is_palindrome = true and word_count = 1; a query whose lower-cased form
    contains "single word" gets word_count = 1, whether or not it also
    contains "two word", and so does a query that contains both phrases
    itself; and filtering a storage with that query returns the stored
    records that are palindromes of one word, and no others. *)
Theorem single_word_palindromes :
  parseNaturalLanguageQuery singleWordPalindromes
  = inl (<[str "word_count" := VInt 1]> (<[str "is_palindrome" := VBool true]> ∅))
  /\ (forall query, substring (str "single word") (ToLower query) ->
        exists f, parseNaturalLanguageQuery query = inl f
                  /\ f !! str "word_count" = Some (VInt 1))
  /\ (forall query, substring (str "single word") query ->
                     substring (str "two word") query ->
        exists f, parseNaturalLanguageQuery query = inl f
                  /\ f !! str "word_count" = Some (VInt 1))
  /\ (forall st, exists r,
        filterByNaturalLanguage singleWordPalindromes st = JSONFiltered r
        /\ (forall d, In d (Data r) <->
                      (exists k, st !! k = Some d)
                      /\ IsPalindrome (Properties d) = true
                      /\ WordCount (Properties d) = 1)
        /\ Count r = Z.of_nat (length (Data r))
        /\ Original (Interpreted r) = singleWordPalindromes
        /\ ParsedFilters (Interpreted r)
           = <[str "word_count" := VInt 1]> (<[str "is_palindrome" := VBool true]> ∅))
  /\ (forall st, reachable st -> forall r,
        filterByNaturalLanguage singleWordPalindromes st = JSONFiltered r ->
        forall d, In d (Data r) <->
                  (exists k, st !! k = Some d)
                  /\ isPalindrome (Value d) = true /\ countWords (Value d) = 1).
Proof.
  assert (Hparse : parseNaturalLanguageQuery singleWordPalindromes
            = inl (<[str "word_count" := VInt 1]> (<[str "is_palindrome" := VBool true]> ∅)))
    by (vm_compute; reflexivity).
  assert (Hfilter : forall st, exists r,
        filterByNaturalLanguage singleWordPalindromes st = JSONFiltered r
        /\ (forall d, In d (Data r) <->
                      (exists k, st !! k = Some d)
                      /\ IsPalindrome (Properties d) = true
                      /\ WordCount (Properties d) = 1)
        /\ Count r = Z.of_nat (length (Data r))
        /\ Original (Interpreted r) = singleWordPalindromes
        /\ ParsedFilters (Interpreted r)
           = <[str "word_count" := VInt 1]> (<[str "is_palindrome" := VBool true]> ∅)).
  { intros st. unfold filterByNaturalLanguage.
    change singleWordPalindromes with ("a"%char :: tl singleWordPalindromes) at 1.
    cbv iota beta. rewrite Hparse. eexists. split; [reflexivity |].
    cbn [Data Count Interpreted Original ParsedFilters].
    split; [| auto].
    intros d. rewrite filter_In, stored_records, matches_single_word_palindrome.
    tauto. }
  assert (Hsingle : forall query, substring (str "single word") (ToLower query) ->
            exists f, parseNaturalLanguageQuery query = inl f
                      /\ f !! str "word_count" = Some (VInt 1)).
  { intros query Hsub. apply Contains_spec in Hsub.
    assert (Hlook : parsedFilters query !! str "word_count" = Some (VInt 1))
      by (rewrite lookup_word_count, Hsub; reflexivity).
    exists (parsedFilters query). split; [| exact Hlook].
    apply parse_inl. split; [reflexivity |]. intros He.
    rewrite He, lookup_empty in Hlook. discriminate. }
  split; [exact Hparse |]. split; [exact Hsingle |].
  split; [| split; [exact Hfilter |]].
  - intros query Hsub _. apply Hsingle.
    apply ToLower_substring; [ascii_lit | reflexivity | exact Hsub].
  - intros st Hst r Hr d.
    destruct (Hfilter st) as (r' & Hr' & Hin & _).
    rewrite Hr in Hr'. inversion Hr'; subst r'. rewrite Hin.
    split; intros ([k Hk] & Hp & Hw); (split; [now exists k |]);
      destruct (reachable_keys st Hst k d Hk) as (_ & Hval & Hprop & _);
      rewrite Hprop, Hval in *; cbn [IsPalindrome WordCount] in *; auto.
Qed.

(** ** The palindrome check *)

Lemma isPalindrome_loop_spec (l : gostring) (n steps i : nat) :
  isPalindrome_loop l n steps i = true <->
  forall j, (i <= j < i + steps)%nat -> l !! j = l !! (n - 1 - j)%nat.
Proof.
  revert i. induction steps as [| steps IH]; intros i; cbn [isPalindrome_loop].
  - split; [intros _ j Hj; lia | reflexivity].
  - destruct (bool_decide (l !! i ≠ l !! (n - 1 - i)%nat)) eqn:Hd.
    + apply bool_decide_eq_true in Hd. split; [discriminate |].
      intros Hall. exfalso. apply Hd, Hall. lia.
    + apply bool_decide_eq_false in Hd. apply dec_stable in Hd.
      rewrite IH. split.
      * intros Hall j Hj. destruct (decide (j = i)) as [-> | Hne]; [exact Hd |].
        apply Hall. lia.
      * intros Hall j Hj. apply Hall. lia.
Qed.

Lemma rev_eq_lookup {A} (l : list A) :
  l = rev l <-> forall j, (j < length l)%nat -> l !! j = l !! (length l - 1 - j)%nat.
Proof.
  rewrite rev_alt. fold (reverse l). split.
  - intros Heq j Hj. rewrite Heq at 1. rewrite reverse_lookup by exact Hj.
    f_equal. lia.
  - intros Hall. apply list_eq. intros j.
    destruct (Nat.lt_ge_cases j (length l)) as [Hj | Hj].
    + rewrite reverse_lookup by exact Hj. rewrite (Hall j Hj). f_equal. lia.
    + rewrite !lookup_ge_None_2; [reflexivity | rewrite length_reverse; lia | lia].
Qed.

(** The loop over the first half decides equality with the reverse. *)
Lemma isPalindrome_loop_rev (l : gostring) :
  isPalindrome_loop l (length l) (length l / 2) 0 = bool_decide (l = rev l).
Proof.
  apply eq_true_iff_eq. rewrite isPalindrome_loop_spec, bool_decide_eq_true, rev_eq_lookup.
  pose proof (Nat.div_mod_eq (length l) 2) as Hdiv.
  pose proof (Nat.mod_upper_bound (length l) 2 ltac:(lia)) as Hmod.
  split.
  - intros Hhalf j Hj.
    destruct (Nat.lt_ge_cases j (length l / 2)) as [Hlt | Hge]; [apply Hhalf; lia |].
    destruct (Nat.lt_ge_cases (length l - 1 - j) (length l / 2)) as [Hlt' | Hge'].
    + rewrite (Hhalf (length l - 1 - j)%nat) by lia. f_equal. lia.
    + f_equal. lia.
  - intros Hall j Hj. apply Hall. lia.
Qed.

Lemma replace_class (p : Z -> bool) (fuel : nat) (cs : input) :
  (length cs <= fuel)%nat ->
  replaceFrom fuel (Class p) cs [] = bytesOf (List.filter (fun ch => negb (p (fst ch))) cs).
Proof.
  revert cs. induction fuel as [| fuel IH]; intros cs Hlen.
  - destruct cs; [reflexivity | simpl in Hlen; lia].
  - destruct cs as [| [r bs] cs]; [reflexivity |].
    cbn [replaceFrom]. unfold matchHere. cbn [re_match List.filter fst snd].
    simpl in Hlen. destruct (p r); cbn [negb].
    + replace (length cs <? length ((r, bs) :: cs))%nat with true
        by (symmetry; apply Nat.ltb_lt; simpl; lia).
      cbn [app]. apply IH. lia.
    + rewrite IH by lia. reflexivity.
Qed.

Lemma filter_map_fst (p : Z -> bool) (cs : input) :
  map fst (List.filter (fun ch => p (fst ch)) cs) = List.filter p (map fst cs).
Proof.
  induction cs as [| ch cs IH]; [reflexivity |].
  cbn [List.filter map]. destruct (p (fst ch)); cbn [map]; now rewrite IH.
Qed.

Lemma alnum_ascii (r : Z) : alnum r = true -> 0 <= r < 128.
Proof.
  unfold alnum, lower, upper, digit. intros Hr.
  repeat (apply orb_true_iff in Hr as [Hr | Hr]);
    apply andb_true_iff in Hr as [H1 H2]; apply Z.leb_le in H1, H2; lia.
Qed.

(** What is left of the string after the replacement: the ASCII letters
    and digits, one byte each. *)
Lemma cleaned_runes (s : gostring) :
  let cleaned := ReplaceAllString (Class notAlnum) s [] in
  map code cleaned = List.filter alnum (runes s) /\ isASCII cleaned.
Proof.
  cbv zeta. unfold ReplaceAllString. rewrite replace_class by lia.
  set (kept := List.filter (fun ch => negb (notAlnum (fst ch))) (rangeString s)).
  assert (Hok : Forall chunkOK kept).
  { apply List.Forall_forall. intros ch Hin. apply filter_In in Hin as [Hin _].
    pose proof (rangeString_chunks s) as Hall.
    rewrite List.Forall_forall in Hall. now apply Hall. }
  assert (Hrunes : map fst kept = List.filter alnum (runes s)).
  { unfold kept, runes. rewrite <- filter_map_fst.
    f_equal. apply filter_ext. intros ch. unfold notAlnum, alnum. apply negb_involutive. }
  assert (Hasc : asciiWord (map fst kept)).
  { rewrite Hrunes. apply List.Forall_forall. intros r Hin.
    apply filter_In in Hin as [_ Hr]. now apply alnum_ascii. }
  destruct (chunks_ascii kept Hok Hasc) as [_ Hcode].
  split; [now rewrite Hcode |].
  apply map_code_ascii. now rewrite Hcode.
Qed.

Lemma code_lowerByte (c : ascii) : code (lowerByte c) = lowerRune (code c).
Proof.
  unfold lowerByte, lowerRune. change (upper (code c)) with (isUpper c).
  destruct (isUpper c) eqn:Hc; [| reflexivity].
  unfold isUpper, between in Hc. apply andb_true_iff in Hc as [H1 H2].
  apply Z.leb_le in H1, H2. apply code_chr. lia.
Qed.

Lemma cleaned_normalized (s : gostring) :
  map code (ToLower (ReplaceAllString (Class notAlnum) s [])) = normalized s.
Proof.
  destruct (cleaned_runes s) as [Hrunes Hasc]. cbv zeta in *.
  rewrite ToLower_ascii by exact Hasc.
  unfold normalized. rewrite <- Hrunes, !map_map.
  apply map_ext. intros c. apply code_lowerByte.
Qed.

Lemma map_code_rev (l : gostring) : l = rev l <-> map code l = rev (map code l).
Proof.
  rewrite <- map_rev. split; [now intros <- | apply map_code_inj].
Qed.

(** C5. The palindrome property of a string is: strip every character
    that is not an ASCII letter or digit, lower-case the remainder, and
    compare the sequence with its reverse; an empty or one-character
    sequence is a palindrome. *)
Theorem isPalindrome_spec (s : gostring) :
  isPalindrome s = palindrome_spec s
  /\ ((length (normalized s) <= 1)%nat -> isPalindrome s = true).
Proof.
  assert (Heq : isPalindrome s = palindrome_spec s).
  { unfold isPalindrome, palindrome_spec. cbv zeta.
    rewrite isPalindrome_loop_rev. apply bool_decide_ext.
    rewrite map_code_rev, cleaned_normalized. reflexivity. }
  split; [exact Heq |].
  intros Hlen. rewrite Heq. unfold palindrome_spec. apply bool_decide_eq_true.
  destruct (normalized s) as [| r [| r' l]]; [reflexivity | reflexivity |].
  simpl in Hlen. lia.
Qed.
(** ** Length, distinct characters and frequencies *)

Lemma runes_valid (s : gostring) : Forall validScalar (runes s).
Proof.
  unfold runes. apply Forall_map.
  eapply Forall_impl; [apply rangeString_chunks |]. intros ch. apply chunkOK_valid.
Qed.

Lemma length_bytesOf (cs : input) :
  Forall chunkOK cs -> (length cs <= length (bytesOf cs))%nat.
Proof.
  induction 1 as [| ch cs Hch Hcs IH]; [reflexivity |].
  unfold bytesOf in *. cbn [map concat length]. rewrite length_app.
  apply chunkOK_nonempty in Hch. destruct (snd ch); [congruence |]. simpl. lia.
Qed.

Lemma length_runes (s : gostring) : (length (runes s) <= length s)%nat.
Proof.
  unfold runes. rewrite length_map.
  rewrite <- (bytesOf_rangeString s) at 2.
  apply length_bytesOf, rangeString_chunks.
Qed.

Lemma charSet_dom (l : list Z) (m : gmap Z bool) :
  dom (fold_left (fun m char => <[char := true]> m) l m) = dom m ∪ list_to_set l.
Proof.
  revert m. induction l as [| r l IH]; intros m; cbn [fold_left].
  - rewrite list_to_set_nil. now rewrite (right_id_L ∅ (∪)).
  - rewrite IH, dom_insert_L, list_to_set_cons.
    rewrite (comm_L (∪) {[r]} (dom m)), <- (assoc_L (∪)). reflexivity.
Qed.

Lemma countUniqueCharacters_spec (s : gostring) :
  countUniqueCharacters s = Z.of_nat (size (list_to_set (runes s) : gset Z)).
Proof.
  unfold countUniqueCharacters. rewrite <- size_dom, charSet_dom, dom_empty_L.
  now rewrite (left_id_L ∅ (∪)).
Qed.

Lemma size_list_to_set_le (l : list Z) :
  (size (list_to_set l : gset Z) <= length l)%nat.
Proof.
  induction l as [| r l IH]; [now rewrite list_to_set_nil, size_empty |].
  rewrite list_to_set_cons, size_union_alt, size_singleton. cbn [length].
  assert (Hsub : list_to_set l ∖ {[r]} ⊆ (list_to_set l : gset Z)).
  { intros x Hx. apply elem_of_difference in Hx. tauto. }
  apply subseteq_size in Hsub. lia.
Qed.

Lemma frequency_fold (l : list Z) (m : gmap gostring Z) (key : gostring) :
  fold_left (fun frequency char =>
               let k := EncodeRune char in
               <[k := default 0 (frequency !! k) + 1]> frequency) l m !! key
  = if (countKey key l =? 0)%nat then m !! key
    else Some (default 0 (m !! key) + Z.of_nat (countKey key l)).
Proof.
  revert m. induction l as [| r l IH]; intros m; [reflexivity |].
  cbn [fold_left]. rewrite IH. unfold countKey. cbn [List.filter].
  destruct (decide (EncodeRune r = key)) as [Hk | Hk].
  - rewrite bool_decide_eq_true_2 by exact Hk. cbn [length]. subst key.
    rewrite lookup_insert_eq. cbn [default].
    change (S ?n =? 0)%nat with false. cbv iota.
    destruct (Nat.eqb_spec (length (List.filter
               (fun r0 => bool_decide (EncodeRune r0 = EncodeRune r)) l)) 0) as [-> | _].
    + f_equal; cbn; lia.
    + unfold id. f_equal; lia.
  - rewrite bool_decide_eq_false_2 by exact Hk.
    rewrite lookup_insert_ne by exact Hk. reflexivity.
Qed.

Lemma countKey_count_occ (l : list Z) (r : Z) :
  Forall validScalar l -> validScalar r ->
  countKey (EncodeRune r) l = count_occ Z.eq_dec l r.
Proof.
  intros Hl Hr. unfold countKey.
  induction Hl as [| x l Hx Hl IH]; [reflexivity |].
  cbn [List.filter count_occ].
  destruct (Z.eq_dec x r) as [-> | Hne].
  - rewrite bool_decide_eq_true_2 by reflexivity. cbn [length]. now rewrite IH.
  - rewrite bool_decide_eq_false_2; [exact IH |].
    intros Heq. apply Hne. now apply EncodeRune_inj.
Qed.

Lemma rangeString_encode (r : Z) (rest : gostring) :
  validScalar r ->
  rangeString (EncodeRune r ++ rest) = (r, EncodeRune r) :: rangeString rest.
Proof.
  intros Hr.
  assert (Hne : EncodeRune r ++ rest <> []).
  { unfold EncodeRune. repeat case_match; discriminate. }
  rewrite (rangeString_step _ r (length (EncodeRune r)) Hne (encode_decode r rest Hr)).
  now rewrite take_app_length, drop_app_length.
Qed.

(** A string that encodes a sequence of code points is read back as that
    sequence. *)
Lemma runes_encode (cs : list Z) :
  Forall validScalar cs -> runes (flat_map EncodeRune cs) = cs.
Proof.
  induction 1 as [| r cs Hr Hcs IH]; [reflexivity |].
  cbn [flat_map]. unfold runes in *. rewrite rangeString_encode by exact Hr.
  cbn [map fst]. now rewrite IH.
Qed.

Lemma countKey_In (key : gostring) (l : list Z) :
  countKey key l <> 0%nat -> exists r, In r l /\ key = EncodeRune r.
Proof.
  unfold countKey. intros Hn.
  destruct (List.filter _ l) as [| r l'] eqn:Hf; [now destruct Hn |].
  assert (Hin : In r (List.filter (fun r => bool_decide (EncodeRune r = key)) l))
    by (rewrite Hf; now left).
  apply filter_In in Hin as [Hin Hk]. apply bool_decide_eq_true in Hk. eauto.
Qed.

(** C10. Length is the number of bytes of the value, unique_characters the
    number of distinct code points [range] reads from it, and the frequency
    map has one key per code point, [string(rune)], with the number of its
    occurrences; the code points read from the UTF-8 encoding of a sequence
    are that sequence; so the number of code points is at most Length, and
    for "é" Length is 2 while one character is counted. *)
Theorem length_in_bytes (v : gostring) :
  let p := analyzeString v in
  Length p = Z.of_nat (length v)
  /\ UniqueCharacters p = Z.of_nat (size (list_to_set (runes v) : gset Z))
  /\ (forall r, validScalar r ->
        CharacterFrequencyMap p !! EncodeRune r
        = if (count_occ Z.eq_dec (runes v) r =? 0)%nat then None
          else Some (Z.of_nat (count_occ Z.eq_dec (runes v) r)))
  /\ (forall key, is_Some (CharacterFrequencyMap p !! key) ->
        exists r, In r (runes v) /\ key = EncodeRune r)
  /\ UniqueCharacters p <= Z.of_nat (length (runes v)) <= Length p
  /\ (forall cs, Forall validScalar cs ->
        let encoded := flat_map EncodeRune cs in
        runes encoded = cs
        /\ Length (analyzeString encoded) = Z.of_nat (length encoded)
        /\ UniqueCharacters (analyzeString encoded)
           = Z.of_nat (size (list_to_set cs : gset Z)))
  /\ (let e := analyzeString eAcute in
      runes eAcute = [233] /\ Length e = 2 /\ UniqueCharacters e = 1
      /\ CharacterFrequencyMap e = <[eAcute := 1]> ∅).
Proof.
  cbv zeta. cbn [analyzeString Length UniqueCharacters CharacterFrequencyMap].
  split; [reflexivity |].
  split; [apply countUniqueCharacters_spec |].
  split.
  { intros r Hr. unfold getCharacterFrequency.
    rewrite frequency_fold, lookup_empty.
    rewrite countKey_count_occ by (first [apply runes_valid | exact Hr]).
    destruct (_ =? 0)%nat; [reflexivity |]. cbn [default]. f_equal; lia. }
  split.
  { intros key. unfold getCharacterFrequency.
    rewrite frequency_fold, lookup_empty.
    destruct (Nat.eqb_spec (countKey key (runes v)) 0) as [_ | Hn].
    - intros [x Hx]. discriminate.
    - intros _. now apply countKey_In. }
  split.
  { rewrite countUniqueCharacters_spec. unfold len.
    pose proof (size_list_to_set_le (runes v)). pose proof (length_runes v). lia. }
  split.
  { intros cs Hcs. split; [now apply runes_encode |]. split; [reflexivity |].
    rewrite countUniqueCharacters_spec, runes_encode by exact Hcs. reflexivity. }
  repeat split; vm_compute; reflexivity.
Qed.

(** ** Further properties of the record store *)

(** X1. In every storage the handlers can produce, the record kept under a
    key has that key as its value, the digest of the value as its identifier
    and as its hash property, and the properties the analyzer computes for
    the value; no key is empty. *)
Theorem stored_record_invariant (st : storage) (k : gostring) (d : StringData) :
  reachable st -> st !! k = Some d ->
  k <> [] /\ Value d = k /\ ID d = sha256hex k
  /\ SHA256Hash (Properties d) = sha256hex k
  /\ Properties d = analyzeString k
  /\ Length (Properties d) = Z.of_nat (length (Value d)).
Proof.
  intros Hst Hk.
  destruct (reachable_keys st Hst k d Hk) as (Hne & Hval & Hprop & Hid).
  rewrite Hprop, Hval. repeat split; auto.
Qed.

(** X2. Deleting a value right after it was created succeeds with 204 and
    gives back the storage as it was before the creation. *)
Theorem create_then_delete (v : gostring) (now : Z) (st st' : storage) (d : StringData) :
  createString (Some v) now st = (JSONRecord StatusCreated d, st') ->
  deleteString v st' = (SendStatus StatusNoContent, st).
Proof.
  intros Hc. apply createString_created in Hc as (v' & Hreq & _ & Hnone & -> & _).
  inversion Hreq; subst v'. unfold deleteString.
  rewrite lookup_insert_eq. f_equal. now apply delete_insert_id.
Qed.

(** X3. Creating or deleting a value does not change what a lookup of any
    other value returns. *)
Theorem other_values_untouched (v w : gostring) (now : Z) (st : storage) :
  w <> v ->
  getSpecificString w (snd (createString (Some v) now st)) = getSpecificString w st
  /\ getSpecificString w (snd (deleteString v st)) = getSpecificString w st.
Proof.
  intros Hne. unfold getSpecificString, createString, deleteString. split.
  - destruct v as [| c v]; [reflexivity |].
    destruct (st !! (c :: v)); cbn [snd]; [reflexivity |].
    rewrite lookup_insert_ne by congruence. reflexivity.
  - destruct (st !! v); cbn [snd]; [| reflexivity].
    rewrite lookup_delete_ne by congruence. reflexivity.
Qed.

(** X4. After a delete of a non-empty value, whether it found the value
    or not, creating that value succeeds with 201, and the record created is
    the one a lookup then returns. *)
Theorem delete_then_create (v : gostring) (now : Z) (st : storage) :
  v <> [] ->
  exists d,
    createString (Some v) now (snd (deleteString v st))
    = (JSONRecord StatusCreated d, <[v := d]> (delete v st))
    /\ Value d = v /\ CreatedAt d = now
    /\ getSpecificString v (<[v := d]> (delete v st)) = JSONRecord StatusOK d.
Proof.
  intros Hv. eexists. split; [| split; [| split]].
  - assert (Hst : snd (deleteString v st) = delete v st).
    { unfold deleteString. destruct (st !! v) eqn:Hd; cbn [snd]; [reflexivity |].
      symmetry. now apply delete_id. }
    rewrite Hst. apply createString_fresh; [exact Hv | apply lookup_delete_eq].
  - reflexivity.
  - reflexivity.
  - unfold getSpecificString. now rewrite lookup_insert_eq.
Qed.

(** ** Further facts about [strconv.Atoi] *)

Lemma Atoi_digits_ok (ds : gostring) :
  ds <> [] -> digits ds ->
  Atoi ds = (Z.min (decimal ds) maxInt, decimal ds <=? maxInt).
Proof.
  intros Hne Hds. destruct ds as [| c ds]; [congruence |].
  pose proof Hds as Hall. inversion Hds as [| ? ? Hc Hds']; subst.
  destruct (digit_not_sign c Hc) as [Hminus Hplus].
  unfold Atoi. rewrite Hminus, Hplus. cbn [orb].
  pose proof (decimal_nonneg _ Hall) as Hnn.
  destruct (Nat.ltb_spec (length (c :: ds)) 19) as [Hlen | Hlen].
  - rewrite atoiFast_digits by exact Hall. fold (decimal (c :: ds)).
    destruct (decimalFrom_bounds (c :: ds) 0 Hall ltac:(lia)) as [_ Hub].
    fold (decimal (c :: ds)) in Hub.
    assert (10 ^ Z.of_nat (length (c :: ds)) <= 10 ^ 18)
      by (apply Z.pow_le_mono_r; lia).
    rewrite maxInt_value. change (10 ^ 18) with 1000000000000000000 in *.
    f_equal; [lia |]. symmetry. apply Z.leb_le. lia.
  - unfold ParseInt. rewrite Hminus, Hplus. cbn [orb negb andb].
    unfold ParseUint, isRangeErr.
    rewrite parseUintLoop_digits by (unfold maxUint64; first [exact Hall | lia]).
    fold (decimal (c :: ds)).
    rewrite maxInt_value. unfold intSize, maxUint64.
    change (2 ^ (64 - 1)) with 9223372036854775808.
    change (2 ^ 64 - 1) with 18446744073709551615.
    destruct (Z.leb_spec (decimal (c :: ds)) 18446744073709551615) as [Hfit | Hbig];
      cbn [negb andb].
    + destruct (Z.leb_spec 9223372036854775808 (decimal (c :: ds)));
        destruct (Z.leb_spec (decimal (c :: ds)) 9223372036854775807);
        try lia; f_equal; lia.
    + change (9223372036854775808 <=? 18446744073709551615) with true. cbv iota.
      destruct (Z.leb_spec (decimal (c :: ds)) 9223372036854775807); [lia |].
      f_equal; lia.
Qed.

(** A minus sign before digits: the number is negated, and the largest
    magnitude accepted is 2^63. *)
Lemma Atoi_minus (ds : gostring) :
  ds <> [] -> digits ds ->
  Atoi ("-"%char :: ds) = (- Z.min (decimal ds) (maxInt + 1), decimal ds <=? maxInt + 1).
Proof.
  intros Hne Hds. destruct ds as [| c ds]; [congruence |].
  pose proof (decimal_nonneg _ Hds) as Hnn.
  unfold Atoi. rewrite bool_decide_eq_true_2 by reflexivity. cbn [orb].
  rewrite maxInt_value.
  destruct (Nat.ltb_spec (length ("-"%char :: c :: ds)) 19) as [Hlen | Hlen].
  - rewrite atoiFast_digits by exact Hds. fold (decimal (c :: ds)).
    destruct (decimalFrom_bounds (c :: ds) 0 Hds ltac:(lia)) as [_ Hub].
    fold (decimal (c :: ds)) in Hub.
    assert (10 ^ Z.of_nat (length (c :: ds)) <= 10 ^ 18)
      by (apply Z.pow_le_mono_r; simpl in *; lia).
    change (10 ^ 18) with 1000000000000000000 in *.
    f_equal; [lia |]. symmetry. apply Z.leb_le. lia.
  - unfold ParseInt.
    rewrite (bool_decide_eq_true_2 ("-"%char = "-"%char)) by reflexivity.
    rewrite (bool_decide_eq_false_2 ("-"%char = "+"%char)) by discriminate.
    cbn [orb negb andb].
    unfold ParseUint, isRangeErr.
    rewrite parseUintLoop_digits by (unfold maxUint64; first [exact Hds | lia]).
    fold (decimal (c :: ds)).
    unfold intSize, maxUint64.
    change (2 ^ (64 - 1)) with 9223372036854775808.
    change (2 ^ 64 - 1) with 18446744073709551615.
    change (9223372036854775807 + 1) with 9223372036854775808.
    destruct (Z.leb_spec (decimal (c :: ds)) 18446744073709551615) as [Hfit | Hbig];
      cbn [negb andb].
    + destruct (Z.ltb_spec 9223372036854775808 (decimal (c :: ds)));
        destruct (Z.leb_spec (decimal (c :: ds)) 9223372036854775808);
        try lia; f_equal; lia.
    + change (9223372036854775808 <? 18446744073709551615) with true. cbv iota.
      destruct (Z.leb_spec (decimal (c :: ds)) 9223372036854775808); [lia |].
      f_equal; lia.
Qed.

(** ** The two filter engines *)

Lemma ToLower_nil : ToLower [] = [].
Proof. reflexivity. Qed.

Lemma Contains_nil (s : gostring) : Contains s [] = true.
Proof. destruct s; reflexivity. Qed.

(** The matcher of the natural-language route reads a filter map the way
    the structured matcher reads its parameters. *)
Lemma matchers_agree (d : StringData) (f : gmap gostring value) :
  matchesNaturalFilters d f
  = matchesFilters d (asBool (f !! str "is_palindrome")) (asInt (f !! str "min_length"))
      (asInt (f !! str "max_length")) (asInt (f !! str "word_count"))
      (asString (f !! str "contains_character")).
Proof.
  unfold matchesNaturalFilters, matchesFilters.
  generalize (f !! str "is_palindrome") (f !! str "min_length") (f !! str "max_length")
             (f !! str "word_count") (f !! str "contains_character").
  intros op omn omx owc oc.
  destruct op as [[b | n | s] |]; cbn [asBool];
    try destruct (negb (Bool.eqb (IsPalindrome (Properties d)) b)); try reflexivity.
  all: destruct owc as [[b' | w | s'] |]; cbn [asInt];
    try destruct (negb (WordCount (Properties d) =? w));
    destruct omn as [[b1 | m1 | s1] |]; cbn [asInt];
    try destruct (Length (Properties d) <? m1);
    destruct omx as [[b2 | m2 | s2] |]; cbn [asInt];
    try destruct (m2 <? Length (Properties d)); try reflexivity.
  all: destruct oc as [[b3 | n3 | [| c s3]] |]; cbn [asString];
    try reflexivity; rewrite ?ToLower_nil, ?Contains_nil; try reflexivity.
Qed.

Lemma getAllStrings_cases (isPalindromeStr minLengthStr maxLengthStr wordCountStr
                           containsChar : gostring) (st : storage) :
  getAllStrings isPalindromeStr minLengthStr maxLengthStr wordCountStr containsChar st =
  if negb (validBool isPalindromeStr)
  then ListError StatusBadRequest (str "Invalid value for is_palindrome")
  else if negb (validInt minLengthStr)
  then ListError StatusBadRequest (str "Invalid value for min_length")
  else if negb (validInt maxLengthStr)
  then ListError StatusBadRequest (str "Invalid value for max_length")
  else if negb (validInt wordCountStr)
  then ListError StatusBadRequest (str "Invalid value for word_count")
  else if negb (validChar containsChar)
  then ListError StatusBadRequest (str "contains_character must be a single character")
  else
    let filtered :=
      List.filter (fun data => matchesFilters data (paramBool isPalindromeStr)
                                 (paramInt minLengthStr) (paramInt maxLengthStr)
                                 (paramInt wordCountStr) containsChar)
                  (map snd (map_to_list st)) in
    JSONList {| GetAllStringsResponse.Data := filtered;
                GetAllStringsResponse.Count := Z.of_nat (length filtered);
                GetAllStringsResponse.FiltersApplied :=
                  filtersOf (paramBool isPalindromeStr) (paramInt minLengthStr)
                            (paramInt maxLengthStr) (paramInt wordCountStr) containsChar |}.
Proof.
  unfold getAllStrings, validBool, validInt, validChar, paramBool, paramInt, filtersOf.
  cbv zeta.
  destruct isPalindromeStr as [| a0 a];
    [| destruct (ParseBool (a0 :: a)) as [v [|]]; cbn [fst snd negb]; [| reflexivity]].
  all: destruct minLengthStr as [| b0 b];
    [| destruct (Atoi (b0 :: b)) as [n1 [|]]; cbn [fst snd negb andb orb];
       [destruct (n1 <? 0); cbn [negb]; [reflexivity |] | reflexivity]].
  all: destruct maxLengthStr as [| c0 c];
    [| destruct (Atoi (c0 :: c)) as [n2 [|]]; cbn [fst snd negb andb orb];
       [destruct (n2 <? 0); cbn [negb]; [reflexivity |] | reflexivity]].
  all: destruct wordCountStr as [| e0 e];
    [| destruct (Atoi (e0 :: e)) as [n3 [|]]; cbn [fst snd negb andb orb];
       [destruct (n3 <? 0); cbn [negb]; [reflexivity |] | reflexivity]].
  all: destruct containsChar as [| x0 x];
    [| destruct (length (x0 :: x) =? 1)%nat; cbn [negb]]; reflexivity.
Qed.


Lemma filtersOf_lookup (isPalindrome : option bool) (minLength maxLength wordCount : option Z)
      (containsChar : gostring) :
  let f := filtersOf isPalindrome minLength maxLength wordCount containsChar in
  asBool (f !! str "is_palindrome") = isPalindrome
  /\ asInt (f !! str "min_length") = minLength
  /\ asInt (f !! str "max_length") = maxLength
  /\ asInt (f !! str "word_count") = wordCount
  /\ asString (f !! str "contains_character") = containsChar.
Proof.
  destruct isPalindrome, minLength, maxLength, wordCount, containsChar;
    repeat split; vm_compute; reflexivity.
Qed.

Lemma filtersOf_Some (isPalindrome : option bool) (minLength maxLength wordCount : option Z)
      (containsChar key : gostring) (v : value) :
  filtersOf isPalindrome minLength maxLength wordCount containsChar !! key = Some v ->
  (key = str "is_palindrome" /\ exists b, isPalindrome = Some b /\ v = VBool b)
  \/ (key = str "min_length" /\ exists n, minLength = Some n /\ v = VInt n)
  \/ (key = str "max_length" /\ exists n, maxLength = Some n /\ v = VInt n)
  \/ (key = str "word_count" /\ exists n, wordCount = Some n /\ v = VInt n)
  \/ (key = str "contains_character" /\ containsChar <> [] /\ v = VString containsChar).
Proof.
  unfold filtersOf. cbv zeta. intros Hk.
  destruct containsChar as [| x0 x].
  2: apply lookup_insert_Some in Hk as [[<- <-] | [_ Hk]];
       [right; right; right; right; split; [reflexivity | split; [discriminate | reflexivity]] |].
  all: destruct wordCount as [w |].
  1,3: apply lookup_insert_Some in Hk as [[<- <-] | [_ Hk]];
       [right; right; right; left; eauto |].
  all: destruct maxLength as [m2 |].
  1,3,5,7: apply lookup_insert_Some in Hk as [[<- <-] | [_ Hk]];
       [right; right; left; eauto |].
  all: destruct minLength as [m1 |];
    [apply lookup_insert_Some in Hk as [[<- <-] | [_ Hk]]; [right; left; eauto |] |].
  all: destruct isPalindrome as [b |];
    [apply lookup_insert_Some in Hk as [[<- <-] | [_ Hk]]; [left; eauto |] |].
  all: rewrite lookup_empty in Hk; discriminate.
Qed.

Lemma filter_all {A} (p : A -> bool) (l : list A) :
  (forall x, p x = true) -> List.filter p l = l.
Proof.
  intros Hp. induction l as [| x l IH]; [reflexivity |].
  cbn [List.filter]. now rewrite Hp, IH.
Qed.

(** ** The list handler *)

(** X5. Without parameters the list handler returns every stored record:
    the count is the number of stored values and no filter is reported. *)
Theorem list_without_filters (st : storage) :
  exists r, getAllStrings [] [] [] [] [] st = JSONList r
    /\ (forall d, In d (GetAllStringsResponse.Data r) <-> exists k, st !! k = Some d)
    /\ GetAllStringsResponse.Count r = Z.of_nat (size st)
    /\ GetAllStringsResponse.FiltersApplied r = ∅.
Proof.
  rewrite getAllStrings_cases. cbn [validBool validInt validChar negb paramBool paramInt].
  cbv zeta. eexists. split; [reflexivity |].
  cbn [GetAllStringsResponse.Data GetAllStringsResponse.Count
       GetAllStringsResponse.FiltersApplied].
  rewrite filter_all by reflexivity.
  split; [intros d; apply stored_records |].
  split; [| reflexivity].
  now rewrite length_map, length_map_to_list.
Qed.

(** X6. When the list handler answers with a list, the list holds exactly
    the stored records that satisfy the filters the answer reports as
    applied, and the count is the length of the list. *)
Theorem list_matches_reported_filters
        (isPalindromeStr minLengthStr maxLengthStr wordCountStr containsChar : gostring)
        (st : storage) (r : GetAllStringsResponse.t) :
  getAllStrings isPalindromeStr minLengthStr maxLengthStr wordCountStr containsChar st
  = JSONList r ->
  (forall d, In d (GetAllStringsResponse.Data r) <->
             (exists k, st !! k = Some d)
             /\ matchesNaturalFilters d (GetAllStringsResponse.FiltersApplied r) = true)
  /\ GetAllStringsResponse.Count r = Z.of_nat (length (GetAllStringsResponse.Data r)).
Proof.
  rewrite getAllStrings_cases. repeat case_match; try discriminate.
  cbv zeta. intros Hr. inversion Hr; subst r; clear Hr.
  cbn [GetAllStringsResponse.Data GetAllStringsResponse.Count
       GetAllStringsResponse.FiltersApplied].
  split; [| reflexivity].
  intros d. rewrite filter_In, stored_records, matchers_agree.
  destruct (filtersOf_lookup (paramBool isPalindromeStr) (paramInt minLengthStr)
              (paramInt maxLengthStr) (paramInt wordCountStr) containsChar)
    as (-> & -> & -> & -> & ->).
  reflexivity.
Qed.

(** X7. The filters the list handler reports passed its checks: a
    reported min_length, max_length or word_count is an integer that is not
    negative, a reported character is the one byte that was asked for, and a
    filter is reported only for a parameter that was given.  A parameter
    that fails a check is answered with status 400 whatever the storage
    holds. *)
Theorem list_filters_validated
        (isPalindromeStr minLengthStr maxLengthStr wordCountStr containsChar : gostring)
        (st : storage) :
  (forall r key v,
     getAllStrings isPalindromeStr minLengthStr maxLengthStr wordCountStr containsChar st
     = JSONList r ->
     GetAllStringsResponse.FiltersApplied r !! key = Some v ->
     (key = str "is_palindrome" /\ isPalindromeStr <> [] /\ exists b, v = VBool b)
     \/ (key = str "min_length" /\ minLengthStr <> [] /\ exists n, v = VInt n /\ 0 <= n)
     \/ (key = str "max_length" /\ maxLengthStr <> [] /\ exists n, v = VInt n /\ 0 <= n)
     \/ (key = str "word_count" /\ wordCountStr <> [] /\ exists n, v = VInt n /\ 0 <= n)
     \/ (key = str "contains_character" /\ exists c, containsChar = [c] /\ v = VString [c]))
  /\ (forall status message st',
        getAllStrings isPalindromeStr minLengthStr maxLengthStr wordCountStr containsChar st
        = ListError status message ->
        status = StatusBadRequest
        /\ getAllStrings isPalindromeStr minLengthStr maxLengthStr wordCountStr
                         containsChar st' = ListError status message).
Proof.
  split.
  - intros r key v. rewrite getAllStrings_cases.
    destruct (validBool isPalindromeStr) eqn:Hvb; [| discriminate].
    destruct (validInt minLengthStr) eqn:Hv1; [| discriminate].
    destruct (validInt maxLengthStr) eqn:Hv2; [| discriminate].
    destruct (validInt wordCountStr) eqn:Hv3; [| discriminate].
    destruct (validChar containsChar) eqn:Hvc; [| discriminate].
    cbn [negb]. cbv zeta. intros Hr. inversion Hr; subst r; clear Hr.
    cbn [GetAllStringsResponse.FiltersApplied]. intros Hk.
    assert (Hint : forall s n, validInt s = true -> paramInt s = Some n -> s <> [] /\ 0 <= n).
    { intros s n Hv Hp. destruct s as [| c s]; [discriminate |].
      split; [discriminate |]. cbn [validInt paramInt] in *. inversion Hp; subst n.
      apply andb_true_iff in Hv as [_ Hv]. apply negb_true_iff, Z.ltb_ge in Hv. exact Hv. }
    apply filtersOf_Some in Hk
      as [(-> & b & Hb & ->) | [(-> & n & Hn & ->) | [(-> & n & Hn & ->)
         | [(-> & n & Hn & ->) | (-> & Hne & ->)]]]].
    + left. split; [reflexivity |]. split; [| eauto].
      destruct isPalindromeStr; [discriminate | discriminate].
    + right; left. destruct (Hint _ _ Hv1 Hn). eauto.
    + right; right; left. destruct (Hint _ _ Hv2 Hn). eauto.
    + right; right; right; left. destruct (Hint _ _ Hv3 Hn). eauto.
    + right; right; right; right. split; [reflexivity |].
      destruct containsChar as [| c [| c' s]]; [congruence | eauto | discriminate].
  - intros status message st'. rewrite !getAllStrings_cases.
    repeat case_match; intros Hr; inversion Hr; subst; auto.
Qed.

(** X8. A min_length parameter made of decimal digits is taken as the
    number it denotes when that number fits an [int], and the list is then
    the stored records of at least that length; a number too large for an
    [int], or a negative number, is answered with "Invalid value for
    min_length". *)
Theorem list_min_length_number (ds : gostring) (st : storage) :
  ds <> [] -> digits ds ->
  (decimal ds <= maxInt ->
   exists r, getAllStrings [] ds [] [] [] st = JSONList r
     /\ GetAllStringsResponse.FiltersApplied r = <[str "min_length" := VInt (decimal ds)]> ∅
     /\ forall d, In d (GetAllStringsResponse.Data r) <->
                  (exists k, st !! k = Some d) /\ decimal ds <= Length (Properties d))
  /\ (maxInt < decimal ds ->
      getAllStrings [] ds [] [] [] st
      = ListError StatusBadRequest (str "Invalid value for min_length"))
  /\ (0 < decimal ds ->
      getAllStrings [] ("-"%char :: ds) [] [] [] st
      = ListError StatusBadRequest (str "Invalid value for min_length")).
Proof.
  intros Hne Hds. pose proof (decimal_nonneg ds Hds) as Hnn.
  pose proof (Atoi_digits_ok ds Hne Hds) as Ha.
  pose proof (Atoi_minus ds Hne Hds) as Hm.
  rewrite maxInt_value in *.
  split; [| split].
  - intros Hle. rewrite getAllStrings_cases.
    cbn [validBool validChar negb paramBool]. unfold validInt at 1, paramInt.
    destruct ds as [| c ds]; [congruence |]. rewrite Ha. cbn [fst snd].
    replace (decimal (c :: ds) <=? 9223372036854775807) with true
      by (symmetry; apply Z.leb_le; lia).
    rewrite Z.min_l by lia.
    replace (decimal (c :: ds) <? 0) with false by (symmetry; apply Z.ltb_ge; lia).
    cbn [andb negb validInt]. cbv zeta. eexists. split; [reflexivity |].
    cbn [GetAllStringsResponse.Data GetAllStringsResponse.FiltersApplied].
    split; [reflexivity |].
    intros d. rewrite filter_In, stored_records. unfold matchesFilters.
    generalize dependent (decimal (c :: ds)). intros N _ _ _ _.
    destruct (Z.ltb_spec (Length (Properties d)) N);
      cbn; intuition (try discriminate; try lia).
  - intros Hgt. rewrite getAllStrings_cases.
    cbn [validBool negb]. unfold validInt at 1.
    destruct ds as [| c ds]; [congruence |]. rewrite Ha. cbn [fst snd].
    replace (decimal (c :: ds) <=? 9223372036854775807) with false
      by (symmetry; apply Z.leb_gt; lia).
    reflexivity.
  - intros Hpos. rewrite getAllStrings_cases.
    cbn [validBool negb]. unfold validInt at 1. rewrite Hm. cbn [fst snd].
    replace (- (decimal ds `min` (9223372036854775807 + 1)) <? 0) with true
      by (symmetry; apply Z.ltb_lt; lia).
    rewrite andb_false_r. reflexivity.
Qed.

(** ** The matcher of the natural-language route *)

(** X9. [matchesNaturalFilters] holds exactly when every entry of the map
    that has the type the matcher asserts holds for the record: the flag is
    equal, the word count is equal, min_length and max_length are inclusive
    bounds, and the character occurs in the value when case is ignored.  An
    entry of another type constrains nothing. *)
Theorem matchesNaturalFilters_spec (data : StringData) (filters : gmap gostring value) :
  matchesNaturalFilters data filters = true <->
  (forall b, filters !! str "is_palindrome" = Some (VBool b) ->
             IsPalindrome (Properties data) = b)
  /\ (forall w, filters !! str "word_count" = Some (VInt w) ->
                WordCount (Properties data) = w)
  /\ (forall m, filters !! str "min_length" = Some (VInt m) ->
                m <= Length (Properties data))
  /\ (forall m, filters !! str "max_length" = Some (VInt m) ->
                Length (Properties data) <= m)
  /\ (forall c, filters !! str "contains_character" = Some (VString c) ->
                containsFold (Value data) c).
Proof.
  unfold matchesNaturalFilters, containsFold.
  generalize (filters !! str "is_palindrome") (filters !! str "word_count")
             (filters !! str "min_length") (filters !! str "max_length")
             (filters !! str "contains_character").
  intros op owc omn omx oc. split.
  - intros Hm.
    assert (Hp : forall b, op = Some (VBool b) -> IsPalindrome (Properties data) = b).
    { intros b ->. destruct (Bool.eqb _ b) eqn:Hb; [now apply Bool.eqb_prop |].
      discriminate Hm. }
    assert (Hm1 : (if match owc with
                      | Some (VInt w) => negb (WordCount (Properties data) =? w)
                      | _ => false end then false
                   else if match omn with
                      | Some (VInt m) => Length (Properties data) <? m
                      | _ => false end then false
                   else if match omx with
                      | Some (VInt m) => m <? Length (Properties data)
                      | _ => false end then false
                   else if match oc with
                      | Some (VString c) =>
                        negb (Contains (ToLower (Value data)) (ToLower c))
                      | _ => false end then false else true) = true).
    { destruct op as [[b | ? | ?] |]; try exact Hm.
      destruct (negb (Bool.eqb (IsPalindrome (Properties data)) b)); [discriminate | exact Hm]. }
    clear Hm. split; [exact Hp |].
    split.
    { intros w ->. destruct (Z.eqb_spec (WordCount (Properties data)) w); [assumption |].
      discriminate Hm1. }
    assert (Hm2 : (if match omn with
                      | Some (VInt m) => Length (Properties data) <? m
                      | _ => false end then false
                   else if match omx with
                      | Some (VInt m) => m <? Length (Properties data)
                      | _ => false end then false
                   else if match oc with
                      | Some (VString c) =>
                        negb (Contains (ToLower (Value data)) (ToLower c))
                      | _ => false end then false else true) = true).
    { destruct owc as [[? | w | ?] |]; try exact Hm1.
      destruct (negb (WordCount (Properties data) =? w)); [discriminate | exact Hm1]. }
    clear Hm1. split.
    { intros m ->. destruct (Z.ltb_spec (Length (Properties data)) m); [discriminate | lia]. }
    assert (Hm3 : (if match omx with
                      | Some (VInt m) => m <? Length (Properties data)
                      | _ => false end then false
                   else if match oc with
                      | Some (VString c) =>
                        negb (Contains (ToLower (Value data)) (ToLower c))
                      | _ => false end then false else true) = true).
    { destruct omn as [[? | m | ?] |]; try exact Hm2.
      destruct (Length (Properties data) <? m); [discriminate | exact Hm2]. }
    clear Hm2. split.
    { intros m ->. destruct (Z.ltb_spec m (Length (Properties data))); [discriminate | lia]. }
    intros c ->. apply Contains_spec.
    destruct omx as [[? | m | ?] |];
      try destruct (m <? Length (Properties data)); try discriminate;
      destruct (Contains (ToLower (Value data)) (ToLower c)); try reflexivity;
      discriminate.
  - intros (Hp & Hw & Hmn & Hmx & Hc).
    destruct op as [[b | ? | ?] |];
      [rewrite (Hp b eq_refl), Bool.eqb_reflx; cbn [negb] | | |].
    all: destruct owc as [[? | w | ?] |];
      [| rewrite (Hw w eq_refl), Z.eqb_refl; cbn [negb] | |].
    all: destruct omn as [[? | m | ?] |];
      [| specialize (Hmn m eq_refl);
         destruct (Z.ltb_spec (Length (Properties data)) m); [lia |] | |].
    all: destruct omx as [[? | m2 | ?] |];
      [| specialize (Hmx m2 eq_refl);
         destruct (Z.ltb_spec m2 (Length (Properties data))); [lia |] | |].
    all: destruct oc as [[? | ? | c] |]; try reflexivity;
      specialize (Hc c eq_refl); apply Contains_spec in Hc; rewrite Hc; reflexivity.
Qed.

(** X10. The two matchers agree: the natural-language matcher on a filter
    map decides as the structured matcher does on the values the map holds
    at the asserted types, a missing or differently typed entry counting as
    an absent filter. *)
Theorem matchers_agree_on_maps (data : StringData) (filters : gmap gostring value) :
  matchesNaturalFilters data filters
  = matchesFilters data
      (asBool (filters !! str "is_palindrome")) (asInt (filters !! str "min_length"))
      (asInt (filters !! str "max_length")) (asInt (filters !! str "word_count"))
      (asString (filters !! str "contains_character")).
Proof. apply matchers_agree. Qed.


(** ** Further properties of the translator *)

Lemma class_group_sound {A} (p : Z -> bool) (s : input) (cap : option gostring)
      (k : input -> option gostring -> option A) (x : A) :
  re_match (Group (Class p)) s cap k = Some x ->
  exists c bs s', s = (c, bs) :: s' /\ p c = true /\ k s' (Some bs) = Some x.
Proof.
  cbn [re_match]. destruct s as [| [c bs] s']; [discriminate |].
  destruct (p c) eqn:Hp; [| discriminate]. intros Hk.
  exists c, bs, s'. split; [reflexivity |]. split; [exact Hp |].
  change ((c, bs) :: s') with ([(c, bs)] ++ s') in Hk.
  rewrite consumed_app in Hk. unfold bytesOf in Hk. cbn [map concat snd] in Hk.
  now rewrite app_nil_r in Hk.
Qed.

Lemma matchHere_contains_group (s s' : input) (cap : option gostring) :
  Forall chunkOK s -> matchHere containsRegex s = Some (s', cap) ->
  exists x, cap = Some [x] /\ isLower x = true.
Proof.
  intros Hok. unfold matchHere, containsRegex.
  change (re_match (Cat ?r1 ?r2) ?s ?c ?k)
    with (re_match r1 s c (fun s' cap' => re_match r2 s' cap' k)).
  intros H.
  do 6 (apply re_match_sound in H as (? & ? & ? & -> & _ & H);
        apply Forall_app in Hok as [_ Hok];
        try change (re_match (Cat ?r1 ?r2) ?s ?c ?k)
          with (re_match r1 s c (fun s' cap' => re_match r2 s' cap' k)) in H).
  apply class_group_sound in H as (c & bs & s7 & -> & Hc & Hk).
  inversion Hk; subst. inversion Hok as [| ? ? Hch _]; subst.
  unfold lower in Hc. apply andb_true_iff in Hc as [H1 H2]. apply Z.leb_le in H1, H2.
  apply chunkOK_ascii in Hch; [| cbn [fst]; lia]. cbn [fst snd] in Hch. subst bs.
  exists (chr c). split; [reflexivity |].
  unfold isLower, between. rewrite code_chr by lia.
  apply andb_true_iff. split; apply Z.leb_le; lia.
Qed.

(** A match of the contains pattern reports one lower-case letter as its
    group. *)
Lemma find_contains_group (s : gostring) :
  FindStringSubmatch containsRegex s <> [] ->
  exists whole x, FindStringSubmatch containsRegex s = [whole; [x]] /\ isLower x = true.
Proof.
  unfold FindStringSubmatch. pose proof (rangeString_chunks s) as Hok.
  induction (rangeString s) as [| ch cs IH]; cbn [findFrom].
  - destruct (matchHere _ []) as [[s' cap] |] eqn:Hm; [| congruence].
    intros _. apply matchHere_contains_group in Hm as (x & -> & Hx); [| exact Hok].
    eauto.
  - destruct (matchHere _ (ch :: cs)) as [[s' cap] |] eqn:Hm.
    + intros _. apply matchHere_contains_group in Hm as (x & -> & Hx); [| exact Hok].
      eauto.
    + inversion Hok; subst. now apply IH.
Qed.

Lemma lookup_ite_insert {V} (c : bool) (k key : gostring) (x v : V) (m : gmap gostring V) :
  (if c then <[k := x]> m else m) !! key = Some v ->
  (c = true /\ key = k /\ v = x) \/ m !! key = Some v.
Proof.
  destruct c; [| now right]. intros H.
  apply lookup_insert_Some in H as [[<- <-] | [_ H]]; auto.
Qed.

(** X11. On a successful translation the map holds nothing but the five
    filter keys, each at the type the matcher asserts: is_palindrome is the
    boolean true, word_count the integer 1 or 2, min_length and max_length
    integers, and contains_character a string of one lower-case letter. *)
Theorem parsed_filters_typed (query : gostring) (f : gmap gostring value)
        (key : gostring) (v : value) :
  parseNaturalLanguageQuery query = inl f -> f !! key = Some v ->
  (key = str "is_palindrome" /\ v = VBool true)
  \/ (key = str "word_count" /\ (v = VInt 1 \/ v = VInt 2))
  \/ (key = str "min_length" /\ exists n, v = VInt n)
  \/ (key = str "max_length" /\ exists n, v = VInt n)
  \/ (key = str "contains_character" /\ exists x, v = VString [x] /\ isLower x = true).
Proof.
  intros Hf Hk. apply parse_inl in Hf as [-> _].
  unfold parsedFilters in Hk. cbv zeta in Hk.
  apply lookup_ite_insert in Hk as [(_ & -> & ->) | Hk].
  { right; right; right; right. split; [reflexivity |]. exists "a"%char. auto. }
  apply lookup_ite_insert in Hk as [(Hm & -> & ->) | Hk].
  { right; right; right; right. split; [reflexivity |].
    apply find_matched in Hm.
    destruct (find_contains_group _ Hm) as (whole & x & -> & Hx).
    exists x. auto. }
  apply lookup_ite_insert in Hk as [(_ & -> & ->) | Hk]; [right; right; right; left; eauto |].
  apply lookup_ite_insert in Hk as [(_ & -> & ->) | Hk]; [right; right; left; eauto |].
  destruct (Contains (ToLower query) (str "single word")).
  - apply lookup_insert_Some in Hk as [[<- <-] | [_ Hk]]; [right; left; auto |].
    apply lookup_ite_insert in Hk as [(_ & -> & ->) | Hk]; [left; auto |].
    rewrite lookup_empty in Hk. discriminate.
  - apply lookup_ite_insert in Hk as [(_ & -> & ->) | Hk]; [right; left; auto |].
    apply lookup_ite_insert in Hk as [(_ & -> & ->) | Hk]; [left; auto |].
    rewrite lookup_empty in Hk. discriminate.
Qed.

(** X12. "first vowel" takes precedence over the contains pattern: a
    query whose lower-cased form contains "first vowel" is translated with
    contains_character = "a", whatever letter a "contains the letter ..."
    phrase names. *)
Theorem first_vowel_wins (query : gostring) :
  substring (str "first vowel") (ToLower query) ->
  exists f, parseNaturalLanguageQuery query = inl f
            /\ f !! str "contains_character" = Some (VString (str "a")).
Proof.
  intros Hsub. apply Contains_spec in Hsub.
  assert (Hlook : parsedFilters query !! str "contains_character" = Some (VString (str "a")))
    by (rewrite lookup_contains_character; cbv zeta; rewrite Hsub; reflexivity).
  exists (parsedFilters query). split; [| exact Hlook].
  apply parse_inl. split; [reflexivity |]. intros He.
  rewrite He, lookup_empty in Hlook. discriminate.
Qed.

(** X13. The translation of an ASCII query does not depend on the case of
    its letters: two ASCII queries that are equal once lower-cased byte by
    byte have the same translation. *)
Theorem translation_ignores_case (q1 q2 : gostring) :
  isASCII q1 -> isASCII q2 -> map lowerByte q1 = map lowerByte q2 ->
  parseNaturalLanguageQuery q1 = parseNaturalLanguageQuery q2.
Proof.
  intros H1 H2 Heq. unfold parseNaturalLanguageQuery.
  rewrite (ToLower_ascii q1 H1), (ToLower_ascii q2 H2), Heq. reflexivity.
Qed.

Lemma anyPattern_nil : ~ anyPattern [].
Proof.
  rewrite <- anyCheck_spec. vm_compute. discriminate.
Qed.

(** X14. The natural-language handler answers 400 "Missing 'query'
    parameter" to an empty query and 400 "Unable to parse query: could not
    parse any filters from query" to a query in which no pattern occurs; to
    any other query it answers with the filters it derived, the query
    itself, and exactly the stored records that satisfy those filters. *)
Theorem natural_language_outcomes (query : gostring) (st : storage) :
  (query = [] ->
   filterByNaturalLanguage query st
   = NewError StatusBadRequest (str "Missing 'query' parameter"))
  /\ (query <> [] -> ~ anyPattern (ToLower query) ->
      filterByNaturalLanguage query st
      = NewError StatusBadRequest
          (str "Unable to parse query: could not parse any filters from query"))
  /\ (anyPattern (ToLower query) ->
      exists r f,
        filterByNaturalLanguage query st = JSONFiltered r
        /\ parseNaturalLanguageQuery query = inl f
        /\ ParsedFilters (Interpreted r) = f
        /\ Original (Interpreted r) = query
        /\ Count r = Z.of_nat (length (Data r))
        /\ forall d, In d (Data r) <->
                     (exists k, st !! k = Some d) /\ matchesNaturalFilters d f = true).
Proof.
  split; [intros ->; reflexivity |]. split.
  - intros Hne Hno. unfold filterByNaturalLanguage.
    destruct query as [| c q]; [congruence |].
    rewrite <- anyCheck_spec in Hno. apply not_true_is_false in Hno.
    apply parsedFilters_empty in Hno.
    rewrite parse_unfold, Hno. reflexivity.
  - intros Hany.
    assert (Hne : query <> []).
    { intros ->. now apply anyPattern_nil. }
    pose proof Hany as Hc. rewrite <- anyCheck_spec in Hc.
    assert (Hparse : parseNaturalLanguageQuery query = inl (parsedFilters query)).
    { apply parse_inl. split; [reflexivity |]. intros He.
      apply parsedFilters_empty in He. congruence. }
    unfold filterByNaturalLanguage. destruct query as [| c q]; [congruence |].
    rewrite Hparse. eexists _, _. split; [reflexivity |].
    cbn [Data Count Interpreted Original ParsedFilters].
    do 4 (split; [reflexivity |]).
    intros d. rewrite filter_In, stored_records. reflexivity.
Qed.


(** ** Further properties of the analyzer *)

Lemma decode_high_bytes (s : gostring) (c0 : ascii) (rest : gostring) (r : Z) (w : nat) :
  s = c0 :: rest -> 128 <= code c0 -> DecodeRuneInString s = (r, w) ->
  Forall (fun c => 128 <= code c) (take w s).
Proof.
  intros -> Hc0. unfold DecodeRuneInString.
  assert (H1 : Forall (fun c => 128 <= code c) (take 1 (c0 :: rest))).
  { cbn [take]. rewrite take_0. constructor; [exact Hc0 | constructor]. }
  destruct (first (code c0)) as [[sz [lo hi]] |] eqn:Hf.
  2:{ intros H. inversion H; subst. exact H1. }
  apply first_Some_cases in Hf as (Hlo & Hhi & _).
  destruct rest as [| c1 rest]; [intros H; inversion H; subst; exact H1 |].
  destruct ((code c1 <? lo) || (hi <? code c1)) eqn:Hb1;
    [intros H; inversion H; subst; exact H1 |].
  apply orb_false_elim in Hb1 as [Hb1 _]. apply Z.ltb_ge in Hb1.
  destruct (sz <=? 2)%nat.
  { intros H. inversion H; subst. cbn [take]. rewrite take_0.
    repeat constructor; lia. }
  destruct rest as [| c2 rest]; [intros H; inversion H; subst; exact H1 |].
  unfold isCont.
  destruct ((128 <=? code c2) && (code c2 <=? 191)) eqn:Hb2; cbn [negb];
    [| intros H; inversion H; subst; exact H1].
  apply andb_true_iff in Hb2 as [Hb2 _]. apply Z.leb_le in Hb2.
  destruct (sz <=? 3)%nat.
  { intros H. inversion H; subst. cbn [take]. rewrite take_0.
    repeat constructor; lia. }
  destruct rest as [| c3 rest]; [intros H; inversion H; subst; exact H1 |].
  destruct ((128 <=? code c3) && (code c3 <=? 191)) eqn:Hb3; cbn [negb];
    [| intros H; inversion H; subst; exact H1].
  apply andb_true_iff in Hb3 as [Hb3 _]. apply Z.leb_le in Hb3.
  intros H. inversion H; subst. cbn [take]. rewrite take_0.
  repeat constructor; lia.
Qed.

Lemma decode_high_rune (c0 : ascii) (rest : gostring) (r : Z) (w : nat) :
  128 <= code c0 -> DecodeRuneInString (c0 :: rest) = (r, w) -> 128 <= r.
Proof.
  intros Hc0 Hd.
  destruct (decode_encode (c0 :: rest) r w ltac:(discriminate) Hd)
    as [[He [[Hr0 _] _]] | [-> _]]; [| unfold RuneError; lia].
  destruct (Z.lt_ge_cases r 128) as [Hlt | Hge]; [| exact Hge].
  exfalso. unfold EncodeRune in He.
  destruct (Z.leb_spec 0 r); [| lia]. destruct (Z.leb_spec r 127); [| lia].
  cbn [andb] in He.
  apply decode_width in Hd; [| discriminate].
  destruct w as [| w]; [lia |]. cbn [take] in He. injection He as Hc _.
  subst c0. rewrite code_chr in Hc0 by lia. lia.
Qed.

Lemma isAlnum_ascii (c : ascii) : isAlnum c = true -> code c < 128.
Proof.
  intros Hc. change (isAlnum c) with (alnum (code c)) in Hc.
  apply alnum_ascii in Hc. lia.
Qed.

(** The letters and digits among the runes of a string are the bytes of
    the string that are ASCII letters or digits. *)
Lemma runes_filter_alnum (s : gostring) :
  List.filter alnum (runes s) = map code (List.filter isAlnum s).
Proof.
  induction s as [| s r w Hs Hd Hw IH] using range_ind; [reflexivity |].
  unfold runes in *. rewrite (rangeString_step s r w Hs Hd). cbn [map fst List.filter].
  assert (Hsplit : List.filter isAlnum s
                   = List.filter isAlnum (take w s) ++ List.filter isAlnum (drop w s))
    by (now rewrite <- List.filter_app, take_drop).
  rewrite Hsplit, map_app, <- IH.
  destruct s as [| c0 rest]; [congruence |].
  destruct (Z.lt_ge_cases (code c0) 128) as [Hlt | Hge].
  - rewrite decode_ascii in Hd by exact Hlt. inversion Hd; subst r w.
    cbn [take]. rewrite take_0. cbn [List.filter].
    change (isAlnum c0) with (alnum (code c0)).
    destruct (alnum (code c0)); reflexivity.
  - pose proof (decode_high_rune c0 rest r w Hge Hd) as Hr.
    pose proof (decode_high_bytes _ c0 rest r w eq_refl Hge Hd) as Hb.
    destruct (alnum r) eqn:Ha; [apply alnum_ascii in Ha; lia |].
    assert (List.filter isAlnum (take w (c0 :: rest)) = []) as ->; [| reflexivity].
    clear Hsplit. induction Hb as [| c l Hc Hl IHl]; [reflexivity |].
    cbn [List.filter]. destruct (isAlnum c) eqn:Hc'; [| exact IHl].
    apply isAlnum_ascii in Hc'. lia.
Qed.

(** What [isPalindrome] compares, in bytes. *)
Lemma cleaned_bytes (s : gostring) :
  ToLower (ReplaceAllString (Class notAlnum) s []) = map lowerByte (List.filter isAlnum s).
Proof.
  apply map_code_inj. rewrite cleaned_normalized. unfold normalized.
  rewrite runes_filter_alnum, !map_map. apply map_ext. intros c.
  symmetry. apply code_lowerByte.
Qed.

Lemma cleaned_palindrome_eq (s : gostring) :
  isPalindrome s
  = bool_decide (map lowerByte (List.filter isAlnum s)
                 = rev (map lowerByte (List.filter isAlnum s))).
Proof.
  unfold isPalindrome. cbv zeta. rewrite isPalindrome_loop_rev, cleaned_bytes. reflexivity.
Qed.

(** X15. The palindrome flag depends only on the bytes of the string that
    are ASCII letters or digits: it is true exactly when those bytes,
    lower-cased, read the same in both directions.  Every other byte, and
    with it every non-ASCII character, is ignored. *)
Theorem isPalindrome_bytes (s : gostring) :
  isPalindrome s = true <->
  map lowerByte (List.filter isAlnum s) = rev (map lowerByte (List.filter isAlnum s)).
Proof.
  rewrite cleaned_palindrome_eq. apply bool_decide_eq_true.
Qed.

Lemma lowerByte_facts (c : ascii) :
  isAlnum (lowerByte c) = isAlnum c /\ lowerByte (lowerByte c) = lowerByte c.
Proof.
  destruct c as [[] [] [] [] [] [] [] []]; split; reflexivity.
Qed.

Lemma filter_isAlnum_lower (s : gostring) :
  List.filter isAlnum (map lowerByte s) = map lowerByte (List.filter isAlnum s).
Proof.
  induction s as [| c s IH]; [reflexivity |].
  cbn [map List.filter]. rewrite (proj1 (lowerByte_facts c)), IH.
  destruct (isAlnum c); reflexivity.
Qed.

Lemma filter_isAlnum_idem (s : gostring) :
  List.filter isAlnum (List.filter isAlnum s) = List.filter isAlnum s.
Proof.
  induction s as [| c s IH]; [reflexivity |].
  cbn [List.filter]. destruct (isAlnum c) eqn:Hc; [| exact IH].
  cbn [List.filter]. now rewrite Hc, IH.
Qed.

Lemma rev_eq_rev {A} (l : list A) : rev l = rev (rev l) <-> l = rev l.
Proof. rewrite rev_involutive. split; intros H; symmetry; exact H. Qed.

(** X16. The palindrome flag is the same for a string and for the string
    read backwards, for the string with its ASCII capitals lower-cased, and
    for the string with everything but its ASCII letters and digits
    removed. *)
Theorem isPalindrome_invariant (s : gostring) :
  isPalindrome (rev s) = isPalindrome s
  /\ isPalindrome (map lowerByte s) = isPalindrome s
  /\ isPalindrome (List.filter isAlnum s) = isPalindrome s.
Proof.
  rewrite !cleaned_palindrome_eq. repeat split.
  - apply bool_decide_ext. rewrite List.filter_rev, map_rev. apply rev_eq_rev.
  - rewrite filter_isAlnum_lower, map_map.
    rewrite (map_ext (fun c => lowerByte (lowerByte c)) lowerByte
               (fun c => proj2 (lowerByte_facts c))).
    reflexivity.
  - now rewrite filter_isAlnum_idem.
Qed.

(** X17. A string followed by itself read backwards is a palindrome, and
    so is a string, one more byte, and the string read backwards. *)
Theorem mirrored_is_palindrome (s : gostring) (c : ascii) :
  isPalindrome (s ++ rev s) = true /\ isPalindrome (s ++ c :: rev s) = true.
Proof.
  rewrite !cleaned_palindrome_eq. split; apply bool_decide_eq_true.
  - rewrite List.filter_app, List.filter_rev, map_app, map_rev, rev_app_distr, rev_involutive.
    reflexivity.
  - change (c :: rev s) with ([c] ++ rev s).
    rewrite !List.filter_app, List.filter_rev, !map_app, map_rev, !rev_app_distr, rev_involutive.
    rewrite <- app_assoc. do 2 f_equal.
    cbn [List.filter]. destruct (isAlnum c); reflexivity.
Qed.


(** ** The frequency map *)

Lemma countKey_pos (key : gostring) (l : list Z) :
  countKey key l <> 0%nat <-> exists r, In r l /\ key = EncodeRune r.
Proof.
  split; [apply countKey_In |].
  intros (r & Hin & ->). unfold countKey.
  assert (Hf : In r (List.filter (fun r0 => bool_decide (EncodeRune r0 = EncodeRune r)) l)).
  { apply filter_In. split; [exact Hin |]. now apply bool_decide_eq_true. }
  destruct (List.filter _ l); [destruct Hf | discriminate].
Qed.

Lemma countKey_le (key : gostring) (l : list Z) : (countKey key l <= length l)%nat.
Proof. unfold countKey. apply List.filter_length_le. Qed.

Lemma frequency_lookup (s key : gostring) :
  getCharacterFrequency s !! key
  = if (countKey key (runes s) =? 0)%nat then None
    else Some (Z.of_nat (countKey key (runes s))).
Proof.
  unfold getCharacterFrequency. rewrite frequency_fold, lookup_empty.
  destruct (_ =? 0)%nat; [reflexivity |]. cbn [default]. f_equal; lia.
Qed.

Lemma frequency_dom (s : gostring) :
  dom (getCharacterFrequency s) = (list_to_set (map EncodeRune (runes s)) : gset gostring).
Proof.
  apply set_eq. intros key.
  rewrite elem_of_dom, elem_of_list_to_set, list_elem_of_In, in_map_iff, frequency_lookup.
  destruct (Nat.eqb_spec (countKey key (runes s)) 0) as [Hz | Hnz].
  - split; [intros [x Hx]; discriminate |].
    intros (r & <- & Hin). exfalso.
    assert (countKey (EncodeRune r) (runes s) <> 0%nat) by (apply countKey_pos; eauto).
    congruence.
  - split; [| eauto]. intros _.
    apply countKey_pos in Hnz as (r & Hin & ->). eauto.
Qed.

Lemma size_list_to_set_map (f : Z -> gostring) (l : list Z) :
  (forall x y, In x l -> In y l -> f x = f y -> x = y) ->
  size (list_to_set (map f l) : gset gostring) = size (list_to_set l : gset Z).
Proof.
  induction l as [| x l IH]; intros Hinj; [reflexivity |].
  cbn [map]. rewrite !list_to_set_cons.
  assert (IH' : size (list_to_set (map f l) : gset gostring) = size (list_to_set l : gset Z)).
  { apply IH. intros a b Ha Hb. apply Hinj; now right. }
  destruct (decide (x ∈ l)) as [Hin | Hnin].
  - assert (({[x]} ∪ list_to_set l : gset Z) = list_to_set l) as ->.
    { apply set_eq. intros y. rewrite elem_of_union, elem_of_singleton, elem_of_list_to_set.
      split; [intros [-> | Hy]; assumption | auto]. }
    assert (({[f x]} ∪ list_to_set (map f l) : gset gostring) = list_to_set (map f l)) as ->.
    { apply set_eq. intros y. rewrite elem_of_union, elem_of_singleton, elem_of_list_to_set.
      split; [intros [-> | Hy]; [| assumption] | auto].
      apply list_elem_of_In, in_map. now apply list_elem_of_In. }
    exact IH'.
  - rewrite !size_union, !size_singleton, IH'; [reflexivity | |].
    + apply disjoint_singleton_l. now rewrite elem_of_list_to_set.
    + apply disjoint_singleton_l. rewrite elem_of_list_to_set, list_elem_of_In, in_map_iff.
      intros (y & Hy & Hyin). apply Hnin.
      assert (y = x) as <-; [| now apply list_elem_of_In].
      apply Hinj; [now right | now left | exact Hy].
Qed.

Lemma totalCount_insert (m : gmap gostring Z) (k : gostring) (x : Z) :
  totalCount (<[k := x]> m) = x + totalCount m - default 0 (m !! k).
Proof.
  unfold totalCount.
  assert (Hcomm : forall (m' : gmap gostring Z) (j1 j2 : gostring) (z1 z2 y : Z),
            j1 <> j2 -> m' !! j1 = Some z1 -> m' !! j2 = Some z2 ->
            z1 + (z2 + y) = z2 + (z1 + y)) by (intros; lia).
  destruct (m !! k) as [y |] eqn:Hk; cbn [default]; unfold id.
  - rewrite <- insert_delete_eq.
    rewrite map_fold_insert_L; [| apply Hcomm | apply lookup_delete_eq].
    rewrite (map_fold_delete_L _ 0 k y m); [lia | apply Hcomm | exact Hk].
  - rewrite map_fold_insert_L; [lia | apply Hcomm | exact Hk].
Qed.

Lemma totalCount_fold (l : list Z) (m : gmap gostring Z) :
  totalCount (fold_left (fun frequency char =>
                           let k := EncodeRune char in
                           <[k := default 0 (frequency !! k) + 1]> frequency) l m)
  = totalCount m + Z.of_nat (length l).
Proof.
  revert m. induction l as [| r l IH]; intros m; [cbn; lia |].
  cbn [fold_left length]. rewrite IH, totalCount_insert. lia.
Qed.

(** X18. The fields of one record agree: the frequency map has as many
    entries as unique_characters says, every count in it is at least 1 and
    at most Length, and the counts add up to the number of characters of
    the value. *)
Theorem frequency_map_consistent (v : gostring) :
  let p := analyzeString v in
  Z.of_nat (size (CharacterFrequencyMap p)) = UniqueCharacters p
  /\ (forall key n, CharacterFrequencyMap p !! key = Some n -> 1 <= n <= Length p)
  /\ totalCount (CharacterFrequencyMap p) = Z.of_nat (length (runes v)).
Proof.
  cbv zeta. cbn [analyzeString CharacterFrequencyMap UniqueCharacters Length].
  split; [| split].
  - rewrite countUniqueCharacters_spec, <- size_dom, frequency_dom. f_equal.
    apply size_list_to_set_map. intros x y Hx Hy.
    pose proof (runes_valid v) as Hv. rewrite List.Forall_forall in Hv.
    apply EncodeRune_inj; auto.
  - intros key n. rewrite frequency_lookup.
    destruct (Nat.eqb_spec (countKey key (runes v)) 0) as [| Hnz]; [discriminate |].
    intros Hn. inversion Hn; subst n.
    pose proof (countKey_le key (runes v)). pose proof (length_runes v).
    unfold len. lia.
  - unfold getCharacterFrequency. rewrite totalCount_fold.
    unfold totalCount. rewrite map_fold_empty. lia.
Qed.


(** ** The word count *)

(** Decoding looks at no byte beyond the width it reports, and a sequence
    cut short is a stray byte as well. *)
Lemma decode_prefix (a b : gostring) (r : Z) (w : nat) :
  DecodeRuneInString (a ++ b) = (r, w) -> (1 <= w <= length a)%nat ->
  DecodeRuneInString a = (r, w).
Proof.
  intros Hd Hw.
  destruct a as [| c0 a]; [cbn in Hw; lia |].
  cbn [app] in Hd. unfold DecodeRuneInString in *.
  destruct (first (code c0)) as [[sz [lo hi]] |]; [| exact Hd].
  destruct a as [| c1 a]; cbn [app length] in *.
  { assert (w = 1%nat) as -> by lia.
    repeat case_match; inversion Hd; subst; reflexivity. }
  destruct ((code c1 <? lo) || (hi <? code c1)); [exact Hd |].
  destruct (sz <=? 2)%nat; [exact Hd |].
  destruct a as [| c2 a]; cbn [app length] in *.
  { repeat case_match; inversion Hd; subst; first [reflexivity | lia]. }
  destruct (negb (isCont (code c2))); [exact Hd |].
  destruct (sz <=? 3)%nat; [exact Hd |].
  destruct a as [| c3 a]; cbn [app length] in *.
  { repeat case_match; inversion Hd; subst; first [reflexivity | lia]. }
  exact Hd.
Qed.

(** Reading the bytes of a tail of the runes of a string gives that tail. *)
Lemma range_suffix (s : gostring) (lead rest : input) :
  rangeString s = lead ++ rest -> rangeString (bytesOf rest) = rest.
Proof.
  revert lead.
  induction s as [| s r w Hs Hd Hw IH] using range_ind; intros lead Hr.
  - rewrite rangeString_nil in Hr. symmetry in Hr.
    apply app_eq_nil in Hr as [_ ->]. reflexivity.
  - destruct lead as [| ch lead].
    + cbn [app] in Hr. rewrite <- Hr, bytesOf_rangeString. reflexivity.
    + rewrite (rangeString_step s r w Hs Hd) in Hr. cbn [app] in Hr.
      injection Hr as _ Hr. apply (IH lead). exact Hr.
Qed.

(** Reading the bytes of a front part of the runes of a string gives that
    front part. *)
Lemma range_prefix (s : gostring) (mid trail : input) :
  rangeString s = mid ++ trail -> rangeString (bytesOf mid) = mid.
Proof.
  revert mid.
  induction s as [| s r w Hs Hd Hw IH] using range_ind; intros mid Hr.
  - rewrite rangeString_nil in Hr. symmetry in Hr.
    apply app_eq_nil in Hr as [-> _]. reflexivity.
  - destruct mid as [| ch mid]; [reflexivity |].
    rewrite (rangeString_step s r w Hs Hd) in Hr. cbn [app] in Hr.
    injection Hr as Hch Hr. subst ch.
    pose proof (IH mid Hr) as IHm.
    assert (Hs' : s = (take w s ++ bytesOf mid) ++ bytesOf trail).
    { rewrite <- app_assoc, <- bytesOf_app, <- Hr, bytesOf_rangeString.
      symmetry. apply take_drop. }
    assert (Hlen : length (take w s) = w) by (rewrite length_take; lia).
    assert (Hd' : DecodeRuneInString (take w s ++ bytesOf mid) = (r, w)).
    { apply (decode_prefix _ (bytesOf trail)).
      - rewrite <- Hs'. exact Hd.
      - rewrite length_app. lia. }
    change (bytesOf ((r, take w s) :: mid)) with (take w s ++ bytesOf mid).
    rewrite (rangeString_step _ r w); [| | exact Hd'].
    + rewrite take_app_le, drop_app_le by lia.
      rewrite take_ge, drop_ge by lia. cbn [app]. now rewrite IHm.
    + intros Hnil. apply app_eq_nil in Hnil as [Hnil _].
      rewrite Hnil in Hlen. cbn in Hlen. lia.
Qed.

Lemma dropWhile_split {A} (f : A -> bool) (l : list A) :
  exists pre, l = pre ++ dropWhile f l /\ Forall (fun x => f x = true) pre.
Proof.
  induction l as [| x l (pre & Hl & Hpre)]; [exists []; now split |].
  cbn [dropWhile]. destruct (f x) eqn:Hx.
  - exists (x :: pre). split; [cbn [app]; now f_equal | now constructor].
  - exists []. now split.
Qed.

(** The runes [strings.TrimSpace] keeps, between white space on both
    sides. *)
Lemma TrimSpace_split (s : gostring) :
  exists lead both trail,
    rangeString s = lead ++ both ++ trail
    /\ TrimSpace s = bytesOf both
    /\ Forall (fun ch : Z * gostring => IsSpace (fst ch) = true) lead
    /\ Forall (fun ch : Z * gostring => IsSpace (fst ch) = true) trail.
Proof.
  unfold TrimSpace. cbv zeta.
  set (sp := fun ch : Z * gostring => IsSpace (fst ch)).
  destruct (dropWhile_split sp (rangeString s)) as (lead & Hl & Hlead).
  destruct (dropWhile_split sp (rev (dropWhile sp (rangeString s)))) as (tr & Ht & Htr).
  exists lead, (rev (dropWhile sp (rev (dropWhile sp (rangeString s))))), (rev tr).
  split; [| split; [reflexivity | split; [exact Hlead |]]].
  - rewrite <- rev_app_distr, <- Ht, rev_involutive. exact Hl.
  - apply List.Forall_rev. exact Htr.
Qed.

Lemma fieldsFrom_spaces (rs : input) (cur : option gostring) :
  Forall (fun ch : Z * gostring => IsSpace (fst ch) = true) rs ->
  fieldsFrom rs cur = match cur with Some f => [f] | None => [] end.
Proof.
  intros Hrs. revert cur.
  induction Hrs as [| [r bs] rs Hr _ IH]; intros cur; [reflexivity |].
  cbn [fieldsFrom]. cbn [fst] in Hr. rewrite Hr.
  destruct cur; now rewrite IH.
Qed.

Lemma fieldsFrom_trail (rs trail : input) (cur : option gostring) :
  Forall (fun ch : Z * gostring => IsSpace (fst ch) = true) trail ->
  fieldsFrom (rs ++ trail) cur = fieldsFrom rs cur.
Proof.
  intros Htr. revert cur.
  induction rs as [| [r bs] rs IH]; intros cur; cbn [app fieldsFrom].
  - now apply fieldsFrom_spaces.
  - destruct (IsSpace r); [destruct cur |]; now rewrite IH.
Qed.

Lemma fieldsFrom_lead (lead rs : input) :
  Forall (fun ch : Z * gostring => IsSpace (fst ch) = true) lead ->
  fieldsFrom (lead ++ rs) None = fieldsFrom rs None.
Proof.
  induction 1 as [| [r bs] lead Hr _ IH]; [reflexivity |].
  cbn [app fieldsFrom]. cbn [fst] in Hr. now rewrite Hr.
Qed.

Lemma Fields_TrimSpace (s : gostring) : Fields (TrimSpace s) = Fields s.
Proof.
  destruct (TrimSpace_split s) as (lead & both & trail & Hr & -> & Hlead & Htrail).
  unfold Fields. rewrite Hr, fieldsFrom_lead, fieldsFrom_trail by assumption.
  f_equal. apply (range_prefix (bytesOf (both ++ trail)) both trail).
  apply (range_suffix s lead). exact Hr.
Qed.

Lemma fieldsFrom_nil (rs : input) (cur : option gostring) :
  fieldsFrom rs cur = [] <->
  cur = None /\ Forall (fun r => IsSpace r = true) (map fst rs).
Proof.
  revert cur. induction rs as [| [r bs] rs IH]; intros cur; cbn [fieldsFrom map fst].
  - destruct cur; split; [discriminate | intros [? _]; discriminate | now split | reflexivity].
  - destruct (IsSpace r) eqn:Hr.
    + destruct cur as [f |].
      * split; [discriminate | intros [? _]; discriminate].
      * rewrite IH. split; intros [_ H]; (split; [reflexivity |]).
        -- now constructor.
        -- now inversion H.
    + rewrite IH. split; [intros [? _]; discriminate |].
      intros [_ H]. inversion H; congruence.
Qed.

Lemma fieldsFrom_length (rs : input) (cur : option gostring) :
  (length (fieldsFrom rs cur) <= length rs + match cur with Some _ => 1 | None => 0 end)%nat.
Proof.
  revert cur. induction rs as [| [r bs] rs IH]; intros cur; cbn [fieldsFrom length].
  - destruct cur; cbn; lia.
  - destruct (IsSpace r).
    + specialize (IH None). cbv beta iota in IH. destruct cur; cbn [length]; lia.
    + specialize (IH (Some (default [] cur ++ bs))). cbv beta iota in IH.
      destruct cur; cbn [default] in *; unfold id in *; lia.
Qed.

(** X19. word_count is the number of fields [strings.Fields] finds in the
    value itself: trimming first and the test for the empty string change
    nothing.  It is 0 exactly when every character of the value is white
    space, and it never exceeds the number of characters. *)
Theorem countWords_fields (s : gostring) :
  countWords s = Z.of_nat (length (Fields s))
  /\ (countWords s = 0 <-> Forall (fun r => IsSpace r = true) (runes s))
  /\ 0 <= countWords s <= Z.of_nat (length (runes s)).
Proof.
  assert (Hc : countWords s = Z.of_nat (length (Fields s))).
  { unfold countWords. cbv zeta. rewrite <- (Fields_TrimSpace s).
    destruct (TrimSpace s); reflexivity. }
  split; [exact Hc | split].
  - rewrite Hc. unfold Fields, runes.
    pose proof (fieldsFrom_nil (rangeString s) None) as Hn.
    split.
    + intros Hz. apply Hn. destruct (fieldsFrom (rangeString s) None); [reflexivity |].
      cbn [length] in Hz. lia.
    + intros Hall. destruct Hn as [_ Hn]. now rewrite Hn.
  - rewrite Hc. unfold Fields, runes. rewrite length_map.
    pose proof (fieldsFrom_length (rangeString s) None) as Hl.
    cbv beta iota in Hl. lia.
Qed.


(** ** The length filters beyond the range of [int] *)

Lemma matches_min_length_only (n : Z) (d : StringData) :
  matchesNaturalFilters d (<[str "min_length" := VInt n]> ∅)
  = negb (Length (Properties d) <? n).
Proof.
  rewrite matchers_agree.
  assert (Hp : asBool ((<[str "min_length" := VInt n]> ∅ : gmap gostring value)
                         !! str "is_palindrome") = None) by (vm_compute; reflexivity).
  assert (Hmn : asInt ((<[str "min_length" := VInt n]> ∅ : gmap gostring value)
                         !! str "min_length") = Some n) by (vm_compute; reflexivity).
  assert (Hmx : asInt ((<[str "min_length" := VInt n]> ∅ : gmap gostring value)
                         !! str "max_length") = None) by (vm_compute; reflexivity).
  assert (Hwc : asInt ((<[str "min_length" := VInt n]> ∅ : gmap gostring value)
                         !! str "word_count") = None) by (vm_compute; reflexivity).
  assert (Hc : asString ((<[str "min_length" := VInt n]> ∅ : gmap gostring value)
                           !! str "contains_character") = []) by (vm_compute; reflexivity).
  rewrite Hp, Hmn, Hmx, Hwc, Hc. unfold matchesFilters.
  destruct (Length (Properties d) <? n); reflexivity.
Qed.

(** C1. The rule min_length = N+1 fails where N+1 does not fit an [int].
    For "longer than 9223372036854775807" the pattern matches with
    N = 2^63-1, [strconv.Atoi] returns N and [length + 1] wraps around:
    min_length is -2^63 and not N+1 = 2^63.  For N = 2^63 [strconv.Atoi]
    reports a range error, which the translator drops, and the result is
    the same (and "shorter than 9223372036854775808" gives max_length =
    2^63-2, not N-1 = 2^63-1); the list handler, which checks that error, rejects the same
    number as min_length parameter.  With min_length = -2^63 the handler
    of the natural-language route returns every stored record instead of
    none. *)
Theorem translate_length_overflow :
  matchesNumber "longer than " (ToLower (str "longer than 9223372036854775807"))
                (str "9223372036854775807")
  /\ decimal (str "9223372036854775807") + 1 = 9223372036854775808
  /\ parseNaturalLanguageQuery (str "longer than 9223372036854775807")
     = inl (<[str "min_length" := VInt (-9223372036854775808)]> ∅)
  /\ Atoi (str "9223372036854775808") = (9223372036854775807, false)
  /\ parseNaturalLanguageQuery (str "longer than 9223372036854775808")
     = inl (<[str "min_length" := VInt (-9223372036854775808)]> ∅)
  /\ parseNaturalLanguageQuery (str "shorter than 9223372036854775808")
     = inl (<[str "max_length" := VInt 9223372036854775806]> ∅)
  /\ (forall st : storage,
        getAllStrings [] (str "9223372036854775808") [] [] [] st
        = ListError StatusBadRequest (str "Invalid value for min_length"))
  /\ (forall st : storage, reachable st ->
        exists r, filterByNaturalLanguage (str "longer than 9223372036854775807") st
                  = JSONFiltered r
                  /\ forall d, In d (Data r) <-> exists k, st !! k = Some d).
Proof.
  assert (Hparse : parseNaturalLanguageQuery (str "longer than 9223372036854775807")
                   = inl (<[str "min_length" := VInt (-9223372036854775808)]> ∅))
    by (vm_compute; reflexivity).
  split; [| split; [| split; [| split; [| split; [| split; [| split]]]]]].
  - exists [], []. split; [vm_compute; reflexivity |]. split; [discriminate |].
    split; [repeat constructor |]. split; [exact I |].
    intros pre' d post' _ _. simpl. lia.
  - vm_compute. reflexivity.
  - exact Hparse.
  - vm_compute. reflexivity.
  - vm_compute. reflexivity.
  - vm_compute. reflexivity.
  - intros st. vm_compute. reflexivity.
  - intros st Hst. unfold filterByNaturalLanguage.
    change (str "longer than 9223372036854775807")
      with ("l"%char :: str "onger than 9223372036854775807") at 1.
    cbv iota.
    change ("l"%char :: str "onger than 9223372036854775807")
      with (str "longer than 9223372036854775807").
    rewrite Hparse. eexists. split; [reflexivity |].
    cbn [Data]. intros d. rewrite filter_In, stored_records.
    split; [intros [Hd _]; exact Hd |].
    intros [k Hk]. split; [eauto |].
    destruct (reachable_keys st Hst k d Hk) as (_ & _ & Hprop & _).
    rewrite matches_min_length_only, Hprop. cbn [analyzeString Length].
    apply negb_true_iff, Z.ltb_ge. unfold len. lia.
Qed.

End Properties.

(** ** The properties on concrete inputs *)

Lemma store_operations_witness :
  getSpecificString (str "a")
    (snd (deleteString (str "a")
            (snd (createString (platform := trivialPlatform) (Some (str "a")) 0 ∅))))
  = NewError StatusNotFound (str "String does not exist in the system").
Proof.
  apply (store_operations (platform := trivialPlatform) (str "a")). discriminate.
Defined.

(** With the empty value the second insert fails like the first one, with
    the invalid-input error and not with Conflict. *)
Lemma store_operations_counterexample :
  ~ exists platform : Platform,
      fst (createString (Some []) 2 (snd (createString (Some []) 1 ∅)))
      = NewError StatusConflict (str "String already exists in the system").
Proof. intros [platform H]. discriminate H. Qed.

Lemma empty_value_rejected_witness :
  snd (createString (platform := trivialPlatform) (Some (str "a")) 0 ∅) !! [] = None.
Proof.
  apply (proj1 (proj2 (empty_value_rejected (platform := trivialPlatform)))).
  apply reach_create, reach_init.
Defined.

Lemma panama_record_witness :
  exists d, createString (platform := trivialPlatform) (Some panama) 0 ∅
            = (JSONRecord StatusCreated d, <[panama := d]> ∅)
            /\ IsPalindrome (Properties d) = true
            /\ WordCount (Properties d) = 7.
Proof. apply panama_record. reflexivity. Defined.

(** The words are A, man, a, plan, a, canal and Panama: seven, not six. *)
Lemma panama_record_counterexample :
  ~ exists platform : Platform, WordCount (analyzeString panama) = 6.
Proof. intros [platform H]. vm_compute in H. discriminate H. Qed.

Lemma translate_unparseable_witness :
  exists k v,
    <[str "is_palindrome" := VBool true]> (∅ : gmap gostring value) !! k = Some v.
Proof.
  apply (proj1 (proj2 (proj2
           (translate_unparseable (platform := trivialPlatform) (str "palindrome"))))).
  vm_compute. reflexivity.
Defined.

Lemma numeric_fields_witness :
  exists n, VInt 6 = VInt n /\ 1 <= n.
Proof.
  assert (Hp : parseNaturalLanguageQuery (platform := trivialPlatform)
                 (str "strings longer than 5")
               = inl (<[str "min_length" := VInt 6]> (∅ : gmap gostring value)))
    by (vm_compute; reflexivity).
  apply (proj2 (proj2 (numeric_fields _ _ Hp))).
  - vm_compute. reflexivity.
  - vm_compute. reflexivity.
Defined.

(** "shorter than 0" sets max_length to -1. *)
Lemma numeric_fields_counterexample :
  ~ exists platform : Platform,
      forall f, parseNaturalLanguageQuery (str "strings shorter than 0") = inl f ->
      forall n, f !! str "max_length" = Some (VInt n) -> 0 <= n.
Proof.
  intros [platform Hclaim].
  assert (Hp : parseNaturalLanguageQuery (str "strings shorter than 0")
               = inl (<[str "max_length" := VInt (-1)]> (∅ : gmap gostring value)))
    by (vm_compute; reflexivity).
  specialize (Hclaim _ Hp (-1)). rewrite lookup_insert_eq in Hclaim.
  specialize (Hclaim eq_refl). lia.
Qed.

Lemma translate_length_witness :
  exists f, parseNaturalLanguageQuery (platform := trivialPlatform) (str "longer than 5")
            = inl f
            /\ f !! str "min_length" = Some (VInt (decimal (str "5") + 1)).
Proof.
  apply (proj1 (translate_length (platform := trivialPlatform)
                  (str "longer than 5") (str "5"))).
  - exists [], []. split; [reflexivity |]. split; [discriminate |].
    split; [repeat constructor |]. split; [exact I |].
    intros pre' d post' _ _. simpl. lia.
  - vm_compute. reflexivity.
Defined.

(** "longer than 9223372036854775807": N is the largest [int], N+1 wraps
    around to the smallest one. *)
Lemma translate_length_counterexample :
  ~ exists platform : Platform,
      matchesNumber "longer than "
        (ToLower (str "longer than 9223372036854775807")) (str "9223372036854775807") ->
      exists f, parseNaturalLanguageQuery (str "longer than 9223372036854775807") = inl f
                /\ f !! str "min_length"
                   = Some (VInt (decimal (str "9223372036854775807") + 1)).
Proof.
  intros [platform Hclaim].
  destruct Hclaim as (f & Hf & Hmin).
  - exists [], []. split; [vm_compute; reflexivity |]. split; [discriminate |].
    split; [repeat constructor |]. split; [exact I |].
    intros pre' d post' _ _. simpl. lia.
  - assert (Hparse : parseNaturalLanguageQuery (str "longer than 9223372036854775807")
                     = inl (<[str "min_length" := VInt (-9223372036854775808)]> ∅))
      by (vm_compute; reflexivity).
    rewrite Hparse in Hf. inversion Hf; subst f.
    vm_compute in Hmin. discriminate Hmin.
Qed.

Lemma single_word_palindromes_witness :
  exists f, parseNaturalLanguageQuery (platform := trivialPlatform)
              (str "single word or two word") = inl f
            /\ f !! str "word_count" = Some (VInt 1).
Proof.
  apply (proj1 (proj2 (proj2 (single_word_palindromes (platform := trivialPlatform))))).
  - exists [], (str " or two word"). reflexivity.
  - exists (str "single word or "), []. reflexivity.
Defined.

Lemma isPalindrome_spec_witness :
  isPalindrome (platform := trivialPlatform) (str "a!") = true.
Proof.
  apply (proj2 (isPalindrome_spec (platform := trivialPlatform) (str "a!"))).
  vm_compute. lia.
Defined.

Lemma length_in_bytes_witness :
  CharacterFrequencyMap (analyzeString (platform := trivialPlatform) eAcute)
    !! EncodeRune 233 = Some 1.
Proof.
  apply (proj1 (proj2 (proj2 (length_in_bytes (platform := trivialPlatform) eAcute))) 233).
  unfold validScalar, MaxRune. lia.
Defined.

(** ** The further properties on concrete inputs *)

Lemma stored_record_invariant_witness :
  Value {| ID := []; Value := str "a";
           Properties := analyzeString (platform := trivialPlatform) (str "a");
           CreatedAt := 0 |} = str "a".
Proof.
  eapply (proj1 (proj2 (stored_record_invariant (platform := trivialPlatform)
            (snd (createString (platform := trivialPlatform) (Some (str "a")) 0 ∅))
            (str "a") _ _ _))).
  Unshelve.
  - apply reach_create, reach_init.
  - vm_compute. reflexivity.
Defined.

Lemma create_then_delete_witness :
  deleteString (str "a")
    (snd (createString (platform := trivialPlatform) (Some (str "a")) 0 ∅))
  = (SendStatus StatusNoContent, ∅).
Proof.
  apply (create_then_delete (platform := trivialPlatform) (str "a") 0 ∅ _
           {| ID := []; Value := str "a";
              Properties := analyzeString (platform := trivialPlatform) (str "a");
              CreatedAt := 0 |}).
  vm_compute. reflexivity.
Defined.

Lemma other_values_untouched_witness :
  getSpecificString (str "b")
    (snd (createString (platform := trivialPlatform) (Some (str "a")) 0 ∅))
  = getSpecificString (str "b") ∅
  /\ getSpecificString (str "b")
       (snd (deleteString (str "a") ∅))
     = getSpecificString (str "b") ∅.
Proof.
  apply (other_values_untouched (platform := trivialPlatform) (str "a") (str "b") 0 ∅).
  discriminate.
Defined.

Lemma delete_then_create_witness :
  exists d,
    createString (platform := trivialPlatform) (Some (str "a")) 7
      (snd (deleteString (str "a") ∅))
    = (JSONRecord StatusCreated d, <[str "a" := d]> (delete (str "a") ∅))
    /\ Value d = str "a" /\ CreatedAt d = 7
    /\ getSpecificString (str "a")
         (<[str "a" := d]> (delete (str "a") ∅)) = JSONRecord StatusOK d.
Proof.
  apply (delete_then_create (platform := trivialPlatform) (str "a") 7 ∅).
  discriminate.
Defined.

Lemma list_matches_reported_filters_witness :
  GetAllStringsResponse.Count
    {| GetAllStringsResponse.Data :=
         [{| ID := []; Value := str "a";
             Properties := analyzeString (platform := trivialPlatform) (str "a");
             CreatedAt := 0 |}];
       GetAllStringsResponse.Count := 1;
       GetAllStringsResponse.FiltersApplied := <[str "is_palindrome" := VBool true]> ∅ |}
  = 1.
Proof.
  apply (proj2 (list_matches_reported_filters (platform := trivialPlatform)
                  (str "true") [] [] [] []
                  (snd (createString (platform := trivialPlatform) (Some (str "a")) 0 ∅))
                  _ ltac:(vm_compute; reflexivity))).
Defined.

Lemma list_filters_validated_witness :
  StatusBadRequest = StatusBadRequest
  /\ getAllStrings (platform := trivialPlatform) [] (str "-1") [] [] []
       (snd (createString (platform := trivialPlatform) (Some (str "a")) 0 ∅))
     = ListError StatusBadRequest (str "Invalid value for min_length").
Proof.
  apply (proj2 (list_filters_validated (platform := trivialPlatform)
                  [] (str "-1") [] [] [] ∅)).
  vm_compute. reflexivity.
Defined.

Lemma list_min_length_number_witness :
  exists r, getAllStrings (platform := trivialPlatform) [] (str "5") [] [] [] ∅ = JSONList r
    /\ GetAllStringsResponse.FiltersApplied r
       = <[str "min_length" := VInt (decimal (str "5"))]> ∅
    /\ forall d, In d (GetAllStringsResponse.Data r) <->
                 (exists k, (∅ : storage) !! k = Some d)
                 /\ decimal (str "5") <= Length (Properties d).
Proof.
  apply (proj1 (list_min_length_number (platform := trivialPlatform) (str "5") ∅
                  ltac:(discriminate) ltac:(repeat constructor))).
  vm_compute. discriminate.
Defined.

Lemma parsed_filters_typed_witness :
  (str "is_palindrome" = str "is_palindrome" /\ VBool true = VBool true)
  \/ (str "is_palindrome" = str "word_count" /\ (VBool true = VInt 1 \/ VBool true = VInt 2))
  \/ (str "is_palindrome" = str "min_length" /\ exists n, VBool true = VInt n)
  \/ (str "is_palindrome" = str "max_length" /\ exists n, VBool true = VInt n)
  \/ (str "is_palindrome" = str "contains_character"
      /\ exists x, VBool true = VString [x] /\ isLower x = true).
Proof.
  assert (Hp : parseNaturalLanguageQuery (platform := trivialPlatform) (str "palindrome")
               = inl (<[str "is_palindrome" := VBool true]> (∅ : gmap gostring value)))
    by (vm_compute; reflexivity).
  apply (parsed_filters_typed _ _ (str "is_palindrome") (VBool true) Hp).
  vm_compute. reflexivity.
Defined.

Lemma first_vowel_wins_witness :
  exists f, parseNaturalLanguageQuery (platform := trivialPlatform)
              (str "contains the letter z and the First Vowel") = inl f
            /\ f !! str "contains_character" = Some (VString (str "a")).
Proof.
  apply (first_vowel_wins (platform := trivialPlatform)).
  exists (str "contains the letter z and the "), []. vm_compute. reflexivity.
Defined.

Lemma translation_ignores_case_witness :
  parseNaturalLanguageQuery (platform := trivialPlatform) (str "Palindromic STRINGS")
  = parseNaturalLanguageQuery (platform := trivialPlatform) (str "palindromic strings").
Proof.
  apply (translation_ignores_case (platform := trivialPlatform)).
  - unfold isASCII. vm_compute. repeat constructor.
  - unfold isASCII. vm_compute. repeat constructor.
  - vm_compute. reflexivity.
Defined.

Lemma natural_language_outcomes_witness :
  filterByNaturalLanguage (platform := trivialPlatform) [] ∅
  = NewError StatusBadRequest (str "Missing 'query' parameter").
Proof.
  apply (proj1 (natural_language_outcomes (platform := trivialPlatform) [] ∅)).
  reflexivity.
Defined.

Lemma frequency_map_consistent_witness :
  1 <= 2 <= Length (analyzeString (platform := trivialPlatform) (str "aba")).
Proof.
  apply (proj1 (proj2 (frequency_map_consistent (platform := trivialPlatform) (str "aba")))
           (str "a") 2).
  vm_compute. reflexivity.
Defined.

Lemma translate_length_overflow_witness :
  exists r, filterByNaturalLanguage (platform := trivialPlatform)
              (str "longer than 9223372036854775807")
              (snd (createString (platform := trivialPlatform) (Some (str "a")) 0 ∅))
            = JSONFiltered r
            /\ forall d, In d (Data r) <->
                 exists k, snd (createString (platform := trivialPlatform)
                                  (Some (str "a")) 0 ∅) !! k = Some d.
Proof.
  apply (proj2 (proj2 (proj2 (proj2 (proj2 (proj2 (proj2
           (translate_length_overflow (platform := trivialPlatform))))))))).
  apply reach_create, reach_init.
Defined.
